(** * TraceCollector: failure analysis of multi-agent logs

    Shallow embedding of [src/TraceCollector.py] (classes [TraceCollector],
    [FailureAnalyzer], [FailurePropagationMonitor] and [PatchEvaluator]) and
    of [src/metagpt_trace_integration.py] (classes [MetaGPTTraceHandler] and
    [MetaGPTTraceManager], and [run_trace_analysis]), and the properties
    checked against them.

    Modelling conventions.
    - A Python [str] is a [string] of 8-bit characters, the code points
      below 256; [str.lower] folds the letters A-Z and the capital letters of
      Latin-1, [str.strip] removes the twelve characters below 256 that
      Python takes for white space, [kw in s] is substring search, and [<]
      on [str] is [String.compare] (character by character, a proper prefix
      first).
    - A log entry is a [dict] that may lack any of its three keys, so every
      field is an [option]; [log.get(k, d)] is [get] and [log[k]] is
      [getitem], which raises [KeyError].
    - A [dict] whose iteration order is observed ([seen] of
      [show_failure_introducers]) is an association list in insertion order;
      the other dictionaries and the Python sets are [gmap]s and [gset]s.
    - [datetime.fromisoformat] and [str] of a [timedelta] are library
      functions: they are section variables of the report. A [datetime] is
      naive or aware, and comparing or subtracting one of each kind raises
      [TypeError]. *)

From Stdlib Require Import String Ascii List ZArith Lia Bool Sorted Permutation.
From stdpp Require Import base option list gmap sets strings pretty.

Local Open Scope string_scope.
Local Open Scope list_scope.

(** ** Python strings *)

Module PyStr.

(** [c.lower()] on one 8-bit character: the letters A-Z and the capital
    letters of Latin-1, 0xc0-0xde without the multiplication sign 0xd7. *)
Definition lower_char (c : ascii) : ascii :=
  let n := nat_of_ascii c in
  if ((65 <=? n)%nat && (n <=? 90)%nat)
     || ((192 <=? n)%nat && (n <=? 222)%nat && negb (n =? 215)%nat)
  then ascii_of_nat (n + 32) else c.

(** [s.lower()] *)
Fixpoint lower (s : string) : string :=
  match s with
  | EmptyString => EmptyString
  | String c s' => String (lower_char c) (lower s')
  end.

(** [kw in s]: [kw] occurs in [s] at some position. *)
Fixpoint contains (kw s : string) : bool :=
  String.prefix kw s ||
  match s with
  | EmptyString => false
  | String _ s' => contains kw s'
  end.

(** [any(word in s for word in words)] *)
Definition any_in (words : list string) (s : string) : bool :=
  existsb (fun word => contains word s) words.

(** [c.isspace()] on an 8-bit character: tab, line feed, vertical tab, form
    feed, carriage return, the four separators 0x1c-0x1f, space, next line
    (0x85) and no-break space (0xa0). [str.strip()] removes these. *)
Definition isspace (c : ascii) : bool :=
  let n := nat_of_ascii c in
  ((9 <=? n)%nat && (n <=? 13)%nat) || ((28 <=? n)%nat && (n <=? 32)%nat)
  || (n =? 133)%nat || (n =? 160)%nat.

Fixpoint lstrip (s : string) : string :=
  match s with
  | EmptyString => EmptyString
  | String c s' => if isspace c then lstrip s' else s
  end.

Fixpoint rstrip (s : string) : string :=
  match s with
  | EmptyString => EmptyString
  | String c s' =>
      match rstrip s' with
      | EmptyString => if isspace c then EmptyString else String c EmptyString
      | r => String c r
      end
  end.

(** [s.strip()] *)
Definition strip (s : string) : string := rstrip (lstrip s).

End PyStr.

(** ** Log entries and Python's exceptions *)

Inductive PyErr : Type :=
| KeyError (key : string)
| TypeError.

Inductive result (A : Type) : Type :=
| Ok (a : A)
| Raise (e : PyErr).
Arguments Ok {A} a.
Arguments Raise {A} e.

#[global] Instance result_ret : MRet result := fun A a => Ok a.

#[global] Instance result_bind : MBind result := fun A B k r =>
  match r with
  | Ok a => k a
  | Raise e => Raise e
  end.

(** A [for] loop whose body may raise. *)
Fixpoint for_each {A S : Type} (body : S -> A -> result S) (xs : list A) (s : S)
  : result S :=
  match xs with
  | [] => Ok s
  | x :: xs' => s' ← body s x; for_each body xs' s'
  end.

(** A log entry: a [dict] with the keys ['agent_id'], ['timestamp'] and
    ['message'], any of which may be absent. *)
Record Log : Type := mkLog {
  agent_id : option string;
  timestamp : option string;
  message : option string
}.

(** An entry with all three keys. *)
Definition entry (a t m : string) : Log := mkLog (Some a) (Some t) (Some m).

(** [log.get(key, dflt)] *)
Definition get (field : option string) (dflt : string) : string :=
  match field with
  | Some v => v
  | None => dflt
  end.

(** [log[key]] *)
Definition getitem (key : string) (field : option string) : result string :=
  match field with
  | Some v => Ok v
  | None => Raise (KeyError key)
  end.

(** [bool(log)]: a [dict] is true when it has a key. *)
Definition dict_truthy (log : Log) : bool :=
  match agent_id log, timestamp log, message log with
  | None, None, None => false
  | _, _, _ => true
  end.

(** The two keyword lists the source tests messages against. *)
Definition failure_words : list string :=
  ["fail"; "error"; "exception"; "crash"; "timeout"; "hallucination"].

Definition basic_failure_words : list string :=
  ["fail"; "error"; "exception"; "crash"].

(** [any(word in msg.lower() for word in [six words])] *)
Definition is_failure (msg : string) : bool :=
  PyStr.any_in failure_words (PyStr.lower msg).

(** [any(word in msg.lower() for word in [four words])] *)
Definition is_basic_failure (msg : string) : bool :=
  PyStr.any_in basic_failure_words (PyStr.lower msg).

(** ** FailureAnalyzer *)

Module FailureAnalyzer.

Definition syntax_keywords : list string :=
  ["syntax error"; "compile error"; "compilation failed"; "unexpected indent";
   "invalid syntax"].

Definition logic_keywords : list string :=
  ["assertion failed"; "test failed"; "logic error"; "incorrect result";
   "wrong output"; "failed test"; "did not pass"; "mismatch"].

Definition hallucination_keywords : list string :=
  ["hallucination"; "nonsensical"; "made up"; "fabricated"; "not in context";
   "irrelevant"; "llm error"; "llm mistake"].

Definition _categorize_failure (msg : string) : string :=
  let msg_lower := PyStr.lower msg in
  if PyStr.any_in syntax_keywords msg_lower then "Syntax / compile error"
  else if PyStr.any_in logic_keywords msg_lower then "Logic / test failure"
  else if PyStr.contains "timeout" msg_lower || PyStr.contains "timed out" msg_lower
       then "Timeout"
  else if PyStr.any_in hallucination_keywords msg_lower then "LLM hallucination"
  else "Other".

(** A classified failure: [{**log, 'category': categorized}]. *)
Record FailureRecord : Type := mkFailureRecord {
  record_log : Log;
  category : string
}.

Definition group_step (failures : gmap string (list FailureRecord)) (log : Log)
  : gmap string (list FailureRecord) :=
  let agent := get (agent_id log) "unknown" in
  let msg := get (message log) "" in
  if is_failure msg then
    let failures' :=
      match failures !! agent with
      | None => <[agent := []]> failures
      | Some _ => failures
      end in
    let categorized := _categorize_failure msg in
    <[agent := default [] (failures' !! agent) ++ [mkFailureRecord log categorized]]>
      failures'
  else failures.

Definition _group_failures_by_agent (logs : list Log)
  : gmap string (list FailureRecord) :=
  fold_left group_step logs ∅.

End FailureAnalyzer.

(** The closed enumeration of the specification and the label the code
    returns for each member. *)
Inductive FailureCategory : Type :=
| SyntaxOrCompileError
| LogicOrTestFailure
| Timeout
| LlmHallucination
| Other.

Definition category_label (c : FailureCategory) : string :=
  match c with
  | SyntaxOrCompileError => "Syntax / compile error"
  | LogicOrTestFailure => "Logic / test failure"
  | Timeout => "Timeout"
  | LlmHallucination => "LLM hallucination"
  | Other => "Other"
  end.

(** ** FailurePropagationMonitor *)

Module FailurePropagationMonitor.

(** The sort key [lambda x: x.get('timestamp', '')]. *)
Definition sort_key (x : Log) : string := get (timestamp x) "".

(** [sorted(logs, key=...)] returns a new list and is stable: an entry
    goes in front of the first entry whose key is not smaller than its
    own, and the entries are inserted from the last to the first. *)
Fixpoint insert_by_key (x : Log) (l : list Log) : list Log :=
  match l with
  | [] => [x]
  | y :: l' =>
      if String.leb (sort_key x) (sort_key y) then x :: l
      else y :: insert_by_key x l'
  end.

Definition sorted (logs : list Log) : list Log :=
  foldr insert_by_key [] logs.

(** [__init__]: the value of [self.logs]. *)
Definition __init__ (logs : list Log) : list Log := sorted logs.

Record PropagationEdge : Type := mkEdge {
  source_agent : string;
  target_agent : string;
  edge_timestamp : string;
  edge_message : string
}.

(** [if last_failure:] *)
Definition truthy (last_failure : option Log) : bool :=
  match last_failure with
  | Some log => dict_truthy log
  | None => false
  end.

(** One iteration of the loop of [map_failure_propagation] over the state
    [(propagation, last_failure)]. *)
Definition propagation_step (st : list PropagationEdge * option Log) (log : Log)
  : result (list PropagationEdge * option Log) :=
  let '(propagation, last_failure) := st in
  let msg := PyStr.lower (get (message log) "") in
  if PyStr.any_in basic_failure_words msg then
    propagation' ←
      match last_failure with
      | Some lf =>
          if truthy last_failure then
            a ← getitem "agent_id" (agent_id log);
            la ← getitem "agent_id" (agent_id lf);
            if negb (String.eqb a la) then
              src ← getitem "agent_id" (agent_id lf);
              tgt ← getitem "agent_id" (agent_id log);
              ts ← getitem "timestamp" (timestamp log);
              m ← getitem "message" (message log);
              Ok (propagation ++ [mkEdge src tgt ts m])
            else Ok propagation
          else Ok propagation
      | None => Ok propagation
      end;
    Ok (propagation', Some log)
  else Ok st.

(** [map_failure_propagation], on the value of [self.logs]. *)
Definition map_failure_propagation (self_logs : list Log)
  : result (list PropagationEdge) :=
  st ← for_each propagation_step self_logs ([], None);
  Ok (fst st).

(** [msg in seen] and [seen[msg] = agent] on an insertion-ordered [dict]. *)
Definition dict_mem (k : string) (d : list (string * string)) : bool :=
  existsb (fun kv => String.eqb (fst kv) k) d.

Fixpoint dict_set (d : list (string * string)) (k v : string)
  : list (string * string) :=
  match d with
  | [] => [(k, v)]
  | (k', v') :: d' =>
      if String.eqb k' k then (k, v) :: d' else (k', v') :: dict_set d' k v
  end.

Definition introducer_step (seen : list (string * string)) (log : Log)
  : result (list (string * string)) :=
  let msg := PyStr.strip (get (message log) "") in
  if PyStr.any_in failure_words (PyStr.lower msg) then
    if negb (dict_mem msg seen) then
      a ← getitem "agent_id" (agent_id log);
      Ok (dict_set seen msg a)
    else Ok seen
  else Ok seen.

(** [show_failure_introducers], on the value of [self.logs]: the [dict]
    [seen] that the method prints, entry by entry, in its order. *)
Definition show_failure_introducers (self_logs : list Log)
  : result (list (string * string)) :=
  for_each introducer_step self_logs [].

(** [extract_failures]: a [defaultdict(list)]. *)
Definition extract_step (failures : gmap string (list string)) (log : Log)
  : gmap string (list string) :=
  let agent := get (agent_id log) "unknown" in
  let msg := PyStr.strip (get (message log) "") in
  if PyStr.any_in failure_words (PyStr.lower msg) then
    <[agent := default [] (failures !! agent) ++ [msg]]> failures
  else failures.

Definition extract_failures (logs : list Log) : gmap string (list string) :=
  fold_left extract_step logs ∅.

(** The three lists of the result are [list(s)] of a Python set [s], whose
    order is not determined: they are kept as sets. *)
Record PatchAgentResult : Type := mkPatchAgentResult {
  fully_fixed : gset string;
  partially_fixed : gset string;
  newly_introduced : gset string
}.

Definition patch_propagation_analysis (logs_before logs_after : list Log)
  : gmap string PatchAgentResult :=
  let before := extract_failures logs_before in
  let after := extract_failures logs_after in
  let all_agents : gset string := dom before ∪ dom after in
  set_fold (fun agent result =>
    let before_set : gset string := list_to_set (default [] (before !! agent)) in
    let after_set : gset string := list_to_set (default [] (after !! agent)) in
    let fixed := before_set ∖ after_set in
    let partial := before_set ∩ after_set in
    let introduced := after_set ∖ before_set in
    <[agent := mkPatchAgentResult fixed partial introduced]> result)
    ∅ all_agents.

End FailurePropagationMonitor.

(** ** PatchEvaluator *)

Module PatchEvaluator.

Definition count_step (failures : gmap string nat) (log : Log) : gmap string nat :=
  let agent := get (agent_id log) "unknown" in
  if PyStr.any_in basic_failure_words (PyStr.lower (get (message log) "")) then
    <[agent := default 0 (failures !! agent) + 1]> failures
  else failures.

Definition count_failures (logs : list Log) : gmap string nat :=
  fold_left count_step logs ∅.

(** The [if]/[elif] chain of [evaluate_patch_effectiveness]; an f-string
    prints a count in decimal. *)
Definition evaluation_of (b a : nat) : string :=
  if ((b =? 0) && (a =? 0))%nat then "No failures before or after patch."
  else if ((0 <? b) && (a =? 0))%nat then
    "All failures resolved (before: " +:+ pretty b +:+ ", after: 0)."
  else if ((b =? 0) && (0 <? a))%nat then
    "New failures introduced (before: 0, after: " +:+ pretty a +:+ ")."
  else if (a <? b)%nat then
    "Failures reduced (before: " +:+ pretty b +:+ ", after: " +:+ pretty a +:+ ")."
  else if (a =? b)%nat then
    "No change in failures (before: " +:+ pretty b +:+ ", after: " +:+ pretty a +:+ ")."
  else
    "Failures increased (before: " +:+ pretty b +:+ ", after: " +:+ pretty a +:+ ").".

Definition evaluate_patch_effectiveness (logs_before logs_after : list Log)
  : gmap string string :=
  let before := count_failures logs_before in
  let after := count_failures logs_after in
  let all_agents : gset string := dom before ∪ dom after in
  set_fold (fun agent evaluation =>
    let b := default 0 (before !! agent) in
    let a := default 0 (after !! agent) in
    <[agent := evaluation_of b a]> evaluation)
    ∅ all_agents.

Definition classify_failure_type (msg : string) : string :=
  let msg := PyStr.lower msg in
  if PyStr.contains "timeout" msg then "timeout"
  else if PyStr.contains "connection" msg then "connection"
  else if PyStr.contains "resource" msg then "resource"
  else if PyStr.contains "memory" msg then "memory"
  else if PyStr.contains "disk" msg then "disk"
  else if PyStr.contains "exception" msg then "exception"
  else if PyStr.contains "crash" msg then "crash"
  else if PyStr.contains "fail" msg then "fail"
  else if PyStr.contains "error" msg then "error"
  else "other".

(** [group_by_agent]: a [defaultdict(list)]. *)
Definition group_by_agent (logs : list Log) : gmap string (list Log) :=
  fold_left (fun grouped log =>
    let agent := get (agent_id log) "unknown" in
    <[agent := default [] (grouped !! agent) ++ [log]]> grouped) logs ∅.

(** [types[ftype] += 1] on a [defaultdict(int)]. *)
Definition increment (ftype : string) (types : gmap string nat) : gmap string nat :=
  <[ftype := default 0 (types !! ftype) + 1]> types.

Record AgentReport : Type := mkAgentReport {
  failure_types_before : gmap string nat;
  failure_types_after : gmap string nat;
  unique_failure_messages_before : nat;
  unique_failure_messages_after : nat;
  time_to_recovery : option string
}.

(** A [datetime]: naive, a wall-clock time, or aware, a point on the UTC
    time line; both in microseconds. [<], [>] and [-] between a naive and an
    aware one raise [TypeError]. *)
Inductive datetime : Type :=
| Naive (wall : Z)
| Aware (utc : Z).

Definition instant (d : datetime) : Z :=
  match d with
  | Naive t => t
  | Aware t => t
  end.

Definition aware (d : datetime) : bool :=
  match d with
  | Naive _ => false
  | Aware _ => true
  end.

(** [a < b]; [a > b] is [datetime_lt b a]. *)
Definition datetime_lt (a b : datetime) : result bool :=
  if Bool.eqb (aware a) (aware b) then Ok (instant a <? instant b)%Z
  else Raise TypeError.

(** [a - b], a [timedelta] in microseconds. *)
Definition datetime_sub (a b : datetime) : result Z :=
  if Bool.eqb (aware a) (aware b) then Ok (instant a - instant b)%Z
  else Raise TypeError.

Section Report.

(** [fromisoformat ts] is [None] where [datetime.fromisoformat(ts)] raises;
    [str_timedelta] is [str] on a [timedelta]. *)
Variable fromisoformat : string -> option datetime.
Variable str_timedelta : Z -> string.

(** [parse_time]: the [except] branch returns [None]. *)
Definition parse_time (ts : string) : option datetime := fromisoformat ts.

(** The variables of the loop over [before_logs]. *)
Record BeforeState : Type := mkBeforeState {
  before_types : gmap string nat;
  before_msgs : gset string;
  last_failure_time : option datetime
}.

Definition before_step (st : BeforeState) (log : Log) : result BeforeState :=
  let msg := get (message log) "" in
  if PyStr.any_in basic_failure_words (PyStr.lower msg) then
    let ftype := classify_failure_type msg in
    let types := increment ftype (before_types st) in
    let msgs := {[msg]} ∪ before_msgs st in
    match parse_time (get (timestamp log) "") with
    | Some t =>
        newer ← match last_failure_time st with
                | None => Ok true
                | Some last => datetime_lt last t
                end;
        Ok (if newer : bool then mkBeforeState types msgs (Some t)
            else mkBeforeState types msgs (last_failure_time st))
    | None => Ok (mkBeforeState types msgs (last_failure_time st))
    end
  else Ok st.

Definition scan_before (before_logs : list Log) : result BeforeState :=
  for_each before_step before_logs (mkBeforeState ∅ ∅ None).

(** The variables of the loop over [after_logs]. *)
Record AfterState : Type := mkAfterState {
  after_types : gmap string nat;
  after_msgs : gset string;
  first_success_time : option datetime
}.

(** The condition of the [else] branch is evaluated from left to right:
    [t < first_success_time] before [t > last_failure_time]. *)
Definition after_step (last_failure : option datetime) (st : AfterState) (log : Log)
  : result AfterState :=
  let msg := get (message log) "" in
  if PyStr.any_in basic_failure_words (PyStr.lower msg) then
    Ok (mkAfterState (increment (classify_failure_type msg) (after_types st))
                     ({[msg]} ∪ after_msgs st) (first_success_time st))
  else
    match parse_time (get (timestamp log) ""), last_failure with
    | Some t, Some last =>
        earlier ← match first_success_time st with
                  | None => Ok true
                  | Some first => datetime_lt t first
                  end;
        if earlier : bool then
          later ← datetime_lt last t;
          Ok (if later : bool
              then mkAfterState (after_types st) (after_msgs st) (Some t)
              else st)
        else Ok st
    | _, _ => Ok st
    end.

Definition scan_after (last_failure : option datetime) (after_logs : list Log)
  : result AfterState :=
  for_each (after_step last_failure) after_logs (mkAfterState ∅ ∅ None).

(** The body of the loop over [all_agents]. *)
Definition agent_report (before_logs after_logs : list Log) : result AgentReport :=
  bs ← scan_before before_logs;
  ast ← scan_after (last_failure_time bs) after_logs;
  recovery ← match last_failure_time bs, first_success_time ast with
             | Some last, Some first =>
                 delta ← datetime_sub first last;
                 Ok (Some (str_timedelta delta))
             | _, _ => Ok None
             end;
  Ok (mkAgentReport (before_types bs) (after_types ast)
                    (size (before_msgs bs)) (size (after_msgs ast)) recovery).

(** An exception in the body ends the loop over [all_agents], and no report
    is returned. *)
Definition advanced_evaluation_report (logs_before logs_after : list Log)
  : result (gmap string AgentReport) :=
  let before_grouped := group_by_agent logs_before in
  let after_grouped := group_by_agent logs_after in
  let all_agents : gset string := dom before_grouped ∪ dom after_grouped in
  set_fold (fun agent report =>
    report ← report;
    let before_logs := default [] (before_grouped !! agent) in
    let after_logs := default [] (after_grouped !! agent) in
    rep ← agent_report before_logs after_logs;
    Ok (<[agent := rep]> report))
    (Ok ∅) all_agents.

End Report.

End PatchEvaluator.

(** ** TraceCollector *)

(** [collect_logs] of class [TraceCollector]. The HTTP request is outside
    the program: [requests_get_json endpoint w] is what
    [requests.get(endpoint)], [raise_for_status()] and [json()] give in the
    state [w] of the network, with the state after the request. The result is
    [None] when one of the three raises or the decoded value cannot be
    iterated, and otherwise the sequence of the elements the [for] loop
    visits. An element is either a [dict], of which the loop reads the keys
    ['timestamp'] and ['message'], or a value without a [get] method, at
    which the loop body raises. A value under a key is a string or some
    other JSON value (null, a number, a list, ...): [log.get(k, '')] puts
    [''] for a missing key only and keeps any value that is there. Every
    exception is caught by the [except] clause of the endpoint, whose [print]
    is left out. *)
Module TraceCollector.

Inductive JsonValue : Type :=
| JsonString (s : string)
| JsonNotString.

Inductive ResponseItem : Type :=
| JsonObject (item_timestamp item_message : option JsonValue)
| JsonOther.

(** [log.get(key, '')] on a decoded object. *)
Definition json_get (field : option JsonValue) : JsonValue :=
  match field with
  | Some v => v
  | None => JsonString ""
  end.

(** The [dict] that [collect_logs] appends: ['agent_id'] is a key of
    [agent_endpoints], the two other values are what the endpoint sent. *)
Record Collected : Type := mkCollected {
  collected_agent_id : string;
  collected_timestamp : JsonValue;
  collected_message : JsonValue
}.

(** The entries that the inner loop appends before it ends or raises. *)
Fixpoint appended (agent_id : string) (logs : list ResponseItem) : list Collected :=
  match logs with
  | [] => []
  | JsonObject ts msg :: logs' =>
      mkCollected agent_id (json_get ts) (json_get msg) :: appended agent_id logs'
  | JsonOther :: _ => []
  end.

Section Requests.

Context {World : Type}.
Variable requests_get_json : string -> World -> option (list ResponseItem) * World.

(** One turn of the loop over [self.agent_endpoints.items()]. *)
Definition collect_step (st : list Collected * World) (item : string * string)
  : list Collected * World :=
  let '(agent_id, endpoint) := item in
  let '(response, w) := requests_get_json endpoint (snd st) in
  match response with
  | Some logs => (fst st ++ appended agent_id logs, w)
  | None => (fst st, w)
  end.

(** [collect_logs]; [agent_endpoints] is the [dict] in its order. *)
Definition collect_logs (agent_endpoints : list (string * string)) (w : World)
  : list Collected * World :=
  fold_left collect_step agent_endpoints ([], w).

End Requests.

End TraceCollector.

(** ** metagpt_trace_integration *)

(** The trace handlers are objects that the manager and its callers share,
    so they live in a heap and are named by their addresses. The methods are
    modelled as they behave when they are called directly, one after the
    other, and the two locks are left out. This does not cover a record that
    reaches [emit] through a logger: [__init__] puts a [threading.Lock] in
    the place of the re-entrant lock of [logging.Handler], which
    [Handler.handle] holds when it calls [emit]. [logging.LogRecord] and the
    library calls of [emit] are section variables. *)
Module MetaGPT.

(** The [dict] that [emit] stores. *)
Record TraceEntry : Type := mkTraceEntry {
  entry_timestamp : string;
  entry_message : string;
  entry_level : string;
  entry_agent_id : string
}.

(** An object of class [MetaGPTTraceHandler]. *)
Record MetaGPTTraceHandler : Type := mkHandler {
  handler_agent_id : string;
  handler_logs : list TraceEntry
}.

(** A reference to a handler is its index in the heap. *)
Abbreviation ref := nat (only parsing).

(** The heap of handlers and the [agents] of the [MetaGPTTraceManager], a
    [dict] in its order. *)
Record Store : Type := mkStore {
  handlers : list MetaGPTTraceHandler;
  agents : list (string * ref)
}.

(** [MetaGPTTraceManager()] in a program that has made no handler. *)
Definition empty_store : Store := mkStore [] [].

(** [agents[k] = r]: a key that is present keeps its place. *)
Fixpoint agents_set (d : list (string * ref)) (k : string) (r : ref)
  : list (string * ref) :=
  match d with
  | [] => [(k, r)]
  | (k', r') :: d' =>
      if String.eqb k' k then (k, r) :: d' else (k', r') :: agents_set d' k r
  end.

(** [agents[k]] where [k in agents], and [None] where it is not. *)
Fixpoint agents_get (d : list (string * ref)) (k : string) : option ref :=
  match d with
  | [] => None
  | (k', r') :: d' => if String.eqb k' k then Some r' else agents_get d' k
  end.

(** [MetaGPTTraceHandler(agent_id)]: a new object. *)
Definition new_handler (agent_id : string) (s : Store) : ref * Store :=
  (length (handlers s),
   mkStore (handlers s ++ [mkHandler agent_id []]) (agents s)).

(** [handler.get_logs()]: a copy of the list. *)
Definition get_logs (r : ref) (s : Store) : list TraceEntry :=
  match handlers s !! r with
  | Some h => handler_logs h
  | None => []
  end.

(** [handler.clear_logs()] *)
Definition clear_logs (r : ref) (s : Store) : Store :=
  mkStore (alter (fun h => mkHandler (handler_agent_id h) []) r (handlers s))
          (agents s).

(** [register_agent] *)
Definition register_agent (agent_id : string) (s : Store) : ref * Store :=
  let '(handler, s') := new_handler agent_id s in
  (handler, mkStore (handlers s') (agents_set (agents s') agent_id handler)).

(** [setup_metagpt_tracing] *)
Definition setup_metagpt_tracing (agent_id : string) (trace_manager : Store)
  : ref * Store :=
  register_agent agent_id trace_manager.

(** [get_agent_logs] *)
Definition get_agent_logs (agent_id : string) (s : Store) : list TraceEntry :=
  match agents_get (agents s) agent_id with
  | Some handler => get_logs handler s
  | None => []
  end.

(** [get_all_logs]: the two nested loops. Every stored entry has the keys
    ['timestamp'] and ['message'], so indexing them does not raise. *)
Definition get_all_logs (s : Store) : list Log :=
  fold_left
    (fun all_logs '(agent_id, handler) =>
       fold_left
         (fun all_logs log =>
            all_logs ++ [mkLog (Some agent_id) (Some (entry_timestamp log))
                               (Some (entry_message log))])
         (get_logs handler s) all_logs)
    (agents s) [].

(** [clear_agent_logs] *)
Definition clear_agent_logs (agent_id : string) (s : Store) : Store :=
  match agents_get (agents s) agent_id with
  | Some handler => clear_logs handler s
  | None => s
  end.

(** [get_registered_agents] *)
Definition get_registered_agents (s : Store) : list string :=
  map fst (agents s).

Section Logging.

Context {LogRecord : Type}.
(** [datetime.fromtimestamp(record.created).isoformat()],
    [self.format(record)] and [record.levelname]. *)
Variable created_isoformat : LogRecord -> string.
Variable format : LogRecord -> string.
Variable levelname : LogRecord -> string.

(** [handler.emit(record)] *)
Definition emit (r : ref) (record : LogRecord) (s : Store) : Store :=
  mkStore
    (alter (fun h =>
              mkHandler (handler_agent_id h)
                (handler_logs h
                 ++ [mkTraceEntry (created_isoformat record) (format record)
                                  (levelname record) (handler_agent_id h)]))
           r (handlers s))
    (agents s).

End Logging.

(** What [run_trace_analysis] writes and prints: the rows of
    [metagpt_logs.csv], the classified failures of each agent, the
    propagation map and the introducer map. *)
Record AnalysisOutput : Type := mkAnalysisOutput {
  csv_rows : list Log;
  failures_by_agent : gmap string (list FailureAnalyzer.FailureRecord);
  propagation : list FailurePropagationMonitor.PropagationEdge;
  introducers : list (string * string)
}.

(** The loop that prints a failure indexes its ['timestamp'] and
    ['message']; ['category'] is always there. *)
Definition print_failure (_ : unit) (failure : FailureAnalyzer.FailureRecord)
  : result unit :=
  _ ← getitem "timestamp" (timestamp (FailureAnalyzer.record_log failure));
  _ ← getitem "message" (message (FailureAnalyzer.record_log failure));
  Ok tt.

(** [run_trace_analysis]: [None] is the early [return] on an empty list of
    logs. The order in which the agents' failures are printed matters only
    for which entry would raise first. *)
Definition run_trace_analysis (trace_manager : Store)
  : result (option AnalysisOutput) :=
  let logs := get_all_logs trace_manager in
  match logs with
  | [] => Ok None
  | _ :: _ =>
      let failures_by_agent := FailureAnalyzer._group_failures_by_agent logs in
      _ ← for_each print_failure
            (map_to_list failures_by_agent ≫= snd) tt;
      let propagation_monitor := FailurePropagationMonitor.__init__ logs in
      propagation ←
        FailurePropagationMonitor.map_failure_propagation propagation_monitor;
      seen ←
        FailurePropagationMonitor.show_failure_introducers propagation_monitor;
      Ok (Some (mkAnalysisOutput logs failures_by_agent propagation seen))
  end.

End MetaGPT.

(** ** Specification-level vocabulary *)

(** The agent an entry is filed under, and the message that is tested. *)
Definition agent_of (log : Log) : string := get (agent_id log) "unknown".
Definition message_of (log : Log) : string := get (message log) "".

(** [mentions group msg]: the lowercased message contains a keyword of the
    group. *)
Definition mentions (group : list string) (msg : string) : Prop :=
  exists kw, In kw group /\ PyStr.contains kw (PyStr.lower msg) = true.

Definition timeout_keywords : list string := ["timeout"; "timed out"].

(** The classifier as the specification words it: the keyword groups in
    priority order, the first group that matches wins. *)
Inductive Categorizes (msg : string) : FailureCategory -> Prop :=
| cat_syntax :
    mentions FailureAnalyzer.syntax_keywords msg ->
    Categorizes msg SyntaxOrCompileError
| cat_logic :
    ~ mentions FailureAnalyzer.syntax_keywords msg ->
    mentions FailureAnalyzer.logic_keywords msg ->
    Categorizes msg LogicOrTestFailure
| cat_timeout :
    ~ mentions FailureAnalyzer.syntax_keywords msg ->
    ~ mentions FailureAnalyzer.logic_keywords msg ->
    mentions timeout_keywords msg ->
    Categorizes msg Timeout
| cat_hallucination :
    ~ mentions FailureAnalyzer.syntax_keywords msg ->
    ~ mentions FailureAnalyzer.logic_keywords msg ->
    ~ mentions timeout_keywords msg ->
    mentions FailureAnalyzer.hallucination_keywords msg ->
    Categorizes msg LlmHallucination
| cat_other :
    ~ mentions FailureAnalyzer.syntax_keywords msg ->
    ~ mentions FailureAnalyzer.logic_keywords msg ->
    ~ mentions timeout_keywords msg ->
    ~ mentions FailureAnalyzer.hallucination_keywords msg ->
    Categorizes msg Other.

(** The entries of a batch that are filed under [agent] and whose message
    passes [gate], in the order of the batch. *)
Definition entries_of (gate : string -> bool) (agent : string) (logs : list Log)
  : list Log :=
  List.filter (fun log => gate (message_of log) && String.eqb (agent_of log) agent) logs.

(** Order of the sort keys, and the entries of a list that carry one key. *)
Definition key_le (x y : Log) : Prop :=
  String.leb (FailurePropagationMonitor.sort_key x)
             (FailurePropagationMonitor.sort_key y) = true.


(** An entry that carries the two keys the propagation mapper indexes. *)
Definition has_keys (log : Log) : Prop :=
  is_Some (agent_id log) /\ is_Some (timestamp log).

Definition the_agent (log : Log) : string := get (agent_id log) "".

(** The edge from the failure [last] to the failure [log]. *)
Definition edge_between (last log : Log) : FailurePropagationMonitor.PropagationEdge :=
  FailurePropagationMonitor.mkEdge
    (the_agent last) (the_agent log) (get (timestamp log) "") (message_of log).

(** The state machine of the specification over the state
    [(edges emitted so far, last_failure)]: an entry that is no failure
    leaves the state as it is; a failure emits an edge when [last_failure]
    is set and the agents differ, and then becomes [last_failure]. *)
Definition machine_step (gate : string -> bool)
    (st : list FailurePropagationMonitor.PropagationEdge * option Log) (log : Log)
  : list FailurePropagationMonitor.PropagationEdge * option Log :=
  if gate (message_of log) then
    (match snd st with
     | Some last =>
         if String.eqb (the_agent log) (the_agent last) then fst st
         else fst st ++ [edge_between last log]
     | None => fst st
     end, Some log)
  else st.

(** The pairs of neighbours of a list. *)
Definition adjacent {A : Type} (l : list A) : list (A * A) := combine l (tl l).

Definition agents_differ (p : Log * Log) : bool :=
  negb (String.eqb (the_agent (snd p)) (the_agent (fst p))).

(** The edges of a time-ordered list, read off the list of its failures:
    one edge for every two neighbouring failures of different agents. *)
Definition propagation_edges (gate : string -> bool) (self_logs : list Log)
  : list FailurePropagationMonitor.PropagationEdge :=
  map (fun p => edge_between (fst p) (snd p))
      (List.filter agents_differ
         (adjacent (List.filter (fun log => gate (message_of log)) self_logs))).

(** The six verdicts of the effectiveness evaluation, the phrase each one
    opens with, and the branch conditions as the specification lists them. *)
Inductive Verdict : Type :=
| NoFailures | AllResolved | NewFailures | Reduced | NoChange | Increased.

Definition verdict_phrase (v : Verdict) : string :=
  match v with
  | NoFailures => "No failures before or after patch."
  | AllResolved => "All failures resolved"
  | NewFailures => "New failures introduced"
  | Reduced => "Failures reduced"
  | NoChange => "No change in failures"
  | Increased => "Failures increased"
  end.

Inductive VerdictFor (b a : nat) : Verdict -> Prop :=
| verdict_none : b = 0 -> a = 0 -> VerdictFor b a NoFailures
| verdict_resolved : 0 < b -> a = 0 -> VerdictFor b a AllResolved
| verdict_new : b = 0 -> 0 < a -> VerdictFor b a NewFailures
| verdict_reduced : 0 < a -> a < b -> VerdictFor b a Reduced
| verdict_same : 0 < a -> a = b -> VerdictFor b a NoChange
| verdict_increased : 0 < b -> b < a -> VerdictFor b a Increased.

(** A phrase followed by the two counts in decimal. *)
Definition with_counts (phrase : string) (b a : nat) : string :=
  phrase +:+ " (before: " +:+ pretty b +:+ ", after: " +:+ pretty a +:+ ").".

(** The text under which the introducer map and the patch diff record a
    message: the message without its surrounding white space. *)
Definition failure_text (log : Log) : string := PyStr.strip (message_of log).

(** White space only; a string that begins, or ends, with a white-space
    character. *)
Fixpoint all_space (s : string) : bool :=
  match s with
  | EmptyString => true
  | String c s' => PyStr.isspace c && all_space s'
  end.

Definition starts_with_space (s : string) : bool :=
  match s with
  | EmptyString => false
  | String c _ => PyStr.isspace c
  end.

Fixpoint ends_with_space (s : string) : bool :=
  match s with
  | EmptyString => false
  | String c EmptyString => PyStr.isspace c
  | String _ s' => ends_with_space s'
  end.

(** [text] is [msg] without its surrounding white space: [msg] is [text]
    between two runs of white space, and [text] neither begins nor ends with
    a white-space character. *)
Definition Trimmed (msg text : string) : Prop :=
  exists l r,
    msg = l +:+ text +:+ r /\ all_space l = true /\ all_space r = true /\
    starts_with_space text = false /\ ends_with_space text = false.

(** Next line and no-break space, the two white-space characters above
    0x7f, and the tab. *)
Definition nel : string := String "133"%char EmptyString.
Definition nbsp : string := String "160"%char EmptyString.
Definition tab : string := String "009"%char EmptyString.

(** The classifier keywords in which no word of the detector occurs. *)
Definition detector_free_keywords : list string :=
  ["unexpected indent"; "invalid syntax"; "incorrect result"; "wrong output";
   "did not pass"; "mismatch"; "timed out"; "nonsensical"; "made up";
   "fabricated"; "not in context"; "irrelevant"; "llm mistake"].

(** A keyword without a white-space character. *)
Fixpoint nospace (s : string) : bool :=
  match s with
  | EmptyString => true
  | String c s' => negb (PyStr.isspace c) && nospace s'
  end.

(** The set of trimmed texts of the detected failures of an agent. *)
Definition failure_texts (agent : string) (logs : list Log) : gset string :=
  list_to_set (map failure_text (entries_of is_failure agent logs)).

(** The distinct members of a list, each at the place of its first
    occurrence. *)
Fixpoint first_occurrences (l : list string) : list string :=
  match l with
  | [] => []
  | x :: l' => x :: List.filter (fun y => negb (String.eqb y x)) (first_occurrences l')
  end.

(** The trimmed texts of the detected failures of a list, in its order. *)
Definition failure_texts_in_order (self_logs : list Log) : list string :=
  map failure_text (List.filter (fun log => is_failure (message_of log)) self_logs).

(** The single pass of the specification: a detected failure whose text is
    new is recorded with its agent, at the end of the map; any other entry
    leaves the map as it is. *)
Definition introducer_machine_step (seen : list (string * string)) (log : Log)
  : list (string * string) :=
  if is_failure (message_of log)
     && negb (FailurePropagationMonitor.dict_mem (failure_text log) seen)
  then seen ++ [(failure_text log, the_agent log)]
  else seen.

(** [a] is the agent of the first detected failure of the list whose text is
    [m]. *)
Definition first_failure_with_text (self_logs : list Log) (m a : string) : Prop :=
  exists l1 log l2,
    self_logs = l1 ++ log :: l2 /\
    is_failure (message_of log) = true /\ failure_text log = m /\
    agent_id log = Some a /\
    forall log', In log' l1 -> is_failure (message_of log') = true ->
                 failure_text log' <> m.

(** [o] is the greatest (the least) member of a list of points in time, and
    is absent when the list is empty. *)
Definition is_max (o : option Z) (l : list Z) : Prop :=
  match o with
  | None => l = []
  | Some t => In t l /\ forall t', In t' l -> (t' <= t)%Z
  end.

Definition is_min (o : option Z) (l : list Z) : Prop :=
  match o with
  | None => l = []
  | Some t => In t l /\ forall t', In t' l -> (t <= t')%Z
  end.

(** The timestamps of a list of entries that parse; the others are left
    out. *)
Definition parsed_times {T : Type} (fromisoformat : string -> option T)
    (logs : list Log) : list T :=
  omap (fun log => fromisoformat (get (timestamp log) "")) logs.

(** The parsed timestamps of the entries of an agent that pass [gate] in the
    batch before the patch, and of those that do not pass it in the batch
    after the patch. *)
Definition failure_times {T : Type} (fromisoformat : string -> option T)
    (gate : string -> bool) (agent : string) (logs_before : list Log) : list T :=
  parsed_times fromisoformat (entries_of gate agent logs_before).

Definition success_times {T : Type} (fromisoformat : string -> option T)
    (gate : string -> bool) (agent : string) (logs_after : list Log) : list T :=
  parsed_times fromisoformat (entries_of (fun m => negb (gate m)) agent logs_after).

(** The points in time strictly after [last]; none when [last] is absent. *)
Definition later_than (last : option Z) (times : list Z) : list Z :=
  match last with
  | Some lf => List.filter (fun t => (lf <? t)%Z) times
  | None => []
  end.

(** The timestamps of a list are all naive or all aware; they are of the
    kind of [d]. *)
Definition kind_of (d : PatchEvaluator.datetime) (l : list PatchEvaluator.datetime)
  : bool :=
  forallb (fun t => Bool.eqb (PatchEvaluator.aware t) (PatchEvaluator.aware d)) l.

Definition same_kind (l : list PatchEvaluator.datetime) : bool :=
  match l with
  | [] => true
  | d :: l' => kind_of d l'
  end.

(** A naive timestamp meets an aware one in the report of an agent: among
    the failures of the agent before the patch, or between such a failure and
    an entry of the agent after the patch that is no failure. A failure is
    an entry that passes the report's own test. *)
Definition mixed_timestamps (fromisoformat : string -> option PatchEvaluator.datetime)
    (agent : string) (logs_before logs_after : list Log) : Prop :=
  exists t1 t2,
    In t1 (failure_times fromisoformat is_basic_failure agent logs_before) /\
    In t2 (failure_times fromisoformat is_basic_failure agent logs_before
           ++ success_times fromisoformat is_basic_failure agent logs_after) /\
    PatchEvaluator.aware t1 <> PatchEvaluator.aware t2.

(** The two loops of the report where no comparison raises: the timestamps
    are compared as points in time. *)
Definition before_machine_step (fromisoformat : string -> option PatchEvaluator.datetime)
    (st : PatchEvaluator.BeforeState) (log : Log) : PatchEvaluator.BeforeState :=
  if is_basic_failure (message_of log) then
    let types :=
      PatchEvaluator.increment (PatchEvaluator.classify_failure_type (message_of log))
                               (PatchEvaluator.before_types st) in
    let msgs := {[message_of log]} ∪ PatchEvaluator.before_msgs st in
    match fromisoformat (get (timestamp log) "") with
    | Some t =>
        let newer :=
          match PatchEvaluator.last_failure_time st with
          | None => true
          | Some last => (PatchEvaluator.instant last <? PatchEvaluator.instant t)%Z
          end in
        if newer then PatchEvaluator.mkBeforeState types msgs (Some t)
        else PatchEvaluator.mkBeforeState types msgs (PatchEvaluator.last_failure_time st)
    | None =>
        PatchEvaluator.mkBeforeState types msgs (PatchEvaluator.last_failure_time st)
    end
  else st.

Definition after_machine_step (fromisoformat : string -> option PatchEvaluator.datetime)
    (last_failure : option PatchEvaluator.datetime)
    (st : PatchEvaluator.AfterState) (log : Log) : PatchEvaluator.AfterState :=
  if is_basic_failure (message_of log) then
    PatchEvaluator.mkAfterState
      (PatchEvaluator.increment (PatchEvaluator.classify_failure_type (message_of log))
                                (PatchEvaluator.after_types st))
      ({[message_of log]} ∪ PatchEvaluator.after_msgs st)
      (PatchEvaluator.first_success_time st)
  else
    match fromisoformat (get (timestamp log) ""), last_failure with
    | Some t, Some last =>
        let earlier :=
          match PatchEvaluator.first_success_time st with
          | None => true
          | Some first => (PatchEvaluator.instant t <? PatchEvaluator.instant first)%Z
          end in
        if earlier && (PatchEvaluator.instant last <? PatchEvaluator.instant t)%Z
        then PatchEvaluator.mkAfterState (PatchEvaluator.after_types st)
                                         (PatchEvaluator.after_msgs st) (Some t)
        else st
    | _, _ => st
    end.

(** The timestamps that the report of an agent compares are of one kind. *)
Definition comparable (fromisoformat : string -> option PatchEvaluator.datetime)
    (before_logs after_logs : list Log) : bool :=
  same_kind (parsed_times fromisoformat
               (List.filter (fun log => is_basic_failure (message_of log)) before_logs))
  && match PatchEvaluator.last_failure_time
             (fold_left (before_machine_step fromisoformat) before_logs
                        (PatchEvaluator.mkBeforeState ∅ ∅ None)) with
     | Some lf =>
         kind_of lf (parsed_times fromisoformat
                       (List.filter (fun log => negb (is_basic_failure (message_of log)))
                                    after_logs))
     | None => true
     end.

(** The report of an agent that these two loops give. *)
Definition agent_report_machine
    (fromisoformat : string -> option PatchEvaluator.datetime)
    (str_timedelta : Z -> string) (before_logs after_logs : list Log)
  : PatchEvaluator.AgentReport :=
  let bs := fold_left (before_machine_step fromisoformat) before_logs
                      (PatchEvaluator.mkBeforeState ∅ ∅ None) in
  let ast := fold_left (after_machine_step fromisoformat
                          (PatchEvaluator.last_failure_time bs))
                       after_logs (PatchEvaluator.mkAfterState ∅ ∅ None) in
  PatchEvaluator.mkAgentReport
    (PatchEvaluator.before_types bs) (PatchEvaluator.after_types ast)
    (size (PatchEvaluator.before_msgs bs)) (size (PatchEvaluator.after_msgs ast))
    match PatchEvaluator.last_failure_time bs, PatchEvaluator.first_success_time ast with
    | Some last, Some first =>
        Some (str_timedelta (PatchEvaluator.instant first - PatchEvaluator.instant last)%Z)
    | _, _ => None
    end.

(** The result of the patch diff with the batches exchanged. *)
Definition exchanged (r : FailurePropagationMonitor.PatchAgentResult)
  : FailurePropagationMonitor.PatchAgentResult :=
  FailurePropagationMonitor.mkPatchAgentResult
    (FailurePropagationMonitor.newly_introduced r)
    (FailurePropagationMonitor.partially_fixed r)
    (FailurePropagationMonitor.fully_fixed r).

(** The verdict of the evaluation with the batches exchanged. *)
Definition mirrored (v : Verdict) : Verdict :=
  match v with
  | NoFailures => NoFailures
  | AllResolved => NewFailures
  | NewFailures => AllResolved
  | Reduced => Increased
  | NoChange => NoChange
  | Increased => Reduced
  end.

(** The failures of an agent, by the report's own test, that the report
    files under the type [ty]. *)
Definition typed_failures (ty agent : string) (logs : list Log) : list Log :=
  List.filter
    (fun log => String.eqb (PatchEvaluator.classify_failure_type (message_of log)) ty)
    (entries_of is_basic_failure agent logs).

(** A count as a [defaultdict(int)] holds it: no key for zero. *)
Definition count_entry (n : nat) : option nat :=
  match n with
  | 0 => None
  | _ => Some n
  end.

(** A pair of neighbouring failures whose keys the propagation mapper can
    index: both carry [agent_id], and the later one carries [timestamp]
    unless both have the same agent. *)
Definition pair_indexable (p : Log * Log) : bool :=
  match agent_id (fst p), agent_id (snd p) with
  | Some la, Some a =>
      String.eqb a la || (if timestamp (snd p) is Some _ then true else false)
  | _, _ => false
  end.

(** A list of edges that starts at the agent [a] and in which every edge
    starts where the one before it ends. *)
Fixpoint linked (a : string) (edges : list FailurePropagationMonitor.PropagationEdge)
  : Prop :=
  match edges with
  | [] => True
  | e :: edges' =>
      FailurePropagationMonitor.source_agent e = a /\
      linked (FailurePropagationMonitor.target_agent e) edges'
  end.

(** A detected failure without [agent_id] whose text no earlier failure of
    the list has. *)
Definition unattributed_first_failure (pre self_logs : list Log) : Prop :=
  exists l1 log l2,
    self_logs = l1 ++ log :: l2 /\
    is_failure (message_of log) = true /\ agent_id log = None /\
    forall log', In log' (pre ++ l1) -> is_failure (message_of log') = true ->
                 failure_text log' <> failure_text log.

(** A collected entry whose timestamp and message are strings is a log
    entry of the analyses; with another value it is none. *)
Definition as_log (c : TraceCollector.Collected) : option Log :=
  match TraceCollector.collected_timestamp c, TraceCollector.collected_message c with
  | TraceCollector.JsonString t, TraceCollector.JsonString m =>
      Some (entry (TraceCollector.collected_agent_id c) t m)
  | _, _ => None
  end.

(** The entry that [get_all_logs] makes of a stored one. *)
Definition to_log (agent : string) (e : MetaGPT.TraceEntry) : Log :=
  entry agent (MetaGPT.entry_timestamp e) (MetaGPT.entry_message e).

(** The invariant of the stores that the operations of the two classes
    build: the manager has one handler for an agent and one agent for a
    handler, a registered handler is in the heap and carries the name it is
    registered under, and every entry of a handler carries the handler's
    [agent_id]. *)
Definition store_ok (s : MetaGPT.Store) : Prop :=
  List.NoDup (map fst (MetaGPT.agents s)) /\
  List.NoDup (map snd (MetaGPT.agents s)) /\
  (forall a r, In (a, r) (MetaGPT.agents s) ->
     exists h, MetaGPT.handlers s !! r = Some h /\ MetaGPT.handler_agent_id h = a) /\
  (forall r h, MetaGPT.handlers s !! r = Some h ->
     Forall (fun e => MetaGPT.entry_agent_id e = MetaGPT.handler_agent_id h)
            (MetaGPT.handler_logs h)).

(** The stores of a program that starts with a new manager and calls the
    methods of the two classes. *)
Section Reachable.

Context {LogRecord : Type}.
Variable created_isoformat format levelname : LogRecord -> string.

Inductive reachable : MetaGPT.Store -> Prop :=
| reach_init : reachable MetaGPT.empty_store
| reach_new_handler a s :
    reachable s -> reachable (snd (MetaGPT.new_handler a s))
| reach_register_agent a s :
    reachable s -> reachable (snd (MetaGPT.register_agent a s))
| reach_emit r record s :
    reachable s ->
    reachable (MetaGPT.emit created_isoformat format levelname r record s)
| reach_clear_logs r s :
    reachable s -> reachable (MetaGPT.clear_logs r s)
| reach_clear_agent_logs a s :
    reachable s -> reachable (MetaGPT.clear_agent_logs a s).

End Reachable.

(** * Properties *)

Import FailureAnalyzer FailurePropagationMonitor PatchEvaluator.

(** The code reads an entry through [get] and tests its message in place;
    [name_tests log] puts the names of the vocabulary on these readings. *)
Ltac name_tests log :=
  fold (agent_of log) (message_of log) (failure_text log);
  try change (PyStr.any_in basic_failure_words (PyStr.lower (message_of log)))
        with (is_basic_failure (message_of log));
  try change (PyStr.any_in failure_words (PyStr.lower (failure_text log)))
        with (is_failure (failure_text log)).

(** ** Strings *)

Lemma any_in_mentions group msg :
  PyStr.any_in group (PyStr.lower msg) = true <-> mentions group msg.
Proof.
  unfold PyStr.any_in, mentions. rewrite existsb_exists. reflexivity.
Qed.

Lemma any_in_not_mentions group msg :
  PyStr.any_in group (PyStr.lower msg) = false <-> ~ mentions group msg.
Proof.
  rewrite <- any_in_mentions. destruct (PyStr.any_in _ _); split; congruence.
Qed.

Lemma category_label_inj c1 c2 : category_label c1 = category_label c2 -> c1 = c2.
Proof. destruct c1, c2; simpl; intros H; first [reflexivity | discriminate H]. Qed.

Lemma timeout_test_mentions msg :
  PyStr.contains "timeout" (PyStr.lower msg) || PyStr.contains "timed out" (PyStr.lower msg)
  = PyStr.any_in timeout_keywords (PyStr.lower msg).
Proof. unfold PyStr.any_in, timeout_keywords. simpl. now rewrite orb_false_r. Qed.

(** The code's chain of tests computes the category of the specification. *)
Lemma categorize_sound msg :
  exists c, _categorize_failure msg = category_label c /\ Categorizes msg c.
Proof.
  unfold _categorize_failure. rewrite timeout_test_mentions.
  destruct (PyStr.any_in syntax_keywords (PyStr.lower msg)) eqn:Hs.
  { exists SyntaxOrCompileError. split; [reflexivity|].
    apply cat_syntax. now apply any_in_mentions. }
  apply any_in_not_mentions in Hs.
  destruct (PyStr.any_in logic_keywords (PyStr.lower msg)) eqn:Hl.
  { exists LogicOrTestFailure. split; [reflexivity|].
    apply cat_logic; [assumption|]. now apply any_in_mentions. }
  apply any_in_not_mentions in Hl.
  destruct (PyStr.any_in timeout_keywords (PyStr.lower msg)) eqn:Ht.
  { exists Timeout. split; [reflexivity|].
    apply cat_timeout; [assumption..|]. now apply any_in_mentions. }
  apply any_in_not_mentions in Ht.
  destruct (PyStr.any_in hallucination_keywords (PyStr.lower msg)) eqn:Hh.
  { exists LlmHallucination. split; [reflexivity|].
    apply cat_hallucination; [assumption..|]. now apply any_in_mentions. }
  apply any_in_not_mentions in Hh.
  exists Other. split; [reflexivity|]. now apply cat_other.
Qed.

Lemma Categorizes_deterministic msg c1 c2 :
  Categorizes msg c1 -> Categorizes msg c2 -> c1 = c2.
Proof. intros H1 H2. destruct H1; destruct H2; first [reflexivity | contradiction]. Qed.

(** C6: the classifier is total and deterministic (every message gets the
    label of exactly one category), it follows the priority order syntax,
    logic, timeout, hallucination, else Other with the first matching group
    winning, and a message with both a syntax and a logic keyword, such as
    "syntax error in assertion failed", is a syntax / compile error. *)
Theorem C6_categorize_priority :
  (forall msg, exists c, _categorize_failure msg = category_label c) /\
  (forall msg c, _categorize_failure msg = category_label c <-> Categorizes msg c) /\
  (forall msg c1 c2, Categorizes msg c1 -> Categorizes msg c2 -> c1 = c2) /\
  (forall msg,
      mentions syntax_keywords msg -> mentions logic_keywords msg ->
      _categorize_failure msg = category_label SyntaxOrCompileError) /\
  (mentions syntax_keywords "syntax error in assertion failed" /\
   mentions logic_keywords "syntax error in assertion failed" /\
   _categorize_failure "syntax error in assertion failed"
   = category_label SyntaxOrCompileError).
Proof.
  assert (Hiff : forall msg c,
             _categorize_failure msg = category_label c <-> Categorizes msg c).
  { intros msg c. destruct (categorize_sound msg) as (c0 & Hlab & Hcat). split.
    - intros H. rewrite Hlab in H. apply category_label_inj in H. now subst.
    - intros H. now rewrite (Categorizes_deterministic _ _ _ H Hcat). }
  split; [|split; [|split; [|split]]].
  - intros msg. destruct (categorize_sound msg) as (c & Hc & _). now exists c.
  - exact Hiff.
  - exact Categorizes_deterministic.
  - intros msg Hs _. apply Hiff. now apply cat_syntax.
  - split; [|split].
    + exists "syntax error". split; [simpl; tauto | reflexivity].
    + exists "assertion failed". split; [simpl; tauto | reflexivity].
    + reflexivity.
Qed.

(** C2, as stated, fails: "mismatch" is a logic / test failure for the
    classifier, and the detector rejects it. *)
Lemma C2_counterexample :
  ~ (forall msg, _categorize_failure msg <> category_label Other ->
                 is_failure msg = true).
Proof.
  intros H. specialize (H "mismatch").
  assert (Hd : is_failure "mismatch" = false) by reflexivity.
  rewrite H in Hd; [discriminate Hd|].
  vm_compute. discriminate.
Qed.

(** ** Folds over dictionaries *)

Section Folds.
Context {V : Type}.

(** A loop [for a in X: r[a] = f(a)] over a set. *)
Lemma set_fold_insert_lookup (f : string -> V) (X : gset string) (k : string) (v : V) :
  set_fold (fun a (r : gmap string V) => <[a := f a]> r) ∅ X !! k = Some v
  <-> k ∈ X /\ v = f k.
Proof.
  revert v.
  apply (set_fold_ind_L (fun (r : gmap string V) (Y : gset string) =>
           forall v, r !! k = Some v <-> k ∈ Y /\ v = f k)).
  - intros v. rewrite lookup_empty. split; [discriminate | set_solver].
  - intros x Y r Hx IH v. destruct (decide (x = k)) as [->|Hne].
    + rewrite lookup_insert_eq. split.
      * intros [= <-]. split; [set_solver | reflexivity].
      * intros [_ ->]. reflexivity.
    + rewrite lookup_insert_ne by assumption. rewrite IH. set_solver.
Qed.

(** A loop that appends [val log] to the list filed under [key log] for
    every entry that passes [gate]. *)
Context (key : Log -> string) (gate : Log -> bool) (val : Log -> V).
Context (step : gmap string (list V) -> Log -> gmap string (list V)).
Hypothesis step_eq : forall m log,
  step m log
  = if gate log then <[key log := default [] (m !! key log) ++ [val log]]> m else m.

Lemma append_fold_lookup logs m a :
  fold_left step logs m !! a
  = match map val (List.filter (fun log => gate log && String.eqb (key log) a) logs) with
    | [] => m !! a
    | vs => Some (default [] (m !! a) ++ vs)
    end.
Proof.
  revert m. induction logs as [|log logs IH]; intros m; [reflexivity|].
  simpl. rewrite IH, step_eq.
  destruct (gate log) eqn:Hg; simpl; [|reflexivity].
  destruct (String.eqb_spec (key log) a) as [->|Hne]; simpl.
  - rewrite lookup_insert_eq. simpl.
    destruct (map val _) as [|v vs]; [reflexivity|].
    now rewrite <- app_assoc.
  - now rewrite lookup_insert_ne by assumption.
Qed.
End Folds.

(** ** The sort of [FailurePropagationMonitor.__init__] *)

Lemma ascii_compare_lt_trans a b c :
  Ascii.compare a b = Lt -> Ascii.compare b c = Lt -> Ascii.compare a c = Lt.
Proof. unfold Ascii.compare. rewrite !N.compare_lt_iff. lia. Qed.

Lemma string_leb_trans s1 s2 s3 :
  String.leb s1 s2 = true -> String.leb s2 s3 = true -> String.leb s1 s3 = true.
Proof.
  unfold String.leb. revert s2 s3.
  induction s1 as [|c1 s1 IH]; intros [|c2 s2] [|c3 s3]; simpl; try congruence.
  destruct (Ascii.compare c1 c2) eqn:H12; try congruence.
  - apply Ascii.compare_eq_iff in H12. subst c2.
    destruct (Ascii.compare c1 c3) eqn:H13; try congruence. apply IH.
  - destruct (Ascii.compare c2 c3) eqn:H23; try congruence.
    + apply Ascii.compare_eq_iff in H23. subst c3. now rewrite H12.
    + now rewrite (ascii_compare_lt_trans _ _ _ H12 H23).
Qed.

Lemma insert_by_key_perm x l : Permutation (insert_by_key x l) (x :: l).
Proof.
  induction l as [|y l IH]; simpl; [reflexivity|].
  destruct (String.leb _ _); [reflexivity|].
  rewrite IH. apply perm_swap.
Qed.

Lemma sorted_perm logs : Permutation (sorted logs) logs.
Proof.
  induction logs as [|x logs IH]; simpl; [reflexivity|].
  rewrite insert_by_key_perm. now constructor.
Qed.

Lemma insert_by_key_sorted x l :
  StronglySorted key_le l -> StronglySorted key_le (insert_by_key x l).
Proof.
  induction 1 as [|y l Hs IH Hy]; simpl.
  - constructor; constructor.
  - destruct (String.leb (sort_key x) (sort_key y)) eqn:Hxy.
    + constructor; [now constructor|].
      constructor; [exact Hxy|].
      eapply Forall_impl; [exact Hy|]. intros z Hz. unfold key_le in *.
      eapply string_leb_trans; eassumption.
    + constructor; [exact IH|].
      assert (Hyx : key_le y x).
      { destruct (String.leb_total (sort_key x) (sort_key y)) as [H|H];
          [congruence | exact H]. }
      eapply Permutation_Forall; [symmetry; apply insert_by_key_perm|].
      now constructor.
Qed.

Lemma sorted_sorted logs : StronglySorted key_le (sorted logs).
Proof.
  induction logs as [|x logs IH]; simpl; [constructor|].
  now apply insert_by_key_sorted.
Qed.



(** ** The propagation mapper *)

Lemma basic_failure_has_message log :
  is_basic_failure (message_of log) = true -> is_Some (message log).
Proof.
  unfold message_of. destruct (message log) as [m|]; [eauto|]. simpl. discriminate.
Qed.



(** The machine emits the edges between neighbouring failures. *)
Lemma machine_edges gate l es last :
  fst (fold_left (machine_step gate) l (es, last))
  = es ++ map (fun p => edge_between (fst p) (snd p))
            (List.filter agents_differ
               (adjacent (match last with Some p => [p] | None => [] end
                          ++ List.filter (fun log => gate (message_of log)) l))).
Proof.
  revert es last. induction l as [|x l IH]; intros es last.
  - destruct last; simpl; now rewrite app_nil_r.
  - cbn [fold_left List.filter]. unfold machine_step at 2.
    destruct (gate (message_of x)) eqn:Hg.
    + cbn [fst snd]. rewrite IH. destruct last as [p|].
      * cbn [app adjacent tl combine List.filter]. unfold agents_differ at 2.
        cbn [fst snd].
        destruct (String.eqb (the_agent x) (the_agent p)); cbn [negb map].
        -- reflexivity.
        -- now rewrite <- app_assoc.
      * reflexivity.
    + apply IH.
Qed.

Lemma propagation_edges_differ gate s :
  Forall (fun e => target_agent e <> source_agent e) (propagation_edges gate s).
Proof.
  unfold propagation_edges. apply List.Forall_forall. intros e He.
  apply in_map_iff in He. destruct He as ([p x] & <- & Hin).
  apply filter_In in Hin. destruct Hin as [_ Hd].
  unfold agents_differ in Hd. cbn [fst snd] in *. cbn.
  destruct (String.eqb_spec (the_agent x) (the_agent p)); [discriminate | assumption].
Qed.



(** C3, at a timeout of A followed by an error of B: both entries pass the
    failure detector, so the state machine of the claim, run over the sorted
    batch, emits the edge from A to B at t2; the mapper tests four words
    only, takes the timeout for no failure and emits nothing. So
    [map_failure_propagation] is not that machine over the detector's
    failures, also on batches whose entries carry all their keys. *)
Theorem C3_mapper_skips_detected_failures :
  let logs := [entry "A" "t1" "timeout"; entry "B" "t2" "error"] in
  Forall has_keys logs /\
  __init__ logs = logs /\
  is_failure "timeout" = true /\ is_failure "error" = true /\
  is_basic_failure "timeout" = false /\
  fst (fold_left (machine_step is_failure) (__init__ logs) ([], None))
  = [mkEdge "A" "B" "t2" "error"] /\
  propagation_edges is_failure (__init__ logs) = [mkEdge "A" "B" "t2" "error"] /\
  map_failure_propagation (__init__ logs) = Ok [] /\
  ~ (forall logs, Forall has_keys logs ->
       map_failure_propagation (__init__ logs)
       = Ok (propagation_edges is_failure (__init__ logs))).
Proof.
  cbv zeta. split; [repeat constructor; eexists; reflexivity|].
  repeat (split; [vm_compute; reflexivity|]).
  intros H. specialize (H [entry "A" "t1" "timeout"; entry "B" "t2" "error"]).
  assert (Hk : Forall has_keys [entry "A" "t1" "timeout"; entry "B" "t2" "error"])
    by (repeat constructor; eexists; reflexivity).
  specialize (H Hk). vm_compute in H. discriminate H.
Qed.

(** ** Grouping and counting *)

Lemma group_step_eq (m : gmap string (list FailureRecord)) log :
  group_step m log
  = if is_failure (message_of log)
    then <[agent_of log := default [] (m !! agent_of log)
                           ++ [mkFailureRecord log (_categorize_failure (message_of log))]]> m
    else m.
Proof.
  unfold group_step. fold (agent_of log) (message_of log).
  destruct (is_failure (message_of log)); [|reflexivity].
  destruct (m !! agent_of log) eqn:Hm; [now rewrite Hm|].
  rewrite lookup_insert_eq. now rewrite insert_insert_eq.
Qed.

Lemma group_lookup logs agent :
  _group_failures_by_agent logs !! agent
  = match map (fun log => mkFailureRecord log (_categorize_failure (message_of log)))
              (entries_of is_failure agent logs) with
    | [] => None
    | records => Some records
    end.
Proof.
  unfold _group_failures_by_agent, entries_of.
  rewrite (append_fold_lookup agent_of (fun log => is_failure (message_of log))
             (fun log => mkFailureRecord log (_categorize_failure (message_of log)))
             group_step group_step_eq).
  rewrite lookup_empty. reflexivity.
Qed.

Lemma count_fold_lookup logs (m : gmap string nat) agent :
  fold_left count_step logs m !! agent
  = match length (entries_of is_basic_failure agent logs) with
    | 0 => m !! agent
    | n => Some (default 0 (m !! agent) + n)
    end.
Proof.
  revert m. induction logs as [|log logs IH]; intros m; [reflexivity|].
  simpl. rewrite IH. unfold count_step, entries_of. name_tests log.
  destruct (is_basic_failure (message_of log)); simpl; [|reflexivity].
  destruct (String.eqb_spec (agent_of log) agent) as [->|Hne]; simpl.
  - rewrite lookup_insert_eq. simpl.
    destruct (length _); f_equal; lia.
  - now rewrite lookup_insert_ne by assumption.
Qed.

Lemma count_failures_lookup logs agent :
  count_failures logs !! agent
  = match length (entries_of is_basic_failure agent logs) with
    | 0 => None
    | n => Some n
    end.
Proof.
  unfold count_failures. rewrite count_fold_lookup, lookup_empty. reflexivity.
Qed.

Lemma count_failures_default logs agent :
  default 0 (count_failures logs !! agent) = length (entries_of is_basic_failure agent logs).
Proof. rewrite count_failures_lookup. now destruct (length _). Qed.

Lemma count_failures_dom logs agent :
  agent ∈ dom (count_failures logs) <-> 0 < length (entries_of is_basic_failure agent logs).
Proof.
  rewrite elem_of_dom, count_failures_lookup.
  destruct (length _); split; intros H; try lia; try (now eexists).
  destruct H as [? H]. discriminate H.
Qed.

Lemma evaluate_lookup logs_before logs_after agent v :
  evaluate_patch_effectiveness logs_before logs_after !! agent = Some v
  <-> (0 < length (entries_of is_basic_failure agent logs_before)
       \/ 0 < length (entries_of is_basic_failure agent logs_after))
      /\ v = evaluation_of (length (entries_of is_basic_failure agent logs_before))
                           (length (entries_of is_basic_failure agent logs_after)).
Proof.
  unfold evaluate_patch_effectiveness.
  rewrite (set_fold_insert_lookup
             (fun agent => evaluation_of (default 0 (count_failures logs_before !! agent))
                                         (default 0 (count_failures logs_after !! agent)))).
  rewrite elem_of_union, !count_failures_dom, !count_failures_default. reflexivity.
Qed.

Lemma VerdictFor_deterministic b a v1 v2 :
  VerdictFor b a v1 -> VerdictFor b a v2 -> v1 = v2.
Proof. intros H1 H2. destruct H1; destruct H2; first [reflexivity | lia]. Qed.

Lemma evaluation_of_verdict b a :
  exists v, VerdictFor b a v /\
            evaluation_of b a
            = match v with
              | NoFailures => verdict_phrase NoFailures
              | _ => with_counts (verdict_phrase v) b a
              end.
Proof.
  unfold evaluation_of, with_counts.
  destruct (Nat.eqb_spec b 0) as [Hb|Hb], (Nat.eqb_spec a 0) as [Ha|Ha]; cbn [andb].
  - exists NoFailures. split; [now constructor | reflexivity].
  - destruct (Nat.ltb_spec 0 a); [|lia]. subst b.
    exists NewFailures. split; [constructor; lia | reflexivity].
  - destruct (Nat.ltb_spec 0 b); [|lia]. subst a. cbn [andb].
    exists AllResolved. split; [constructor; lia | reflexivity].
  - destruct (Nat.ltb_spec 0 b); [|lia]. cbn [andb].
    destruct (Nat.ltb_spec a b).
    + exists Reduced. split; [constructor; lia | reflexivity].
    + destruct (Nat.eqb_spec a b).
      * exists NoChange. split; [constructor; lia | reflexivity].
      * exists Increased. split; [constructor; lia | reflexivity].
Qed.

Lemma entries_of_nonempty gate agent logs :
  0 < length (entries_of gate agent logs)
  <-> exists log, In log logs /\ agent_of log = agent /\ gate (message_of log) = true.
Proof.
  unfold entries_of. split.
  - destruct (List.filter _ logs) as [|log l] eqn:Hf; simpl; [lia|]. intros _.
    assert (Hin : In log (List.filter
                (fun log => gate (message_of log) && String.eqb (agent_of log) agent) logs)).
    { rewrite Hf. now left. }
    apply filter_In in Hin. destruct Hin as [Hin Hc].
    apply andb_true_iff in Hc. destruct Hc as [Hg He].
    apply String.eqb_eq in He. now exists log.
  - intros (log & Hin & Ha & Hg).
    assert (Hin' : In log (List.filter
                (fun log => gate (message_of log) && String.eqb (agent_of log) agent) logs)).
    { apply filter_In. split; [exact Hin|]. rewrite Hg. simpl. now apply String.eqb_eq. }
    destruct (List.filter _ logs); [destruct Hin' | simpl; lia].
Qed.

Lemma evaluation_of_positive b a :
  0 < b \/ 0 < a -> evaluation_of b a <> verdict_phrase NoFailures.
Proof.
  intros Hpos. destruct (evaluation_of_verdict b a) as (v & Hv & ->).
  destruct Hv; try lia; unfold with_counts; simpl; discriminate.
Qed.

(** C10: the result of [evaluate_patch_effectiveness] has an entry for
    exactly the agents with a counted failure before or after the patch; an
    agent whose entries all fail the count's test in both batches has no
    entry; and the verdict of the branch for no failures before and none
    after is never the value of an entry. *)
Theorem C10_evaluated_agents (logs_before logs_after : list Log) :
  (forall agent,
      is_Some (evaluate_patch_effectiveness logs_before logs_after !! agent)
      <-> exists log, In log (logs_before ++ logs_after) /\ agent_of log = agent /\
                      is_basic_failure (message_of log) = true) /\
  (forall agent,
      (forall log, In log (logs_before ++ logs_after) -> agent_of log = agent ->
                   is_basic_failure (message_of log) = false) ->
      evaluate_patch_effectiveness logs_before logs_after !! agent = None) /\
  (forall agent,
      evaluate_patch_effectiveness logs_before logs_after !! agent
      <> Some "No failures before or after patch.").
Proof.
  assert (Hdom : forall agent,
      is_Some (evaluate_patch_effectiveness logs_before logs_after !! agent)
      <-> exists log, In log (logs_before ++ logs_after) /\ agent_of log = agent /\
                      is_basic_failure (message_of log) = true).
  { intros agent. split.
    - intros [v Hv]. apply evaluate_lookup in Hv. destruct Hv as [Hpos _].
      rewrite !entries_of_nonempty in Hpos.
      destruct Hpos as [(log & Hin & H)|(log & Hin & H)]; exists log;
        (split; [apply in_or_app; tauto | exact H]).
    - intros (log & Hin & H). eexists. apply evaluate_lookup. split; [|reflexivity].
      rewrite !entries_of_nonempty. apply in_app_or in Hin.
      destruct Hin; [left | right]; now exists log. }
  split; [exact Hdom | split].
  - intros agent Hnone.
    destruct (evaluate_patch_effectiveness logs_before logs_after !! agent) eqn:Hl;
      [|reflexivity].
    destruct (proj1 (Hdom agent)) as (log & Hin & Ha & Hf); [rewrite Hl; eauto|].
    rewrite (Hnone log Hin Ha) in Hf. discriminate Hf.
  - intros agent Hl. apply evaluate_lookup in Hl. destruct Hl as [Hpos Hv].
    symmetry in Hv. now apply evaluation_of_positive in Hv.
Qed.

(** The verdict of an agent in the result: with [b] and [a] the numbers of
    the agent's entries that pass the count's own test (fail, error,
    exception, crash) before and after, exactly one of the six branch
    conditions holds of [(b, a)], it is not the first, and the value is that
    verdict's phrase followed by the two counts. *)
Theorem evaluate_patch_effectiveness_verdict (logs_before logs_after : list Log) agent v :
  evaluate_patch_effectiveness logs_before logs_after !! agent = Some v ->
  let b := length (entries_of is_basic_failure agent logs_before) in
  let a := length (entries_of is_basic_failure agent logs_after) in
  exists verdict,
    VerdictFor b a verdict /\
    (forall verdict', VerdictFor b a verdict' -> verdict' = verdict) /\
    verdict <> NoFailures /\
    v = evaluation_of b a /\
    v = with_counts (verdict_phrase verdict) b a.
Proof.
  intros Hl b a. apply evaluate_lookup in Hl. fold b a in Hl. destruct Hl as [Hpos ->].
  destruct (evaluation_of_verdict b a) as (verdict & Hv & Heq).
  exists verdict. split; [exact Hv|]. split.
  { intros v' Hv'. exact (VerdictFor_deterministic _ _ _ _ Hv' Hv). }
  assert (Hne : verdict <> NoFailures).
  { intros ->. inversion Hv. lia. }
  split; [exact Hne|]. split; [reflexivity|].
  rewrite Heq. destruct verdict; congruence.
Qed.

(** The end-to-end batch of the specification: two failures of the engineer
    before the patch and one after it. *)
Lemma evaluate_patch_effectiveness_verdict_witness :
  exists verdict,
    VerdictFor 2 1 verdict /\
    "Failures reduced (before: 2, after: 1)." = with_counts (verdict_phrase verdict) 2 1.
Proof.
  destruct (evaluate_patch_effectiveness_verdict
              [entry "eng" "t1" "timeout error"; entry "eng" "t2" "test failed"]
              [entry "eng" "t3" "test failed"] "eng"
              "Failures reduced (before: 2, after: 1)." eq_refl)
    as (verdict & Hv & _ & _ & _ & Heq).
  exists verdict. split; [exact Hv | exact Heq].
Defined.

(** ** The two failure tests *)

(** The four basic words are among the six of the detector. *)
Lemma basic_failure_is_failure msg :
  is_basic_failure msg = true -> is_failure msg = true.
Proof.
  unfold is_basic_failure, is_failure, PyStr.any_in. rewrite !existsb_exists.
  intros (w & Hin & Hw). exists w. split; [|exact Hw].
  simpl in *. tauto.
Qed.

(** C1, at a batch of two timeouts: the detector accepts "timeout" and the
    grouping step files both entries, but the propagation mapper and the count
    of the patch comparator test four words only and pass both entries by:
    no edge from A to B, and no count for either agent. *)
Theorem C1_timeout_passes_the_basic_gates :
  let logs := [entry "A" "t1" "timeout"; entry "B" "t2" "timeout"] in
  is_failure "timeout" = true /\
  _group_failures_by_agent logs !! "A"
  = Some [mkFailureRecord (entry "A" "t1" "timeout") "Timeout"] /\
  _group_failures_by_agent logs !! "B"
  = Some [mkFailureRecord (entry "B" "t2" "timeout") "Timeout"] /\
  propagation_edges is_failure (__init__ logs) = [mkEdge "A" "B" "t2" "timeout"] /\
  map_failure_propagation (__init__ logs) = Ok [] /\
  length (entries_of is_failure "A" logs) = 1 /\
  count_failures logs !! "A" = None /\
  evaluate_patch_effectiveness logs [] !! "A" = None.
Proof.
  cbv zeta. repeat split; vm_compute; reflexivity.
Qed.

Lemma prefix_trans a b c :
  String.prefix a b = true -> String.prefix b c = true -> String.prefix a c = true.
Proof.
  revert b c. induction a as [|x a IH]; intros b c; [now destruct c|].
  destruct b as [|y b]; [discriminate|]. destruct c as [|z c]; [discriminate|].
  simpl. destruct (ascii_dec x y) as [->|]; [|discriminate].
  destruct (ascii_dec y z) as [->|]; [|discriminate]. apply IH.
Qed.

Lemma contains_cons kw c s :
  PyStr.contains kw s = true -> PyStr.contains kw (String c s) = true.
Proof. intros H. cbn [PyStr.contains]. rewrite H. apply orb_true_r. Qed.

Lemma prefix_contains a b c :
  PyStr.contains a b = true -> String.prefix b c = true -> PyStr.contains a c = true.
Proof.
  revert c. induction b as [|y b IH]; intros c Hab Hbc.
  - cbn [PyStr.contains] in Hab. rewrite orb_false_r in Hab.
    destruct a; [|discriminate Hab]. destruct c; reflexivity.
  - destruct c as [|z c]; [discriminate Hbc|]. simpl in Hbc.
    destruct (ascii_dec y z) as [->|]; [|discriminate Hbc].
    cbn [PyStr.contains] in Hab. apply orb_true_iff in Hab. destruct Hab as [Hp|Hc].
    + cbn [PyStr.contains]. apply orb_true_iff. left.
      apply (prefix_trans a (String z b)); [exact Hp|]. simpl.
      destruct (ascii_dec z z); [exact Hbc | contradiction].
    + apply contains_cons. now apply IH.
Qed.

(** A keyword that occurs in a part of a string occurs in the string. *)
Lemma contains_trans a b c :
  PyStr.contains a b = true -> PyStr.contains b c = true -> PyStr.contains a c = true.
Proof.
  intros Hab. induction c as [|z c IH]; cbn [PyStr.contains]; intros Hbc.
  - rewrite orb_false_r in Hbc. now apply (prefix_contains a b "").
  - apply orb_true_iff in Hbc. destruct Hbc as [Hp|Hc].
    + now apply (prefix_contains a b (String z c)).
    + fold (PyStr.contains a (String z c)). now apply contains_cons, IH.
Qed.

Lemma keyword_detected kw msg :
  PyStr.any_in failure_words kw = true ->
  PyStr.contains kw (PyStr.lower msg) = true -> is_failure msg = true.
Proof.
  unfold is_failure, PyStr.any_in. rewrite !existsb_exists.
  intros (w & Hin & Hw) Hk. exists w. split; [exact Hin|].
  now apply (contains_trans w kw).
Qed.

Lemma classified_mentions msg :
  _categorize_failure msg <> category_label Other ->
  mentions (syntax_keywords ++ logic_keywords ++ timeout_keywords ++ hallucination_keywords)
           msg.
Proof.
  intros H. destruct (categorize_sound msg) as (c & Hlab & Hcat).
  assert (Hm : forall g, mentions g msg ->
             (forall kw, In kw g -> In kw (syntax_keywords ++ logic_keywords
                                          ++ timeout_keywords ++ hallucination_keywords)) ->
             mentions (syntax_keywords ++ logic_keywords ++ timeout_keywords
                       ++ hallucination_keywords) msg).
  { intros g (kw & Hin & Hc) Hsub. exists kw. split; [now apply Hsub | exact Hc]. }
  destruct Hcat as [Hs|_ Hl|_ _ Ht|_ _ _ Hh|].
  - apply (Hm _ Hs). intros kw Hin. apply in_or_app. now left.
  - apply (Hm _ Hl). intros kw Hin. apply in_or_app. right. apply in_or_app. now left.
  - apply (Hm _ Ht). intros kw Hin. do 2 (apply in_or_app; right). apply in_or_app. now left.
  - apply (Hm _ Hh). intros kw Hin. do 3 (apply in_or_app; right). exact Hin.
  - contradiction.
Qed.

Lemma grouped_record_is_detected (logs : list Log) agent records r :
  _group_failures_by_agent logs !! agent = Some records ->
  In r records ->
  In (record_log r) logs /\
  is_failure (message_of (record_log r)) = true /\
  category r = _categorize_failure (message_of (record_log r)).
Proof.
  intros Hl Hr.
  rewrite group_lookup in Hl.
  assert (Hin : In r (map (fun log => mkFailureRecord log (_categorize_failure (message_of log)))
                          (entries_of is_failure agent logs))).
  { destruct (map _ _); [discriminate Hl|]. injection Hl as ->. exact Hr. }
  apply in_map_iff in Hin. destruct Hin as (log & <- & Hin).
  apply filter_In in Hin. destruct Hin as [Hin Hc].
  apply andb_true_iff in Hc. destruct Hc as [Hf _]. cbn. auto.
Qed.

(** C2, amended: a message that the classifier puts in a category other
    than Other passes the detector, unless it has one of the thirteen
    classifier keywords in which no detector word occurs; each of the
    thirteen is itself classified and not detected, so none can be left out.
    In the grouping step, the only place where the classifier is applied,
    every classified message passes the detector. The converse fails at
    "crash", which the detector accepts and the classifier leaves in
    Other. *)
Theorem C2_classified_messages_are_detected (msg : string) :
  _categorize_failure msg <> category_label Other ->
  (is_failure msg = true \/ mentions detector_free_keywords msg) /\
  Forall (fun kw => _categorize_failure kw <> category_label Other /\
                    is_failure kw = false) detector_free_keywords /\
  (forall logs agent records r,
     _group_failures_by_agent logs !! agent = Some records -> In r records ->
     is_failure (message_of (record_log r)) = true /\
     category r = _categorize_failure (message_of (record_log r))) /\
  (is_failure "crash" = true /\ _categorize_failure "crash" = category_label Other).
Proof.
  intros H. split; [|split; [|split; [|split; reflexivity]]].
  - destruct (classified_mentions msg H) as (kw & Hin & Hc).
    assert (Hcase : PyStr.any_in failure_words kw = true \/ In kw detector_free_keywords).
    { cbn in Hin.
      repeat (destruct Hin as [<-|Hin]; [first [left; reflexivity | right; cbn; tauto]|]).
      destruct Hin. }
    destruct Hcase as [Hd|Hfree].
    + left. now apply (keyword_detected kw).
    + right. now exists kw.
  - repeat constructor; vm_compute; discriminate.
  - intros logs agent records r Hl Hr.
    now destruct (grouped_record_is_detected logs agent records r Hl Hr) as (_ & ? & ?).
Qed.

Lemma C2_classified_messages_are_detected_witness :
  (is_failure "Syntax Error near line 3" = true
   \/ mentions detector_free_keywords "Syntax Error near line 3") /\
  (is_failure "values mismatch" = true \/ mentions detector_free_keywords "values mismatch").
Proof.
  split.
  - apply (C2_classified_messages_are_detected "Syntax Error near line 3").
    vm_compute. discriminate.
  - apply (C2_classified_messages_are_detected "values mismatch").
    vm_compute. discriminate.
Defined.

(** C9, at a batch with an entry that lacks [agent_id]: the propagation
    mapper and the introducer map index the key and raise [KeyError], while
    the grouping step and the count file the same entry under "unknown". An
    entry that lacks [timestamp] is sorted first by [__init__], under the
    key "", and then makes the mapper raise when its edge is built. *)
Theorem C9_missing_agent_id_raises :
  let logs := [entry "A" "t1" "error"; mkLog None (Some "t2") (Some "error")] in
  map_failure_propagation (__init__ logs) = Raise (KeyError "agent_id") /\
  show_failure_introducers (__init__ [mkLog None (Some "t2") (Some "error")])
  = Raise (KeyError "agent_id") /\
  _group_failures_by_agent logs !! "unknown"
  = Some [mkFailureRecord (mkLog None (Some "t2") (Some "error")) "Other"] /\
  count_failures logs !! "unknown" = Some 1 /\
  __init__ [entry "A" "t1" "error"; mkLog (Some "B") None (Some "error")]
  = [mkLog (Some "B") None (Some "error"); entry "A" "t1" "error"] /\
  map_failure_propagation
    (__init__ [mkLog (Some "A") None (Some "error"); entry "B" "t1" "error";
               mkLog (Some "C") None (Some "error")])
  = Raise (KeyError "timestamp").
Proof.
  cbv zeta. repeat split; vm_compute; reflexivity.
Qed.

(** ** Trimming and the detector *)

Lemma isspace_lower_char c : PyStr.isspace (PyStr.lower_char c) = PyStr.isspace c.
Proof. destruct c as [[] [] [] [] [] [] [] []]; reflexivity. Qed.

Lemma lower_lstrip s : PyStr.lower (PyStr.lstrip s) = PyStr.lstrip (PyStr.lower s).
Proof.
  induction s as [|c s IH]; [reflexivity|].
  simpl. rewrite isspace_lower_char. destruct (PyStr.isspace c); [exact IH | reflexivity].
Qed.

Lemma lower_rstrip s : PyStr.lower (PyStr.rstrip s) = PyStr.rstrip (PyStr.lower s).
Proof.
  induction s as [|c s IH]; [reflexivity|].
  simpl. rewrite <- IH, isspace_lower_char.
  destruct (PyStr.rstrip s); simpl; [destruct (PyStr.isspace c)|]; reflexivity.
Qed.

Lemma lower_strip s : PyStr.lower (PyStr.strip s) = PyStr.strip (PyStr.lower s).
Proof. unfold PyStr.strip. now rewrite lower_rstrip, lower_lstrip. Qed.

Lemma append_cons c l s : String c l +:+ s = String c (l +:+ s).
Proof. reflexivity. Qed.

Lemma lstrip_spec s :
  exists l, s = l +:+ PyStr.lstrip s /\ all_space l = true /\
            starts_with_space (PyStr.lstrip s) = false.
Proof.
  induction s as [|c s (l & Hs & Hl & Hst)]; [now exists ""|].
  cbn [PyStr.lstrip]. destruct (PyStr.isspace c) eqn:Hc.
  - exists (String c l). split; [rewrite append_cons; now f_equal|].
    split; [cbn [all_space]; now rewrite Hc, Hl | exact Hst].
  - exists "". split; [reflexivity|]. split; [reflexivity | exact Hc].
Qed.

Lemma rstrip_spec s :
  exists r, s = PyStr.rstrip s +:+ r /\ all_space r = true /\
            ends_with_space (PyStr.rstrip s) = false.
Proof.
  induction s as [|c s (r & Hs & Hr & He)]; [now exists ""|].
  cbn [PyStr.rstrip]. destruct (PyStr.rstrip s) as [|c' s'] eqn:Hrs.
  - change ("" +:+ r) with r in Hs. subst r. destruct (PyStr.isspace c) eqn:Hc.
    + exists (String c s). split; [reflexivity|].
      split; [cbn [all_space]; now rewrite Hc, Hr | reflexivity].
    + exists s. split; [reflexivity|]. split; [exact Hr | exact Hc].
  - exists r. split; [rewrite append_cons; f_equal; exact Hs|].
    split; [exact Hr | exact He].
Qed.

Lemma rstrip_start s :
  starts_with_space s = false -> starts_with_space (PyStr.rstrip s) = false.
Proof.
  destruct s as [|c s]; [reflexivity|]. cbn [starts_with_space PyStr.rstrip]. intros Hc.
  rewrite Hc. now destruct (PyStr.rstrip s).
Qed.

(** [str.strip] removes the white space on both sides and nothing else. *)
Lemma strip_Trimmed msg : Trimmed msg (PyStr.strip msg).
Proof.
  unfold PyStr.strip. destruct (lstrip_spec msg) as (l & Hl & Hsl & Hst).
  destruct (rstrip_spec (PyStr.lstrip msg)) as (r & Hr & Hsr & He).
  exists l, r. split; [now rewrite <- Hr|]. split; [exact Hsl|]. split; [exact Hsr|].
  split; [now apply rstrip_start | exact He].
Qed.

Lemma prefix_space kw c s :
  nospace kw = true -> kw <> "" -> PyStr.isspace c = true ->
  String.prefix kw (String c s) = false.
Proof.
  destruct kw as [|k kw]; [congruence|]. simpl. intros Hk _ Hc.
  destruct (ascii_dec k c) as [->|]; [|reflexivity].
  rewrite Hc in Hk. discriminate Hk.
Qed.

Lemma contains_lstrip kw s :
  nospace kw = true -> kw <> "" ->
  PyStr.contains kw (PyStr.lstrip s) = PyStr.contains kw s.
Proof.
  intros Hk Hne. induction s as [|c s IH]; [reflexivity|].
  cbn [PyStr.lstrip]. destruct (PyStr.isspace c) eqn:Hc; [|reflexivity].
  rewrite IH. cbn [PyStr.contains]. now rewrite prefix_space.
Qed.

Lemma rstrip_cons c s :
  PyStr.rstrip (String c s)
  = if PyStr.isspace c && (if PyStr.rstrip s is EmptyString then true else false)
    then EmptyString else String c (PyStr.rstrip s).
Proof. cbn [PyStr.rstrip]. destruct (PyStr.rstrip s), (PyStr.isspace c); reflexivity. Qed.

Lemma prefix_rstrip kw s :
  nospace kw = true -> String.prefix kw (PyStr.rstrip s) = String.prefix kw s.
Proof.
  revert kw. induction s as [|c s IH]; intros kw Hk; [reflexivity|].
  rewrite rstrip_cons. destruct kw as [|k kw]; [now destruct (_ && _)|].
  cbn [nospace] in Hk. apply andb_true_iff in Hk. destruct Hk as [Hk Hkw].
  destruct (PyStr.isspace c && _) eqn:Hc.
  - apply andb_true_iff in Hc. destruct Hc as [Hc _]. simpl.
    destruct (ascii_dec k c) as [->|]; [|reflexivity].
    rewrite Hc in Hk. discriminate Hk.
  - simpl. destruct (ascii_dec k c); [now apply IH | reflexivity].
Qed.

Lemma contains_rstrip kw s :
  nospace kw = true -> kw <> "" ->
  PyStr.contains kw (PyStr.rstrip s) = PyStr.contains kw s.
Proof.
  intros Hk Hne. induction s as [|c s IH]; [reflexivity|].
  cbn [PyStr.contains]. rewrite <- IH, <- (prefix_rstrip kw (String c s)) by assumption.
  rewrite rstrip_cons. destruct (PyStr.isspace c && _) eqn:Hc.
  - apply andb_true_iff in Hc. destruct Hc as [_ Hr].
    destruct (PyStr.rstrip s); [|discriminate Hr]. cbn [PyStr.contains].
    now rewrite orb_false_r, orb_diag.
  - reflexivity.
Qed.

Lemma contains_strip kw s :
  nospace kw = true -> kw <> "" ->
  PyStr.contains kw (PyStr.strip s) = PyStr.contains kw s.
Proof.
  intros Hk Hne. unfold PyStr.strip. now rewrite contains_rstrip, contains_lstrip.
Qed.

(** The detector does not depend on the white space around a message. *)
Lemma is_failure_strip msg : is_failure (PyStr.strip msg) = is_failure msg.
Proof.
  unfold is_failure, PyStr.any_in. rewrite lower_strip.
  unfold failure_words. cbn [existsb].
  rewrite !contains_strip by (reflexivity || discriminate). reflexivity.
Qed.

(** ** The patch diff *)

Lemma extract_step_eq (m : gmap string (list string)) log :
  extract_step m log
  = if is_failure (message_of log)
    then <[agent_of log := default [] (m !! agent_of log) ++ [failure_text log]]> m
    else m.
Proof.
  unfold extract_step. name_tests log.
  unfold failure_text at 1. now rewrite is_failure_strip.
Qed.

Lemma extract_failures_lookup logs agent :
  extract_failures logs !! agent
  = match map failure_text (entries_of is_failure agent logs) with
    | [] => None
    | texts => Some texts
    end.
Proof.
  unfold extract_failures, entries_of.
  rewrite (append_fold_lookup agent_of (fun log => is_failure (message_of log))
             failure_text extract_step extract_step_eq).
  rewrite lookup_empty. reflexivity.
Qed.

Lemma extract_failures_set logs agent :
  list_to_set (default [] (extract_failures logs !! agent)) = failure_texts agent logs.
Proof.
  rewrite extract_failures_lookup. unfold failure_texts.
  now destruct (map failure_text _).
Qed.

Lemma patch_propagation_analysis_lookup logs_before logs_after agent r :
  patch_propagation_analysis logs_before logs_after !! agent = Some r
  <-> (agent ∈ dom (extract_failures logs_before) ∪ dom (extract_failures logs_after)) /\
      r = mkPatchAgentResult
            (failure_texts agent logs_before ∖ failure_texts agent logs_after)
            (failure_texts agent logs_before ∩ failure_texts agent logs_after)
            (failure_texts agent logs_after ∖ failure_texts agent logs_before).
Proof.
  unfold patch_propagation_analysis.
  rewrite (set_fold_insert_lookup (fun agent =>
    mkPatchAgentResult
      (list_to_set (default [] (extract_failures logs_before !! agent))
       ∖ list_to_set (default [] (extract_failures logs_after !! agent)))
      (list_to_set (default [] (extract_failures logs_before !! agent))
       ∩ list_to_set (default [] (extract_failures logs_after !! agent)))
      (list_to_set (default [] (extract_failures logs_after !! agent))
       ∖ list_to_set (default [] (extract_failures logs_before !! agent))))).
  now rewrite !extract_failures_set.
Qed.

(** The trimmed texts of an agent's detected failures, without reference to
    [str.strip]. *)
Lemma failure_texts_spec agent logs text :
  text ∈ failure_texts agent logs <->
  exists log, In log logs /\ agent_of log = agent /\
              is_failure (message_of log) = true /\
              text = failure_text log /\ Trimmed (message_of log) text.
Proof.
  unfold failure_texts.
  rewrite elem_of_list_to_set, list_elem_of_In, in_map_iff. split.
  - intros (log & <- & Hin). apply filter_In in Hin. destruct Hin as [Hin Hb].
    apply andb_true_iff in Hb. destruct Hb as [Hf Ha]. apply String.eqb_eq in Ha.
    exists log. repeat split; try assumption. apply strip_Trimmed.
  - intros (log & Hin & Ha & Hf & -> & _). exists log. split; [reflexivity|].
    apply filter_In. split; [exact Hin|]. apply andb_true_iff. split; [exact Hf|].
    now apply String.eqb_eq.
Qed.

(** C8: the patch diff of a batch with itself gives every agent of the
    result no fully fixed and no newly introduced message, and as partially
    fixed exactly the set of the trimmed texts of its detected failures: the
    messages of the agent's entries that pass the detector, each without the
    white space before and after it. *)
Theorem C8_patch_diff_idempotent (X : list Log) agent r :
  patch_propagation_analysis X X !! agent = Some r ->
  fully_fixed r = ∅ /\
  newly_introduced r = ∅ /\
  partially_fixed r = failure_texts agent X /\
  (forall text, text ∈ partially_fixed r <->
     exists log, In log X /\ agent_of log = agent /\
                 is_failure (message_of log) = true /\
                 text = failure_text log /\ Trimmed (message_of log) text).
Proof.
  intros Hr. apply patch_propagation_analysis_lookup in Hr. destruct Hr as [_ ->].
  cbn [fully_fixed newly_introduced partially_fixed].
  assert (Hp : failure_texts agent X ∩ failure_texts agent X = failure_texts agent X)
    by set_solver.
  split; [set_solver|]. split; [set_solver|]. split; [exact Hp|].
  intros text. rewrite Hp. apply failure_texts_spec.
Qed.

Lemma C8_patch_diff_idempotent_witness :
  exists r,
    patch_propagation_analysis
      [entry "eng" "t1" (" timeout error" +:+ nbsp); entry "eng" "t2" "ok";
       entry "eng" "t3" "timeout error"]
      [entry "eng" "t1" (" timeout error" +:+ nbsp); entry "eng" "t2" "ok";
       entry "eng" "t3" "timeout error"]
      !! "eng" = Some r /\
    fully_fixed r = ∅ /\ newly_introduced r = ∅ /\
    partially_fixed r = {["timeout error"]}.
Proof.
  pose (X := [entry "eng" "t1" (" timeout error" +:+ nbsp); entry "eng" "t2" "ok";
              entry "eng" "t3" "timeout error"]).
  assert (Hl : is_Some (patch_propagation_analysis X X !! "eng")).
  { eexists. apply patch_propagation_analysis_lookup. split; [|reflexivity].
    apply elem_of_union_l, elem_of_dom. rewrite extract_failures_lookup. vm_compute. eauto. }
  destruct (patch_propagation_analysis X X !! "eng") as [r|] eqn:Hr;
    [|exfalso; destruct Hl as [? Hl]; discriminate Hl].
  exists r. split; [exact Hr|].
  destruct (C8_patch_diff_idempotent X "eng" r Hr) as (H1 & H2 & H3 & _).
  split; [exact H1 | split; [exact H2|]].
  rewrite H3. unfold failure_texts. cbn. set_solver.
Defined.

(** ** The introducer map *)

Lemma dict_mem_In k d : dict_mem k d = true <-> In k (map fst d).
Proof.
  unfold dict_mem. rewrite existsb_exists, in_map_iff. split.
  - intros (kv & Hin & He). apply String.eqb_eq in He. now exists kv.
  - intros (kv & He & Hin). exists kv. split; [exact Hin | now apply String.eqb_eq].
Qed.

Lemma dict_set_fresh d k v : dict_mem k d = false -> dict_set d k v = d ++ [(k, v)].
Proof.
  induction d as [|[k' v'] d IH]; [reflexivity|].
  unfold dict_mem in *. cbn [existsb fst dict_set]. intros H.
  apply orb_false_iff in H. destruct H as [Hk Hd].
  rewrite Hk. now rewrite IH.
Qed.

Lemma introducer_step_machine seen log :
  is_Some (agent_id log) ->
  introducer_step seen log = Ok (introducer_machine_step seen log).
Proof.
  intros [a Ha]. unfold introducer_step, introducer_machine_step.
  name_tests log.
  unfold failure_text at 1. rewrite is_failure_strip.
  destruct (is_failure (message_of log)); [|reflexivity].
  destruct (dict_mem (failure_text log) seen) eqn:Hm; [reflexivity|].
  cbn. rewrite Ha. cbn. rewrite dict_set_fresh by exact Hm.
  unfold the_agent. now rewrite Ha.
Qed.

Lemma for_each_introducer_machine l seen :
  Forall (fun log => is_Some (agent_id log)) l ->
  for_each introducer_step l seen = Ok (fold_left introducer_machine_step l seen).
Proof.
  intros Hl. revert seen. induction Hl as [|log l Hlog Hl IH]; intros seen; [reflexivity|].
  cbn [for_each fold_left]. rewrite introducer_step_machine by assumption.
  cbn [mbind result_bind]. apply IH.
Qed.

Lemma first_occurrences_In x l : In x (first_occurrences l) <-> In x l.
Proof.
  induction l as [|y l IH]; [reflexivity|].
  cbn [first_occurrences]. split.
  - intros [H|H]; [now left|]. apply filter_In in H. right. now apply IH.
  - intros [H|H]; [now left|].
    destruct (String.eqb_spec x y) as [->|Hne]; [now left|].
    right. apply filter_In. split; [now apply IH|].
    destruct (String.eqb_spec x y); [contradiction | reflexivity].
Qed.

Lemma first_occurrences_NoDup l : List.NoDup (first_occurrences l).
Proof.
  induction l as [|y l IH]; cbn [first_occurrences]; constructor.
  - intros H. apply filter_In in H. destruct H as [_ H].
    rewrite String.eqb_refl in H. discriminate H.
  - now apply List.NoDup_filter.
Qed.

Lemma first_occurrences_snoc l x :
  first_occurrences (l ++ [x])
  = if existsb (String.eqb x) l then first_occurrences l else first_occurrences l ++ [x].
Proof.
  induction l as [|y l IH]; [reflexivity|].
  cbn [app first_occurrences existsb]. rewrite IH.
  destruct (String.eqb_spec x y) as [->|Hne]; cbn [orb].
  - destruct (existsb (String.eqb y) l); [reflexivity|].
    rewrite List.filter_app. cbn [List.filter]. rewrite String.eqb_refl. cbn [negb].
    now rewrite app_nil_r.
  - destruct (existsb (String.eqb x) l); [reflexivity|].
    rewrite List.filter_app. cbn [List.filter].
    destruct (String.eqb_spec x y); [contradiction | reflexivity].
Qed.

Lemma existsb_eqb_In x l : existsb (String.eqb x) l = true <-> In x l.
Proof.
  rewrite existsb_exists. split.
  - intros (y & Hin & He). apply String.eqb_eq in He. now subst.
  - intros Hin. exists x. split; [exact Hin | apply String.eqb_refl].
Qed.

Lemma failure_texts_in_order_snoc l x :
  failure_texts_in_order (l ++ [x])
  = failure_texts_in_order l
    ++ (if is_failure (message_of x) then [failure_text x] else []).
Proof.
  unfold failure_texts_in_order. rewrite List.filter_app, map_app. cbn [List.filter].
  now destruct (is_failure (message_of x)).
Qed.

Lemma introducers_invariant l :
  let seen := fold_left introducer_machine_step l [] in
  map fst seen = first_occurrences (failure_texts_in_order l) /\
  (forall m a, In (m, a) seen -> first_failure_with_text l m a
                                 \/ exists log, In log l /\ agent_id log = None).
Proof.
  induction l as [|x l IH] using rev_ind; [split; [reflexivity | intros ? ? []]|].
  cbv zeta in *. rewrite fold_left_app. cbn [fold_left].
  destruct IH as [IHk IHv]. set (seen := fold_left introducer_machine_step l []) in *.
  rewrite failure_texts_in_order_snoc.
  assert (Hold : forall m a, In (m, a) seen ->
            first_failure_with_text (l ++ [x]) m a
            \/ exists log, In log (l ++ [x]) /\ agent_id log = None).
  { intros m a Hin. destruct (IHv m a Hin) as [(l1 & log & l2 & -> & H)|(log & Hl & Hn)].
    - left. exists l1, log, (l2 ++ [x]). split; [now rewrite <- app_assoc | exact H].
    - right. exists log. split; [apply in_or_app; now left | exact Hn]. }
  unfold introducer_machine_step.
  destruct (is_failure (message_of x)) eqn:Hf; cbn [andb].
  - rewrite first_occurrences_snoc.
    destruct (dict_mem (failure_text x) seen) eqn:Hm; cbn [negb].
    + apply dict_mem_In in Hm. rewrite IHk, first_occurrences_In in Hm.
      apply existsb_eqb_In in Hm. rewrite Hm. split; [exact IHk | exact Hold].
    + assert (Hnot : ~ In (failure_text x) (failure_texts_in_order l)).
      { intros Hin. apply first_occurrences_In in Hin. rewrite <- IHk in Hin.
        apply dict_mem_In in Hin. congruence. }
      destruct (existsb (String.eqb (failure_text x)) (failure_texts_in_order l)) eqn:He.
      { apply existsb_eqb_In in He. contradiction. }
      split; [now rewrite map_app, IHk|].
      intros m a Hin. apply in_app_or in Hin. destruct Hin as [Hin|[Heq|[]]]; [now apply Hold|].
      injection Heq as <- <-.
      destruct (agent_id x) as [ax|] eqn:Hax.
      * left. exists l, x, []. split; [reflexivity|]. split; [exact Hf|].
        split; [reflexivity|]. split; [unfold the_agent; now rewrite Hax|].
        intros log' Hin' Hf' Heq. apply Hnot. rewrite <- Heq.
        unfold failure_texts_in_order. apply in_map. apply filter_In. now split.
      * right. exists x. split; [apply in_or_app; right; now left | exact Hax].
  - rewrite app_nil_r. split; [exact IHk | exact Hold].
Qed.

(** C7: over the entries in timestamp order, [show_failure_introducers]
    makes one pass that maps every distinct trimmed failure text (compared as
    it is, case included) to the agent of its first occurrence; an entry
    whose text is already in the map leaves the map unchanged, whichever
    agent it comes from; and the keys are in the order in which the texts
    were first seen. The text of an entry is its message without the white
    space before and after it. The entries carry the key [agent_id]. *)
Theorem C7_failure_introducers (logs : list Log) :
  Forall (fun log => is_Some (agent_id log)) logs ->
  let self_logs := __init__ logs in
  (Permutation self_logs logs /\ StronglySorted key_le self_logs) /\
  exists seen,
    show_failure_introducers self_logs = Ok seen /\
    seen = fold_left introducer_machine_step self_logs [] /\
    map fst seen = first_occurrences (failure_texts_in_order self_logs) /\
    List.NoDup (map fst seen) /\
    (forall m a, In (m, a) seen -> first_failure_with_text self_logs m a) /\
    (forall log, In log self_logs -> is_failure (message_of log) = true ->
                 exists a, In (failure_text log, a) seen) /\
    (forall seen' log, dict_mem (failure_text log) seen' = true ->
                       introducer_step seen' log = Ok seen') /\
    (forall log, Trimmed (message_of log) (failure_text log)).
Proof.
  intros Hagents self_logs.
  split; [split; [apply sorted_perm | apply sorted_sorted]|].
  assert (Hs : Forall (fun log => is_Some (agent_id log)) self_logs).
  { eapply Permutation_Forall; [symmetry; apply sorted_perm | exact Hagents]. }
  exists (fold_left introducer_machine_step self_logs []).
  destruct (introducers_invariant self_logs) as [Hk Hv]. cbv zeta in Hk, Hv.
  split; [now apply for_each_introducer_machine|].
  split; [reflexivity|]. split; [exact Hk|].
  split; [rewrite Hk; apply first_occurrences_NoDup|]. split; [|split; [|split]].
  4: intros log; apply strip_Trimmed.
  - intros m a Hin. destruct (Hv m a Hin) as [H|(log & Hin' & Hnone)]; [exact H|].
    rewrite List.Forall_forall in Hs. destruct (Hs log Hin') as [? Hsome]. congruence.
  - intros log Hin Hf.
    assert (Hkey : In (failure_text log)
                      (map fst (fold_left introducer_machine_step self_logs []))).
    { rewrite Hk. apply first_occurrences_In. unfold failure_texts_in_order.
      apply in_map. apply filter_In. now split. }
    apply in_map_iff in Hkey. destruct Hkey as ([m a] & Hm & Hin'). cbn in Hm. subst m.
    now exists a.
  - intros seen' log Hm. unfold introducer_step. fold (message_of log) (failure_text log).
    rewrite Hm. cbn [negb]. now destruct (PyStr.any_in _ _).
Qed.

Lemma C7_failure_introducers_witness :
  show_failure_introducers
    (__init__ [entry "B" "t2" (" timeout" +:+ nbsp +:+ tab);
               entry "A" "t1" ("timeout " +:+ nel);
               entry "D" "t4" (nbsp +:+ "time out error" +:+ nbsp);
               entry "C" "t3" "Timeout"])
  = Ok [("timeout", "A"); ("Timeout", "C"); ("time out error", "D")]
  /\ Trimmed (" timeout" +:+ nbsp +:+ tab) "timeout".
Proof.
  destruct (C7_failure_introducers
              [entry "B" "t2" (" timeout" +:+ nbsp +:+ tab);
               entry "A" "t1" ("timeout " +:+ nel);
               entry "D" "t4" (nbsp +:+ "time out error" +:+ nbsp);
               entry "C" "t3" "Timeout"])
    as (_ & seen & Hrun & -> & _ & _ & _ & _ & _ & Htrim).
  - repeat constructor; cbn; eauto.
  - split; [exact Hrun|].
    exact (Htrim (entry "B" "t2" (" timeout" +:+ nbsp +:+ tab))).
Defined.

(** ** The advanced report *)

Lemma set_fold_result_lookup {V : Type} (f : string -> result V) (X : gset string) :
  match set_fold (fun a (r : result (gmap string V)) =>
                    m ← r; v ← f a; Ok (<[a := v]> m)) (Ok ∅) X with
  | Ok m =>
      (forall k v, m !! k = Some v <-> k ∈ X /\ f k = Ok v) /\
      (forall k, k ∈ X -> exists v, f k = Ok v)
  | Raise e => exists a, a ∈ X /\ f a = Raise e
  end.
Proof.
  apply (set_fold_ind_L (fun (r : result (gmap string V)) (Y : gset string) =>
           match r with
           | Ok m =>
               (forall k v, m !! k = Some v <-> k ∈ Y /\ f k = Ok v) /\
               (forall k, k ∈ Y -> exists v, f k = Ok v)
           | Raise e => exists a, a ∈ Y /\ f a = Raise e
           end)).
  - split; [|set_solver]. intros k v. rewrite lookup_empty. split; [discriminate | set_solver].
  - intros x Y r Hx IH. destruct r as [m|e]; cbn [mbind result_bind].
    + destruct IH as [IHl IHd]. destruct (f x) as [vx|e] eqn:Hfx; cbn [mbind result_bind].
      * split.
        -- intros k v. destruct (decide (x = k)) as [->|Hne].
           ++ rewrite lookup_insert_eq. split.
              ** intros [= <-]. split; [set_solver | exact Hfx].
              ** intros [_ H]. congruence.
           ++ rewrite lookup_insert_ne by assumption. rewrite IHl. set_solver.
        -- intros k Hk. apply elem_of_union in Hk. destruct Hk as [Hk|Hk]; [|now apply IHd].
           apply elem_of_singleton in Hk. subst k. now exists vx.
      * exists x. split; [set_solver | exact Hfx].
    + destruct IH as (a & Ha & Hfa). exists a. split; [set_solver | exact Hfa].
Qed.

Section ReportProofs.
Variable fromisoformat : string -> option datetime.
Variable str_timedelta : Z -> string.

Lemma parsed_times_snoc {T : Type} (parse : string -> option T) l x :
  parsed_times parse (l ++ [x])
  = parsed_times parse l
    ++ match parse (get (timestamp x) "") with Some t => [t] | None => [] end.
Proof.
  unfold parsed_times. rewrite omap_app. cbn.
  now destruct (parse _).
Qed.

(** *** The two loops where no comparison raises *)

Lemma machine_before_last l :
  match last_failure_time (fold_left (before_machine_step fromisoformat) l
                                     (mkBeforeState ∅ ∅ None)) with
  | None =>
      parsed_times fromisoformat
        (List.filter (fun log => is_basic_failure (message_of log)) l) = []
  | Some lf =>
      In lf (parsed_times fromisoformat
               (List.filter (fun log => is_basic_failure (message_of log)) l)) /\
      forall t', In t' (parsed_times fromisoformat
                          (List.filter (fun log => is_basic_failure (message_of log)) l)) ->
                 (instant t' <= instant lf)%Z
  end.
Proof.
  induction l as [|x l IH] using rev_ind; [reflexivity|].
  rewrite fold_left_app, List.filter_app. cbn [fold_left List.filter].
  set (st := fold_left (before_machine_step fromisoformat) l _) in *.
  unfold before_machine_step.
  destruct (is_basic_failure (message_of x)); [|now rewrite app_nil_r].
  rewrite parsed_times_snoc.
  destruct (fromisoformat (get (timestamp x) "")) as [t|]; [|cbn; now rewrite app_nil_r].
  destruct (last_failure_time st) as [m|].
  - destruct IH as [Hin Hmax]. destruct (Z.ltb_spec (instant m) (instant t)); cbn.
    + split; [apply in_or_app; right; now left|].
      intros t' Hin'. apply in_app_or in Hin'. destruct Hin' as [H'|[<-|[]]]; [|lia].
      specialize (Hmax t' H'). lia.
    + split; [apply in_or_app; now left|].
      intros t' Hin'. apply in_app_or in Hin'. destruct Hin' as [H'|[<-|[]]]; [|lia].
      now apply Hmax.
  - rewrite IH. cbn. split; [now left|]. intros t' [<-|[]]. lia.
Qed.

Lemma machine_after_first last l :
  let later :=
    match last with
    | Some lf =>
        List.filter (fun t => (instant lf <? instant t)%Z)
          (parsed_times fromisoformat
             (List.filter (fun log => negb (is_basic_failure (message_of log))) l))
    | None => []
    end in
  match first_success_time (fold_left (after_machine_step fromisoformat last) l
                                      (mkAfterState ∅ ∅ None)) with
  | None => later = []
  | Some fs => In fs later /\ forall t', In t' later -> (instant fs <= instant t')%Z
  end.
Proof.
  cbv zeta. induction l as [|x l IH] using rev_ind.
  { destruct last; reflexivity. }
  rewrite fold_left_app, List.filter_app. cbn [fold_left List.filter].
  set (st := fold_left (after_machine_step fromisoformat last) l _) in *.
  unfold after_machine_step.
  destruct (is_basic_failure (message_of x)); cbn [negb first_success_time];
    [now rewrite app_nil_r|].
  rewrite parsed_times_snoc.
  destruct (fromisoformat (get (timestamp x) "")) as [t|]; [|now rewrite app_nil_r].
  clearbody st. destruct last as [lf|]; [|exact IH].
  rewrite List.filter_app. cbn [List.filter].
  destruct (Z.ltb_spec (instant lf) (instant t)); [|rewrite andb_false_r, app_nil_r; exact IH].
  rewrite andb_true_r.
  destruct (first_success_time st) as [m|] eqn:Hfs.
  - destruct IH as [Hin Hmin]. destruct (Z.ltb_spec (instant t) (instant m)); cbn.
    + split; [apply in_or_app; right; now left|].
      intros t' Hin'. apply in_app_or in Hin'. destruct Hin' as [H'|[<-|[]]]; [|lia].
      specialize (Hmin t' H'). lia.
    + rewrite Hfs. split; [apply in_or_app; now left|].
      intros t' Hin'. apply in_app_or in Hin'. destruct Hin' as [H'|[<-|[]]]; [|lia].
      now apply Hmin.
  - rewrite IH. cbn. split; [now left|]. intros t' [<-|[]]. lia.
Qed.

(** *** When a comparison raises *)

Lemma kind_of_aware d d' l : aware d = aware d' -> kind_of d l = kind_of d' l.
Proof. intros H. unfold kind_of. now rewrite H. Qed.

Lemma kind_of_In d l t : kind_of d l = true -> In t l -> aware t = aware d.
Proof.
  unfold kind_of. rewrite forallb_forall. intros H Hin. now apply eqb_prop, H.
Qed.

Lemma eqb_aware_sym a b : Bool.eqb (aware a) (aware b) = Bool.eqb (aware b) (aware a).
Proof. now destruct (aware a), (aware b). Qed.

Lemma parsed_times_cons {T : Type} (parse : string -> option T) x l :
  parsed_times parse (x :: l)
  = match parse (get (timestamp x) "") with
    | Some t => t :: parsed_times parse l
    | None => parsed_times parse l
    end.
Proof. unfold parsed_times. cbn. now destruct (parse _). Qed.

Lemma before_step_eq st log :
  before_step fromisoformat st log
  = if is_basic_failure (message_of log)
       && match fromisoformat (get (timestamp log) ""), last_failure_time st with
          | Some t, Some last => negb (Bool.eqb (aware t) (aware last))
          | _, _ => false
          end
    then Raise TypeError
    else Ok (before_machine_step fromisoformat st log).
Proof.
  unfold before_step, before_machine_step, parse_time. name_tests log.
  destruct (is_basic_failure (message_of log)); [|reflexivity]. cbn [andb].
  destruct (fromisoformat (get (timestamp log) "")) as [t|]; [|reflexivity].
  destruct (last_failure_time st) as [last|]; [|reflexivity].
  unfold datetime_lt. rewrite (eqb_aware_sym last t).
  destruct (Bool.eqb (aware t) (aware last)); reflexivity.
Qed.

(** The loop over [before_logs], from any state. *)
Lemma for_each_before l : forall st,
  for_each (before_step fromisoformat) l st
  = if match last_failure_time st with
       | Some lf => kind_of lf
       | None => same_kind
       end (parsed_times fromisoformat
              (List.filter (fun log => is_basic_failure (message_of log)) l))
    then Ok (fold_left (before_machine_step fromisoformat) l st)
    else Raise TypeError.
Proof.
  induction l as [|x l IH]; intros st.
  { cbn. now destruct (last_failure_time st). }
  cbn [for_each fold_left List.filter]. rewrite before_step_eq.
  destruct (is_basic_failure (message_of x)) eqn:Hf; cbn [andb].
  2:{ cbn [mbind result_bind]. rewrite IH. unfold before_machine_step. now rewrite Hf. }
  rewrite parsed_times_cons.
  unfold before_machine_step at 1 3. rewrite Hf.
  destruct (fromisoformat (get (timestamp x) "")) as [t|] eqn:Ht.
  2:{ cbn [mbind result_bind]. rewrite IH. reflexivity. }
  destruct (last_failure_time st) as [lf|] eqn:Hl.
  - cbn [kind_of forallb]. fold (kind_of lf).
    destruct (Bool.eqb (aware t) (aware lf)) eqn:Hk; cbn [negb andb]; [|reflexivity].
    cbn [mbind result_bind]. rewrite IH. apply eqb_prop in Hk.
    destruct (instant lf <? instant t)%Z; cbn [last_failure_time]; [|reflexivity].
    now rewrite (kind_of_aware t lf).
  - cbn [mbind result_bind same_kind]. rewrite IH. reflexivity.
Qed.

Lemma scan_before_eq l :
  scan_before fromisoformat l
  = if same_kind (parsed_times fromisoformat
                    (List.filter (fun log => is_basic_failure (message_of log)) l))
    then Ok (fold_left (before_machine_step fromisoformat) l (mkBeforeState ∅ ∅ None))
    else Raise TypeError.
Proof. unfold scan_before. now rewrite for_each_before. Qed.

Lemma after_step_eq last st log :
  (forall lf fs, last = Some lf -> first_success_time st = Some fs -> aware fs = aware lf) ->
  after_step fromisoformat last st log
  = if negb (is_basic_failure (message_of log))
       && match fromisoformat (get (timestamp log) ""), last with
          | Some t, Some lf => negb (Bool.eqb (aware t) (aware lf))
          | _, _ => false
          end
    then Raise TypeError
    else Ok (after_machine_step fromisoformat last st log).
Proof.
  intros Hinv. unfold after_step, after_machine_step, parse_time. name_tests log.
  destruct (is_basic_failure (message_of log)); [reflexivity|]. cbn [andb negb].
  destruct (fromisoformat (get (timestamp log) "")) as [t|]; [|reflexivity].
  destruct last as [lf|]; [|reflexivity].
  unfold datetime_lt. rewrite (eqb_aware_sym lf t).
  destruct (first_success_time st) as [fs|] eqn:Hfs.
  - rewrite (Hinv lf fs eq_refl eq_refl).
    destruct (Bool.eqb (aware t) (aware lf)); cbn [negb mbind result_bind]; [|reflexivity].
    destruct (instant t <? instant fs)%Z; cbn [andb]; [|reflexivity].
    now destruct (instant lf <? instant t)%Z.
  - cbn [mbind result_bind andb].
    destruct (Bool.eqb (aware t) (aware lf)); cbn [negb mbind result_bind]; [|reflexivity].
    now destruct (instant lf <? instant t)%Z.
Qed.

Lemma after_machine_step_kind last st log :
  (forall lf fs, last = Some lf -> first_success_time st = Some fs -> aware fs = aware lf) ->
  match fromisoformat (get (timestamp log) ""), last with
  | Some t, Some lf => is_basic_failure (message_of log) = false -> aware t = aware lf
  | _, _ => True
  end ->
  forall lf fs, last = Some lf ->
    first_success_time (after_machine_step fromisoformat last st log) = Some fs ->
    aware fs = aware lf.
Proof.
  intros Hinv Ht lf fs -> . unfold after_machine_step.
  destruct (is_basic_failure (message_of log)); [cbn; now apply Hinv|].
  destruct (fromisoformat (get (timestamp log) "")) as [t|]; [|now apply Hinv].
  destruct (_ && _); [|now apply Hinv]. cbn. intros [= <-]. now apply Ht.
Qed.

(** The loop over [after_logs], from a state whose first success, if any,
    is of the kind of the last failure. *)
Lemma for_each_after last l : forall st,
  (forall lf fs, last = Some lf -> first_success_time st = Some fs -> aware fs = aware lf) ->
  for_each (after_step fromisoformat last) l st
  = if match last with
       | Some lf =>
           kind_of lf (parsed_times fromisoformat
                         (List.filter (fun log => negb (is_basic_failure (message_of log))) l))
       | None => true
       end
    then Ok (fold_left (after_machine_step fromisoformat last) l st)
    else Raise TypeError.
Proof.
  induction l as [|x l IH]; intros st Hinv.
  { cbn. now destruct last. }
  cbn [for_each fold_left List.filter]. rewrite after_step_eq by exact Hinv.
  destruct (is_basic_failure (message_of x)) eqn:Hf; cbn [andb negb].
  { cbn [mbind result_bind]. rewrite IH; [reflexivity|].
    apply after_machine_step_kind; [exact Hinv|].
    destruct (fromisoformat _), last; try exact I. congruence. }
  rewrite parsed_times_cons.
  destruct (fromisoformat (get (timestamp x) "")) as [t|] eqn:Ht.
  2:{ cbn [mbind result_bind]. rewrite IH; [now destruct last|].
      apply after_machine_step_kind; [exact Hinv|]. rewrite Ht. exact I. }
  destruct last as [lf|].
  2:{ cbn [mbind result_bind]. rewrite IH; [reflexivity | discriminate]. }
  cbn [kind_of forallb]. fold (kind_of lf).
  destruct (Bool.eqb (aware t) (aware lf)) eqn:Hk; cbn [negb andb]; [|reflexivity].
  cbn [mbind result_bind]. rewrite IH; [reflexivity|].
  apply after_machine_step_kind; [exact Hinv|]. rewrite Ht. intros _. now apply eqb_prop.
Qed.

Lemma scan_after_eq last l :
  scan_after fromisoformat last l
  = if match last with
       | Some lf =>
           kind_of lf (parsed_times fromisoformat
                         (List.filter (fun log => negb (is_basic_failure (message_of log))) l))
       | None => true
       end
    then Ok (fold_left (after_machine_step fromisoformat last) l (mkAfterState ∅ ∅ None))
    else Raise TypeError.
Proof. unfold scan_after. apply for_each_after. discriminate. Qed.

Lemma agent_report_eq before_logs after_logs :
  agent_report fromisoformat str_timedelta before_logs after_logs
  = if comparable fromisoformat before_logs after_logs
    then Ok (agent_report_machine fromisoformat str_timedelta before_logs after_logs)
    else Raise TypeError.
Proof.
  unfold agent_report, comparable, agent_report_machine. rewrite scan_before_eq.
  destruct (same_kind _); cbn [andb mbind result_bind]; [|reflexivity].
  set (bs := fold_left (before_machine_step fromisoformat) before_logs _).
  rewrite scan_after_eq.
  pose proof (machine_after_first (last_failure_time bs) after_logs) as Hfirst.
  cbv zeta in Hfirst.
  set (ast := fold_left (after_machine_step fromisoformat (last_failure_time bs))
                        after_logs _) in *.
  destruct (last_failure_time bs) as [lf|]; cbn [mbind result_bind].
  - destruct (kind_of lf _) eqn:Hk; cbn [mbind result_bind]; [|reflexivity].
    destruct (first_success_time ast) as [fs|]; cbn [mbind result_bind]; [|reflexivity].
    destruct Hfirst as [Hin _]. apply filter_In in Hin. destruct Hin as [Hin _].
    unfold datetime_sub. rewrite (kind_of_In lf _ fs Hk Hin).
    now rewrite eqb_reflx.
  - now destruct (first_success_time ast).
Qed.

(** *** The report, agent by agent *)

Lemma group_by_agent_lookup logs agent :
  default [] (group_by_agent logs !! agent)
  = List.filter (fun log => String.eqb (agent_of log) agent) logs.
Proof.
  unfold group_by_agent.
  rewrite (append_fold_lookup agent_of (fun _ => true) (fun log => log)
             _ (fun m log => eq_refl)).
  rewrite lookup_empty, List.map_id. cbn [andb].
  now destruct (List.filter _ logs).
Qed.

Lemma filter_entries_of gate agent logs :
  List.filter (fun log => gate (message_of log))
              (List.filter (fun log => String.eqb (agent_of log) agent) logs)
  = entries_of gate agent logs.
Proof.
  unfold entries_of. induction logs as [|x logs IH]; [reflexivity|].
  cbn [List.filter]. destruct (String.eqb (agent_of x) agent); cbn [List.filter].
  - destruct (gate (message_of x)); cbn [andb]; now rewrite IH.
  - now rewrite andb_false_r.
Qed.

Lemma group_by_agent_dom logs agent :
  agent ∈ dom (group_by_agent logs) <-> exists log, In log logs /\ agent_of log = agent.
Proof.
  rewrite elem_of_dom. unfold group_by_agent.
  rewrite (append_fold_lookup agent_of (fun _ => true) (fun log => log)
             _ (fun m log => eq_refl)).
  rewrite lookup_empty, List.map_id. cbn [andb]. split.
  - destruct (List.filter _ logs) as [|log l] eqn:Hf; [intros [? H]; discriminate H|].
    intros _. assert (Hin : In log (List.filter (fun log => String.eqb (agent_of log) agent) logs)).
    { rewrite Hf. now left. }
    apply filter_In in Hin. destruct Hin as [Hin He]. apply String.eqb_eq in He. now exists log.
  - intros (log & Hin & Ha).
    assert (Hin' : In log (List.filter (fun log => String.eqb (agent_of log) agent) logs)).
    { apply filter_In. split; [exact Hin | now apply String.eqb_eq]. }
    destruct (List.filter _ logs); [destruct Hin' | eauto].
Qed.

Lemma all_agents_spec logs_before logs_after agent :
  agent ∈ dom (group_by_agent logs_before) ∪ dom (group_by_agent logs_after)
  <-> exists log, In log (logs_before ++ logs_after) /\ agent_of log = agent.
Proof.
  rewrite elem_of_union, !group_by_agent_dom. split.
  - intros [(log & Hin & H)|(log & Hin & H)]; exists log;
      (split; [apply in_or_app; tauto | exact H]).
  - intros (log & Hin & Ha). apply in_app_or in Hin.
    destruct Hin; [left | right]; now exists log.
Qed.

Lemma no_entry_no_logs logs agent :
  ~ (exists log, In log logs /\ agent_of log = agent) ->
  List.filter (fun log => String.eqb (agent_of log) agent) logs = [].
Proof.
  intros H. destruct (List.filter _ logs) as [|log l] eqn:Hf; [reflexivity|].
  exfalso. apply H. exists log.
  assert (Hin : In log (List.filter (fun log => String.eqb (agent_of log) agent) logs))
    by (rewrite Hf; now left).
  apply filter_In in Hin. destruct Hin as [Hin He]. now apply String.eqb_eq in He.
Qed.

(** The report is returned when the timestamps of every agent can be
    compared, and then holds for each agent with an entry what the two loops
    give; otherwise [TypeError] is raised. *)
Lemma report_cases logs_before logs_after :
  match advanced_evaluation_report fromisoformat str_timedelta logs_before logs_after with
  | Ok report =>
      (forall agent rep,
         report !! agent = Some rep <->
         (exists log, In log (logs_before ++ logs_after) /\ agent_of log = agent) /\
         rep = agent_report_machine fromisoformat str_timedelta
                 (List.filter (fun log => String.eqb (agent_of log) agent) logs_before)
                 (List.filter (fun log => String.eqb (agent_of log) agent) logs_after)) /\
      (forall agent,
         comparable fromisoformat
           (List.filter (fun log => String.eqb (agent_of log) agent) logs_before)
           (List.filter (fun log => String.eqb (agent_of log) agent) logs_after) = true)
  | Raise e =>
      e = TypeError /\
      exists agent,
        comparable fromisoformat
          (List.filter (fun log => String.eqb (agent_of log) agent) logs_before)
          (List.filter (fun log => String.eqb (agent_of log) agent) logs_after) = false
  end.
Proof.
  unfold advanced_evaluation_report.
  pose proof (set_fold_result_lookup
                (fun agent =>
                   agent_report fromisoformat str_timedelta
                     (default [] (group_by_agent logs_before !! agent))
                     (default [] (group_by_agent logs_after !! agent)))
                (dom (group_by_agent logs_before) ∪ dom (group_by_agent logs_after))) as H.
  cbv beta in H.
  destruct (set_fold _ _ _) as [report|e].
  - destruct H as [Hl Hd]. split.
    + intros agent rep. rewrite Hl, all_agents_spec, !group_by_agent_lookup, agent_report_eq.
      split.
      * intros [Hin Hr]. split; [exact Hin|].
        destruct (comparable _ _ _); [now injection Hr | discriminate Hr].
      * intros [Hin ->]. split; [exact Hin|].
        apply all_agents_spec, Hd in Hin. destruct Hin as [v Hv].
        rewrite !group_by_agent_lookup, agent_report_eq in Hv.
        destruct (comparable _ _ _); [reflexivity | discriminate Hv].
    + intros agent.
      destruct (decide (agent ∈ dom (group_by_agent logs_before)
                                ∪ dom (group_by_agent logs_after))) as [Hin|Hout].
      * apply Hd in Hin. destruct Hin as [v Hv].
        rewrite !group_by_agent_lookup, agent_report_eq in Hv.
        destruct (comparable _ _ _); [reflexivity | discriminate Hv].
      * rewrite all_agents_spec in Hout.
        rewrite !no_entry_no_logs; [reflexivity| |];
          intros (log & Hin & Ha); apply Hout; exists log;
          (split; [apply in_or_app; tauto | exact Ha]).
  - destruct H as (agent & _ & Hr).
    rewrite !group_by_agent_lookup, agent_report_eq in Hr.
    destruct (comparable _ _ _) eqn:Hc; [discriminate Hr|].
    injection Hr as <-. split; [reflexivity|]. now exists agent.
Qed.

Lemma same_kind_spec l :
  same_kind l = true <-> forall t1 t2, In t1 l -> In t2 l -> aware t1 = aware t2.
Proof.
  destruct l as [|d l]; [split; [intros _ ? ? [] | reflexivity]|].
  cbn [same_kind]. split.
  - intros H t1 t2 H1 H2.
    assert (Hd : forall t, In t (d :: l) -> aware t = aware d).
    { intros t [<-|Hin]; [reflexivity | now apply (kind_of_In d l)]. }
    now rewrite (Hd t1 H1), (Hd t2 H2).
  - intros H. apply forallb_forall. intros t Hin.
    rewrite (H t d); [apply eqb_reflx | now right | now left].
Qed.

Lemma comparable_spec logs_before logs_after agent :
  comparable fromisoformat
    (List.filter (fun log => String.eqb (agent_of log) agent) logs_before)
    (List.filter (fun log => String.eqb (agent_of log) agent) logs_after) = true
  <-> ~ mixed_timestamps fromisoformat agent logs_before logs_after.
Proof.
  unfold comparable, mixed_timestamps, failure_times, success_times.
  pose proof (machine_before_last
                (List.filter (fun log => String.eqb (agent_of log) agent) logs_before)) as Hlast.
  rewrite filter_entries_of in *.
  rewrite (filter_entries_of (fun m => negb (is_basic_failure m))).
  set (ft := parsed_times fromisoformat (entries_of is_basic_failure agent logs_before)) in *.
  set (st := parsed_times fromisoformat
               (entries_of (fun m => negb (is_basic_failure m)) agent logs_after)).
  destruct (last_failure_time _) as [lf|].
  - destruct Hlast as [Hlf _]. rewrite andb_true_iff, same_kind_spec. split.
    + intros [Hs Hk] (t1 & t2 & H1 & H2 & Hne). apply Hne.
      apply in_app_or in H2. destruct H2 as [H2|H2]; [now apply Hs|].
      rewrite (kind_of_In lf st t2 Hk H2). now apply Hs.
    + intros Hno. split.
      * intros t1 t2 H1 H2. destruct (bool_decide (aware t1 = aware t2)) eqn:Hd.
        -- now apply bool_decide_eq_true in Hd.
        -- apply bool_decide_eq_false in Hd. exfalso. apply Hno.
           exists t1, t2. split; [exact H1|]. split; [apply in_or_app; now left | exact Hd].
      * apply forallb_forall. intros t Hin.
        destruct (Bool.eqb (aware t) (aware lf)) eqn:He; [reflexivity|].
        exfalso. apply Hno. exists lf, t. split; [exact Hlf|].
        split; [apply in_or_app; now right|].
        intros Heq. rewrite Heq, eqb_reflx in He. discriminate He.
  - rewrite Hlast. cbn [same_kind andb]. split; [|reflexivity].
    intros _ (t1 & _ & [] & _).
Qed.

Lemma forallb_false {A : Type} (p : A -> bool) l :
  forallb p l = false -> exists x, In x l /\ p x = false.
Proof.
  induction l as [|x l IH]; [discriminate|]. cbn [forallb].
  destruct (p x) eqn:Hp; cbn [andb].
  - intros H. destruct (IH H) as (y & Hin & Hy). exists y. split; [now right | exact Hy].
  - intros _. exists x. split; [now left | exact Hp].
Qed.

Lemma kind_of_false d l :
  kind_of d l = false -> exists t, In t l /\ aware d <> aware t.
Proof.
  intros H. apply forallb_false in H. destruct H as (t & Hin & He).
  exists t. split; [exact Hin|]. intros Heq. rewrite Heq, eqb_reflx in He. discriminate He.
Qed.

Lemma not_comparable_mixed logs_before logs_after agent :
  comparable fromisoformat
    (List.filter (fun log => String.eqb (agent_of log) agent) logs_before)
    (List.filter (fun log => String.eqb (agent_of log) agent) logs_after) = false ->
  mixed_timestamps fromisoformat agent logs_before logs_after.
Proof.
  unfold comparable, mixed_timestamps, failure_times, success_times.
  pose proof (machine_before_last
                (List.filter (fun log => String.eqb (agent_of log) agent) logs_before)) as Hlast.
  rewrite filter_entries_of in *.
  rewrite (filter_entries_of (fun m => negb (is_basic_failure m))).
  set (ft := parsed_times fromisoformat (entries_of is_basic_failure agent logs_before)) in *.
  set (st := parsed_times fromisoformat
               (entries_of (fun m => negb (is_basic_failure m)) agent logs_after)).
  intros H. apply andb_false_iff in H. destruct H as [H|H].
  - destruct ft as [|d ft']; [discriminate H|]. cbn [same_kind] in H.
    apply kind_of_false in H. destruct H as (t & Hin & Hne).
    exists d, t. split; [now left|]. split; [now right; apply in_or_app; left | exact Hne].
  - destruct (last_failure_time _) as [lf|]; [|discriminate H].
    destruct Hlast as [Hlf _]. apply kind_of_false in H. destruct H as (t & Hin & Hne).
    exists lf, t. split; [exact Hlf|]. split; [apply in_or_app; now right | exact Hne].
Qed.

Lemma filter_map_instant (z : Z) l :
  map instant (List.filter (fun t => (z <? instant t)%Z) l)
  = List.filter (fun t => (z <? t)%Z) (map instant l).
Proof.
  induction l as [|t l IH]; [reflexivity|]. cbn [List.filter map].
  destruct (z <? instant t)%Z; cbn [map]; now rewrite IH.
Qed.

(** The recovery time of an agent in the report, with a failure read as
    an entry that passes the report's own test (fail, error, exception,
    crash). The report is returned exactly when no agent has a naive
    timestamp meeting an aware one, and [TypeError] is raised otherwise. In
    a report, [last] is the greatest parsed timestamp of the agent's failures
    before the patch, [first] the least parsed timestamp after [last] of its
    other entries after the patch, and the recovery time is their
    difference, which is positive, when both exist and is absent
    otherwise. *)
Theorem advanced_report_recovery logs_before logs_after :
  match advanced_evaluation_report fromisoformat str_timedelta logs_before logs_after with
  | Raise e =>
      e = TypeError /\
      exists agent, mixed_timestamps fromisoformat agent logs_before logs_after
  | Ok report =>
      (forall agent, ~ mixed_timestamps fromisoformat agent logs_before logs_after) /\
      forall agent rep, report !! agent = Some rep ->
        exists last first,
          is_max (instant <$> last)
                 (map instant
                    (failure_times fromisoformat is_basic_failure agent logs_before)) /\
          is_min (instant <$> first)
                 (later_than (instant <$> last)
                    (map instant
                       (success_times fromisoformat is_basic_failure agent logs_after))) /\
          time_to_recovery rep
          = match last, first with
            | Some lf, Some fs => Some (str_timedelta (instant fs - instant lf)%Z)
            | _, _ => None
            end /\
          (forall lf fs, last = Some lf -> first = Some fs ->
                         (0 < instant fs - instant lf)%Z)
  end.
Proof.
  pose proof (report_cases logs_before logs_after) as H.
  destruct (advanced_evaluation_report _ _ _ _) as [report|e].
  2:{ destruct H as (-> & agent & Hc). split; [reflexivity|]. exists agent.
      now apply not_comparable_mixed. }
  destruct H as [Hl Hc]. split; [intros agent; apply comparable_spec, Hc|].
  intros agent rep Hrep. apply Hl in Hrep. destruct Hrep as [_ ->].
  pose proof (machine_before_last
                (List.filter (fun log => String.eqb (agent_of log) agent) logs_before))
    as Hmax.
  pose proof (machine_after_first
                (last_failure_time
                   (fold_left (before_machine_step fromisoformat)
                      (List.filter (fun log => String.eqb (agent_of log) agent) logs_before)
                      (mkBeforeState ∅ ∅ None)))
                (List.filter (fun log => String.eqb (agent_of log) agent) logs_after))
    as Hmin.
  cbv zeta in Hmin.
  rewrite !filter_entries_of in Hmax.
  rewrite !(filter_entries_of (fun m => negb (is_basic_failure m))) in Hmin.
  fold (failure_times fromisoformat is_basic_failure agent logs_before) in Hmax.
  fold (success_times fromisoformat is_basic_failure agent logs_after) in Hmin.
  unfold agent_report_machine. cbn [time_to_recovery].
  set (last := last_failure_time _) in *.
  set (first := first_success_time _) in *.
  clearbody first. clearbody last.
  exists last, first. split; [|split; [|split; [now destruct last, first|]]].
  - destruct last as [lf|]; cbn [fmap option_fmap option_map is_max].
    + destruct Hmax as [Hin Hle]. split; [now apply in_map|].
      intros z Hz. apply in_map_iff in Hz. destruct Hz as (t & <- & Ht). now apply Hle.
    + now rewrite Hmax.
  - destruct first as [fs|]; cbn [fmap option_fmap option_map is_min].
    + destruct last as [lf|]; cbn [fmap option_fmap option_map later_than] in *;
        [|destruct Hmin as [[] _]].
      rewrite <- filter_map_instant. destruct Hmin as [Hin Hle]. split; [now apply in_map|].
      intros z Hz. apply in_map_iff in Hz. destruct Hz as (t & <- & Ht). now apply Hle.
    + destruct last as [lf|]; cbn [fmap option_fmap option_map later_than]; [|reflexivity].
      rewrite <- filter_map_instant. now rewrite Hmin.
  - intros lf fs -> ->. destruct Hmin as [Hin _].
    apply filter_In in Hin. destruct Hin as [_ Hlt]. apply Z.ltb_lt in Hlt. lia.
Qed.

(** The steps of the two loops at an entry with all its keys. *)
Lemma before_machine_failure st a ts m t :
  is_basic_failure m = true -> fromisoformat ts = Some t ->
  before_machine_step fromisoformat st (entry a ts m)
  = mkBeforeState (increment (classify_failure_type m) (before_types st))
                  ({[m]} ∪ before_msgs st)
                  (if match last_failure_time st with
                      | None => true
                      | Some last => (instant last <? instant t)%Z
                      end
                   then Some t else last_failure_time st).
Proof.
  intros Hm Ht. unfold before_machine_step.
  change (message_of (entry a ts m)) with m. rewrite Hm.
  change (get (timestamp (entry a ts m)) "") with ts. rewrite Ht.
  now destruct (match last_failure_time st with Some _ => _ | None => _ end).
Qed.

Lemma after_machine_success lf st a ts m t :
  is_basic_failure m = false -> fromisoformat ts = Some t ->
  after_machine_step fromisoformat (Some lf) st (entry a ts m)
  = if match first_success_time st with
       | None => true
       | Some first => (instant t <? instant first)%Z
       end && (instant lf <? instant t)%Z
    then mkAfterState (after_types st) (after_msgs st) (Some t)
    else st.
Proof.
  intros Hm Ht. unfold after_machine_step.
  change (message_of (entry a ts m)) with m. rewrite Hm.
  change (get (timestamp (entry a ts m)) "") with ts. now rewrite Ht.
Qed.
End ReportProofs.

(** The recovery example of the specification, with the time in seconds: a
    failure at 00:00:00 before the patch and a success at 00:05:00 after it
    give a recovery time of five minutes; when the success carries a UTC
    offset and the failure none, there is no report. *)
Lemma advanced_report_recovery_witness :
  let parse := fun ts =>
    if String.eqb ts "2024-01-01T00:00:00" then Some (Naive 0)
    else if String.eqb ts "2024-01-01T00:05:00" then Some (Naive 300)
    else if String.eqb ts "2024-01-01T00:04:00+00:00" then Some (Aware 240)
    else None in
  (exists report rep,
     advanced_evaluation_report parse (fun d => pretty d)
       [entry "a" "2024-01-01T00:00:00" "job failed"; entry "a" "soon" "Error again"]
       [entry "a" "2024-01-01T00:05:00" "job done"] = Ok report /\
     report !! "a" = Some rep /\
     time_to_recovery rep = Some "300") /\
  advanced_evaluation_report parse (fun d => pretty d)
    [entry "a" "2024-01-01T00:00:00" "job failed"; entry "a" "soon" "Error again"]
    [entry "a" "2024-01-01T00:04:00+00:00" "job done"] = Raise TypeError.
Proof.
  cbv zeta.
  set (parse := fun ts : string =>
    if String.eqb ts "2024-01-01T00:00:00" then Some (Naive 0)
    else if String.eqb ts "2024-01-01T00:05:00" then Some (Naive 300)
    else if String.eqb ts "2024-01-01T00:04:00+00:00" then Some (Aware 240)
    else None).
  set (before := [entry "a" "2024-01-01T00:00:00" "job failed"; entry "a" "soon" "Error again"]).
  split.
  - set (after := [entry "a" "2024-01-01T00:05:00" "job done"]).
    pose proof (advanced_report_recovery parse (fun d => pretty d) before after) as H.
    destruct (advanced_evaluation_report parse (fun d => pretty d) before after)
      as [report|e] eqn:Hrep; [|exfalso; vm_compute in Hrep; discriminate Hrep].
    destruct (report !! "a") as [rep|] eqn:Ha.
    + exists report, rep. split; [reflexivity|]. split; [exact Ha|].
      destruct H as [_ H]. destruct (H "a" rep Ha) as (last & first & Hmax & Hmin & -> & _).
      assert (Hf : failure_times parse is_basic_failure "a" before = [Naive 0])
        by reflexivity.
      assert (Hs : success_times parse is_basic_failure "a" after = [Naive 300])
        by reflexivity.
      rewrite Hf in Hmax. rewrite Hs in Hmin.
      destruct last as [lf|]; [|discriminate Hmax].
      destruct Hmax as [[Hlf|[]] _]. cbn in Hlf, Hmin. rewrite <- Hlf in Hmin |- *.
      cbn in Hmin. destruct first as [fs|]; [|discriminate Hmin].
      destruct Hmin as [[Hfs|[]] _]. cbn in Hfs. rewrite <- Hfs. reflexivity.
    + exfalso. injection Hrep as <-. vm_compute in Ha. discriminate Ha.
  - set (after := [entry "a" "2024-01-01T00:04:00+00:00" "job done"]).
    pose proof (advanced_report_recovery parse (fun d => pretty d) before after) as H.
    destruct (advanced_evaluation_report parse (fun d => pretty d) before after)
      as [report|e] eqn:Hrep; [exfalso; vm_compute in Hrep; discriminate Hrep|].
    destruct H as [-> _]. reflexivity.
Defined.

(** C4, at a batch where an agent has a timeout and an error before the
    patch and an error after it: the detector accepts two entries before and
    one after, for which the verdict is that the failures were reduced from 2
    to 1; the code counts with the four basic words, finds one before and one
    after, and reports no change. *)
Theorem C4_counts_use_the_basic_words :
  let logs_before := [entry "a" "t1" "timeout"; entry "a" "t2" "error"] in
  let logs_after := [entry "a" "t3" "error"] in
  length (entries_of is_failure "a" logs_before) = 2 /\
  length (entries_of is_failure "a" logs_after) = 1 /\
  evaluation_of 2 1 = "Failures reduced (before: 2, after: 1)." /\
  evaluate_patch_effectiveness logs_before logs_after !! "a"
  = Some "No change in failures (before: 1, after: 1).".
Proof. cbv zeta. repeat split; vm_compute; reflexivity. Qed.

(** C5, at an agent with an error before the patch and, after it, a
    timeout and then an ordinary entry: the detector accepts the timeout, so
    the first entry after the patch that the detector rejects is the ordinary
    one, at [t2]; the code takes the timeout for a success, since its test
    has the four basic words only, and reports the recovery time
    [t1 - t0]. The three timestamps have no UTC offset, so they parse as
    naive. *)
Theorem C5_timeout_counts_as_recovery
    (fromisoformat : string -> option datetime) (str_timedelta : Z -> string)
    (t0 t1 t2 : Z) :
  fromisoformat "2024-01-01T00:00:00" = Some (Naive t0) ->
  fromisoformat "2024-01-01T00:01:00" = Some (Naive t1) ->
  fromisoformat "2024-01-01T00:05:00" = Some (Naive t2) ->
  (t0 < t1)%Z -> (t1 < t2)%Z ->
  let logs_before := [entry "a" "2024-01-01T00:00:00" "error"] in
  let logs_after := [entry "a" "2024-01-01T00:01:00" "request timeout";
                     entry "a" "2024-01-01T00:05:00" "done"] in
  is_failure "request timeout" = true /\
  is_max (Some t0) (map instant (failure_times fromisoformat is_failure "a" logs_before)) /\
  is_min (Some t2)
         (later_than (Some t0)
            (map instant (success_times fromisoformat is_failure "a" logs_after))) /\
  exists report,
    advanced_evaluation_report fromisoformat str_timedelta logs_before logs_after
    = Ok report /\
    time_to_recovery <$> report !! "a" = Some (Some (str_timedelta (t1 - t0)%Z)).
Proof.
  intros H0 H1 H2 H01 H12. cbv zeta.
  assert (Hlt01 : (t0 <? t1)%Z = true) by now apply Z.ltb_lt.
  assert (Hlt02 : (t0 <? t2)%Z = true) by (apply Z.ltb_lt; lia).
  assert (Hlt21 : (t2 <? t1)%Z = false) by (apply Z.ltb_ge; lia).
  split; [reflexivity|]. split; [|split].
  - cbv -[Z.le instant]. rewrite H0. cbn. split; [now left | intros t' [<-|[]]; lia].
  - cbv -[Z.le Z.ltb instant]. rewrite H2. cbn. rewrite Hlt02.
    split; [now left | intros t' [<-|[]]; lia].
  - set (logs_before := [entry "a" "2024-01-01T00:00:00" "error"]).
    set (logs_after := [entry "a" "2024-01-01T00:01:00" "request timeout";
                        entry "a" "2024-01-01T00:05:00" "done"]).
    assert (Hmach : agent_report_machine fromisoformat str_timedelta logs_before logs_after
                    = mkAgentReport {["error" := 1]} ∅ 1 0
                        (Some (str_timedelta (t1 - t0)%Z))
                    /\ comparable fromisoformat logs_before logs_after = true).
    { unfold agent_report_machine, comparable, logs_before, logs_after.
      cbn [fold_left List.filter].
      rewrite (before_machine_failure fromisoformat _ "a" _ "error" (Naive t0))
        by (reflexivity || exact H0).
      cbn [last_failure_time before_types before_msgs].
      rewrite (after_machine_success fromisoformat (Naive t0) _ "a" _ "request timeout"
                 (Naive t1)) by (reflexivity || exact H1).
      cbn [first_success_time instant andb]. rewrite Hlt01.
      rewrite (after_machine_success fromisoformat (Naive t0) _ "a" _ "done" (Naive t2))
        by (reflexivity || exact H2).
      cbn [first_success_time instant andb]. rewrite Hlt21.
      cbn [andb first_success_time after_types after_msgs instant].
      split.
      - f_equal; try reflexivity; try (now rewrite union_empty_r_L, size_singleton).
      - change (is_basic_failure (message_of (entry "a" "2024-01-01T00:00:00" "error")))
          with true.
        change (is_basic_failure
                  (message_of (entry "a" "2024-01-01T00:01:00" "request timeout")))
          with false.
        change (is_basic_failure (message_of (entry "a" "2024-01-01T00:05:00" "done")))
          with false.
        cbn [negb]. rewrite !parsed_times_cons. cbn [get timestamp entry].
        rewrite H0, H1, H2. reflexivity. }
    destruct Hmach as [Hmach Hcomp].
    assert (Hfb : forall agent,
              List.filter (fun log => String.eqb (agent_of log) agent) logs_before
              = if String.eqb "a" agent then logs_before else []).
    { intros agent. unfold logs_before. cbn [List.filter].
      change (agent_of (entry "a" _ _)) with "a". now destruct (String.eqb "a" agent). }
    assert (Hfa : forall agent,
              List.filter (fun log => String.eqb (agent_of log) agent) logs_after
              = if String.eqb "a" agent then logs_after else []).
    { intros agent. unfold logs_after. cbn [List.filter].
      change (agent_of (entry "a" _ _)) with "a". now destruct (String.eqb "a" agent). }
    pose proof (report_cases fromisoformat str_timedelta logs_before logs_after) as H.
    destruct (advanced_evaluation_report _ _ _ _) as [report|e].
    + exists report. split; [reflexivity|]. destruct H as [Hl _].
      assert (Ha : report !! "a"
                   = Some (mkAgentReport {["error" := 1]} ∅ 1 0
                             (Some (str_timedelta (t1 - t0)%Z)))).
      { apply Hl. split.
        - exists (entry "a" "2024-01-01T00:00:00" "error"). split; [now left | reflexivity].
        - rewrite (Hfb "a"), (Hfa "a"), String.eqb_refl. now rewrite Hmach. }
      now rewrite Ha.
    + exfalso. destruct H as (_ & agent & Hc). rewrite Hfb, Hfa in Hc.
      destruct (String.eqb "a" agent); [congruence | discriminate Hc].
Qed.

Lemma C5_timeout_counts_as_recovery_witness :
  let parse := fun ts =>
    if String.eqb ts "2024-01-01T00:00:00" then Some (Naive 0)
    else if String.eqb ts "2024-01-01T00:01:00" then Some (Naive 60)
    else if String.eqb ts "2024-01-01T00:05:00" then Some (Naive 300)
    else None in
  exists report,
    advanced_evaluation_report parse (fun d => pretty d)
      [entry "a" "2024-01-01T00:00:00" "error"]
      [entry "a" "2024-01-01T00:01:00" "request timeout";
       entry "a" "2024-01-01T00:05:00" "done"] = Ok report /\
    time_to_recovery <$> report !! "a" = Some (Some "60").
Proof.
  cbv zeta.
  exact (proj2 (proj2 (proj2
           (C5_timeout_counts_as_recovery
              (fun ts =>
                 if String.eqb ts "2024-01-01T00:00:00" then Some (Naive 0)
                 else if String.eqb ts "2024-01-01T00:01:00" then Some (Naive 60)
                 else if String.eqb ts "2024-01-01T00:05:00" then Some (Naive 300)
                 else None)
              (fun d => pretty d) 0%Z 60%Z 300%Z
              eq_refl eq_refl eq_refl eq_refl eq_refl)))).
Defined.

(** On an empty batch every aggregate operation returns an empty result. *)
Lemma empty_batch_results (fromisoformat : string -> option datetime)
    (str_timedelta : Z -> string) :
  _group_failures_by_agent [] = ∅ /\
  map_failure_propagation (__init__ []) = Ok [] /\
  show_failure_introducers (__init__ []) = Ok [] /\
  patch_propagation_analysis [] [] = ∅ /\
  evaluate_patch_effectiveness [] [] = ∅ /\
  advanced_evaluation_report fromisoformat str_timedelta [] [] = Ok ∅.
Proof.
  repeat split; reflexivity.
Qed.

(** ** How the patch operations compose *)

(** The failure texts that [extract_failures] files under an agent are the
    trimmed messages of the records that [_group_failures_by_agent] files
    under it, in the same order: the two methods detect the same entries
    although one tests the message and the other the trimmed message. The
    trimmed message is the message without the white space before and after
    it. *)
Theorem extraction_is_grouping_then_trimming (logs : list Log) (agent : string) :
  extract_failures logs !! agent
  = map (fun r => failure_text (record_log r)) <$> _group_failures_by_agent logs !! agent
  /\ forall log, Trimmed (message_of log) (failure_text log).
Proof.
  split; [|intros log; apply strip_Trimmed].
  rewrite extract_failures_lookup, group_lookup.
  destruct (entries_of is_failure agent logs) as [|log l]; [reflexivity|].
  cbn. now rewrite map_map.
Qed.

Lemma extraction_is_grouping_then_trimming_witness :
  extract_failures [entry "A" "t1" (tab +:+ "error" +:+ nbsp); entry "A" "t2" "done";
                    entry "A" "t3" ("Error " +:+ nel)] !! "A"
  = Some ["error"; "Error"].
Proof.
  rewrite (proj1 (extraction_is_grouping_then_trimming
                    [entry "A" "t1" (tab +:+ "error" +:+ nbsp); entry "A" "t2" "done";
                     entry "A" "t3" ("Error " +:+ nel)] "A")).
  vm_compute. reflexivity.
Defined.

Lemma extract_failures_dom logs agent :
  agent ∈ dom (extract_failures logs) <-> 0 < length (entries_of is_failure agent logs).
Proof.
  rewrite elem_of_dom, extract_failures_lookup.
  destruct (entries_of is_failure agent logs); cbn; split; intros H; try lia; try (now eexists).
  destruct H as [? H]. discriminate H.
Qed.

Lemma failure_texts_nonempty agent logs :
  failure_texts agent logs <> ∅ <-> 0 < length (entries_of is_failure agent logs).
Proof.
  unfold failure_texts. destruct (entries_of is_failure agent logs) as [|log l]; cbn.
  - split; [congruence | lia].
  - split; [lia|]. intros _. set_solver.
Qed.

(** The three sets of an agent in the patch diff: fully fixed and partially
    fixed together are the agent's failure texts before the patch, partially
    fixed and newly introduced together are those after it, the three sets
    are pairwise disjoint, and an agent of the result has a failure text on
    one side at least. A failure text of an agent is the message, without
    the white space before and after it, of one of its detected entries. *)
Theorem patch_diff_partition (logs_before logs_after : list Log) agent r :
  patch_propagation_analysis logs_before logs_after !! agent = Some r ->
  fully_fixed r ∪ partially_fixed r = failure_texts agent logs_before /\
  partially_fixed r ∪ newly_introduced r = failure_texts agent logs_after /\
  fully_fixed r ## partially_fixed r /\
  fully_fixed r ## newly_introduced r /\
  partially_fixed r ## newly_introduced r /\
  (failure_texts agent logs_before <> ∅ \/ failure_texts agent logs_after <> ∅) /\
  (forall logs text,
     text ∈ failure_texts agent logs <->
     exists log, In log logs /\ agent_of log = agent /\
                 is_failure (message_of log) = true /\
                 text = failure_text log /\ Trimmed (message_of log) text).
Proof.
  intros Hr. apply patch_propagation_analysis_lookup in Hr. destruct Hr as [Hdom ->].
  cbn [fully_fixed newly_introduced partially_fixed].
  split; [|split; [|split; [|split; [|split; [|split]]]]]; try set_solver.
  4: intros logs text; apply failure_texts_spec.
  - apply set_eq. intros x. rewrite elem_of_union, elem_of_difference, elem_of_intersection.
    destruct (decide (x ∈ failure_texts agent logs_after)); tauto.
  - apply set_eq. intros x. rewrite elem_of_union, elem_of_difference, elem_of_intersection.
    destruct (decide (x ∈ failure_texts agent logs_before)); tauto.
  - rewrite !failure_texts_nonempty.
    apply elem_of_union in Hdom. rewrite !extract_failures_dom in Hdom. exact Hdom.
Qed.

Lemma patch_diff_partition_witness :
  exists r,
    patch_propagation_analysis
      [entry "eng" "t1" "timeout error"; entry "eng" "t2" "test failed"]
      [entry "eng" "t3" (" test failed" +:+ nbsp); entry "eng" "t4" ("crash" +:+ tab)]
      !! "eng" = Some r /\
    fully_fixed r ∪ partially_fixed r = {["timeout error"; "test failed"]} /\
    partially_fixed r ∪ newly_introduced r = {["test failed"; "crash"]} /\
    fully_fixed r ## newly_introduced r.
Proof.
  set (b := [entry "eng" "t1" "timeout error"; entry "eng" "t2" "test failed"]).
  set (a := [entry "eng" "t3" (" test failed" +:+ nbsp); entry "eng" "t4" ("crash" +:+ tab)]).
  destruct (patch_propagation_analysis b a !! "eng") as [r|] eqn:Hr.
  - exists r. split; [reflexivity|].
    destruct (patch_diff_partition b a "eng" r Hr) as (H1 & H2 & _ & H4 & _).
    split; [|split; [|exact H4]].
    + rewrite H1. unfold failure_texts. cbn. set_solver.
    + rewrite H2. unfold failure_texts. cbn. set_solver.
  - exfalso.
    assert (Hl : is_Some (patch_propagation_analysis b a !! "eng")).
    { eexists. apply patch_propagation_analysis_lookup. split; [|reflexivity].
      apply elem_of_union_l, extract_failures_dom. vm_compute. lia. }
    rewrite Hr in Hl. destruct Hl as [? Hl]. discriminate Hl.
Defined.

Lemma patch_diff_is_Some (logs_before logs_after : list Log) (agent : string) :
  is_Some (patch_propagation_analysis logs_before logs_after !! agent)
  <-> exists log, In log (logs_before ++ logs_after) /\ agent_of log = agent /\
                  is_failure (message_of log) = true.
Proof.
  split.
  - intros [r Hr]. apply patch_propagation_analysis_lookup in Hr. destruct Hr as [Hdom _].
    apply elem_of_union in Hdom. rewrite !extract_failures_dom, !entries_of_nonempty in Hdom.
    destruct Hdom as [(log & Hin & H)|(log & Hin & H)]; exists log;
      (split; [apply in_or_app; tauto | exact H]).
  - intros (log & Hin & H). eexists. apply patch_propagation_analysis_lookup.
    split; [|reflexivity]. apply elem_of_union.
    rewrite !extract_failures_dom, !entries_of_nonempty. apply in_app_or in Hin.
    destruct Hin; [left | right]; now exists log.
Qed.

(** An agent is in the patch diff exactly when one of its entries, before
    or after, is a detected failure; and the diff of the exchanged batches
    is the diff with fully fixed and newly introduced exchanged. *)
Theorem patch_diff_agents_and_exchange (logs_before logs_after : list Log) (agent : string) :
  (is_Some (patch_propagation_analysis logs_before logs_after !! agent)
   <-> exists log, In log (logs_before ++ logs_after) /\ agent_of log = agent /\
                   is_failure (message_of log) = true) /\
  patch_propagation_analysis logs_after logs_before !! agent
  = exchanged <$> patch_propagation_analysis logs_before logs_after !! agent.
Proof.
  split; [apply patch_diff_is_Some|].
  destruct (patch_propagation_analysis logs_before logs_after !! agent) as [r|] eqn:Hr.
  - apply patch_propagation_analysis_lookup in Hr. destruct Hr as [Hdom ->].
    cbn. apply patch_propagation_analysis_lookup. split; [set_solver|].
    unfold exchanged. cbn. f_equal. set_solver.
  - cbn. destruct (patch_propagation_analysis logs_after logs_before !! agent) as [r'|] eqn:Hr';
      [|reflexivity].
    apply patch_propagation_analysis_lookup in Hr'. destruct Hr' as [Hdom _].
    assert (Hs : is_Some (patch_propagation_analysis logs_before logs_after !! agent)).
    { eexists. apply patch_propagation_analysis_lookup. split; [set_solver | reflexivity]. }
    rewrite Hr in Hs. destruct Hs as [? Hs]. discriminate Hs.
Qed.


Lemma VerdictFor_mirrored b a v : VerdictFor b a v -> VerdictFor a b (mirrored v).
Proof. intros H. destruct H; cbn; constructor; lia. Qed.

(** The evaluation of a batch against itself: every agent of the result
    has a positive count and the verdict that nothing changed. *)
Theorem evaluate_identical_batches (X : list Log) agent v :
  evaluate_patch_effectiveness X X !! agent = Some v ->
  let n := length (entries_of is_basic_failure agent X) in
  0 < n /\ v = with_counts (verdict_phrase NoChange) n n.
Proof.
  intros Hv n. apply evaluate_lookup in Hv. fold n in Hv. destruct Hv as [Hpos ->].
  split; [lia|].
  destruct (evaluation_of_verdict n n) as (k & Hk & ->).
  destruct Hk; try lia; reflexivity.
Qed.

Lemma evaluate_identical_batches_witness :
  0 < 2 /\
  "No change in failures (before: 2, after: 2)."
  = with_counts (verdict_phrase NoChange) 2 2.
Proof.
  exact (evaluate_identical_batches
           [entry "qa" "t1" "Test failure"; entry "pm" "t2" "fine"; entry "qa" "t3" "crash"]
           "qa" "No change in failures (before: 2, after: 2)." eq_refl).
Defined.

(** The evaluation of the exchanged batches has the same agents, with the
    two counts exchanged and the mirrored verdict: resolved against new,
    reduced against increased. *)
Theorem evaluate_exchanged_batches (logs_before logs_after : list Log) agent v :
  evaluate_patch_effectiveness logs_before logs_after !! agent = Some v ->
  let b := length (entries_of is_basic_failure agent logs_before) in
  let a := length (entries_of is_basic_failure agent logs_after) in
  exists verdict,
    VerdictFor b a verdict /\
    v = with_counts (verdict_phrase verdict) b a /\
    evaluate_patch_effectiveness logs_after logs_before !! agent
    = Some (with_counts (verdict_phrase (mirrored verdict)) a b).
Proof.
  intros Hv b a. apply evaluate_lookup in Hv. fold b a in Hv. destruct Hv as [Hpos ->].
  destruct (evaluation_of_verdict b a) as (k & Hk & Hkeq).
  assert (Hne : k <> NoFailures) by (intros ->; inversion Hk; lia).
  exists k. split; [exact Hk|]. split; [rewrite Hkeq; destruct k; congruence|].
  apply evaluate_lookup. fold b a. split; [tauto|].
  destruct (evaluation_of_verdict a b) as (k' & Hk' & ->).
  rewrite (VerdictFor_deterministic _ _ _ _ Hk' (VerdictFor_mirrored _ _ _ Hk)).
  destruct k; cbn; congruence.
Qed.

Lemma evaluate_exchanged_batches_witness :
  evaluate_patch_effectiveness
    [entry "eng" "t3" "all good"]
    [entry "eng" "t1" "timeout error"; entry "eng" "t2" "test failed"] !! "eng"
  = Some "New failures introduced (before: 0, after: 2).".
Proof.
  destruct (evaluate_exchanged_batches
              [entry "eng" "t1" "timeout error"; entry "eng" "t2" "test failed"]
              [entry "eng" "t3" "all good"] "eng"
              "All failures resolved (before: 2, after: 0)." eq_refl)
    as (k & Hk & _ & Hex).
  cbv zeta in Hk, Hex. rewrite Hex.
  assert (Hr : k = AllResolved).
  { apply (VerdictFor_deterministic 2 0); [exact Hk | constructor; lia]. }
  rewrite Hr. reflexivity.
Defined.

Section ReportAgents.
Variable fromisoformat : string -> option datetime.
Variable str_timedelta : Z -> string.

(** The agents of the three patch operations are nested: an agent of the
    effectiveness evaluation is an agent of the patch diff, and, when the
    advanced report is returned, an agent of the patch diff is an agent of
    the report, whose agents are those with an entry in one of the batches.
    The report raises nothing but [TypeError]. *)
Theorem patch_results_nest logs_before logs_after agent :
  (is_Some (evaluate_patch_effectiveness logs_before logs_after !! agent) ->
   is_Some (patch_propagation_analysis logs_before logs_after !! agent)) /\
  match advanced_evaluation_report fromisoformat str_timedelta logs_before logs_after with
  | Ok report =>
      (is_Some (patch_propagation_analysis logs_before logs_after !! agent) ->
       is_Some (report !! agent)) /\
      (is_Some (report !! agent)
       <-> exists log, In log (logs_before ++ logs_after) /\ agent_of log = agent)
  | Raise e => e = TypeError
  end.
Proof.
  split.
  - intros [v Hv]. apply evaluate_lookup in Hv. destruct Hv as [Hpos _].
    apply patch_diff_is_Some.
    rewrite !entries_of_nonempty in Hpos.
    destruct Hpos as [(log & Hin & Ha & Hf)|(log & Hin & Ha & Hf)]; exists log;
      (split; [apply in_or_app; tauto | split; [exact Ha | now apply basic_failure_is_failure]]).
  - pose proof (report_cases fromisoformat str_timedelta logs_before logs_after) as H.
    destruct (advanced_evaluation_report _ _ _ _) as [report|e]; [|apply H].
    destruct H as [Hl _].
    assert (Hiff : is_Some (report !! agent)
                   <-> exists log, In log (logs_before ++ logs_after) /\ agent_of log = agent).
    { split.
      - intros [rep Hrep]. now apply Hl in Hrep.
      - intros Hin. eexists. apply Hl. split; [exact Hin | reflexivity]. }
    split; [|exact Hiff].
    intros H. apply patch_diff_is_Some in H.
    destruct H as (log & Hin & Ha & _). apply Hiff. now exists log.
Qed.
End ReportAgents.

Lemma patch_results_nest_witness :
  is_Some (patch_propagation_analysis
             [entry "eng" "t1" "build error"] [entry "eng" "t2" "done"] !! "eng") /\
  exists report,
    advanced_evaluation_report (fun _ => None) (fun d => pretty d)
      [entry "eng" "t1" "build error"] [entry "eng" "t2" "done"] = Ok report /\
    is_Some (report !! "eng").
Proof.
  pose proof (patch_results_nest (fun _ => None) (fun d => pretty d)
                [entry "eng" "t1" "build error"] [entry "eng" "t2" "done"] "eng")
    as (H1 & H2).
  assert (He : is_Some (evaluate_patch_effectiveness
                          [entry "eng" "t1" "build error"] [entry "eng" "t2" "done"]
                        !! "eng")) by (eexists; vm_compute; reflexivity).
  split; [exact (H1 He)|].
  destruct (advanced_evaluation_report _ _ _ _) as [report|e] eqn:Hrep;
    [|exfalso; vm_compute in Hrep; discriminate Hrep].
  exists report. split; [reflexivity|]. exact (proj1 H2 (H1 He)).
Defined.


(** ** The failure types of the advanced report *)

Lemma classified_other_is_no_failure msg :
  classify_failure_type msg = "other" -> is_basic_failure msg = false.
Proof.
  unfold classify_failure_type, is_basic_failure, PyStr.any_in, basic_failure_words.
  cbn [existsb].
  repeat match goal with
         | |- context [if ?b then _ else _] => destruct b eqn:?
         end; try discriminate; intros _.
  repeat match goal with H : _ = false |- _ => rewrite H; clear H end. reflexivity.
Qed.

Section ReportTypes.
Variable fromisoformat : string -> option datetime.
Variable str_timedelta : Z -> string.

Lemma before_step_types st log :
  before_types (before_machine_step fromisoformat st log)
  = (if is_basic_failure (message_of log)
     then increment (classify_failure_type (message_of log)) (before_types st)
     else before_types st) /\
  before_msgs (before_machine_step fromisoformat st log)
  = (if is_basic_failure (message_of log)
     then {[message_of log]} ∪ before_msgs st else before_msgs st).
Proof.
  unfold before_machine_step.
  destruct (is_basic_failure (message_of log)); [|split; reflexivity].
  destruct (fromisoformat _); [|split; reflexivity].
  destruct (match last_failure_time st with Some _ => _ | None => _ end); split; reflexivity.
Qed.

Lemma after_step_types last st log :
  after_types (after_machine_step fromisoformat last st log)
  = (if is_basic_failure (message_of log)
     then increment (classify_failure_type (message_of log)) (after_types st)
     else after_types st) /\
  after_msgs (after_machine_step fromisoformat last st log)
  = (if is_basic_failure (message_of log)
     then {[message_of log]} ∪ after_msgs st else after_msgs st).
Proof.
  unfold after_machine_step.
  destruct (is_basic_failure (message_of log)); [split; reflexivity|].
  destruct (fromisoformat _), last; try (split; reflexivity).
  destruct (_ && _); split; reflexivity.
Qed.

(** A loop that counts the types and collects the messages of the failures. *)
Lemma types_fold_lookup {S : Type} (step : S -> Log -> S)
    (types : S -> gmap string nat) (msgs : S -> gset string) :
  (forall st log,
      types (step st log)
      = (if is_basic_failure (message_of log)
         then increment (classify_failure_type (message_of log)) (types st)
         else types st) /\
      msgs (step st log)
      = (if is_basic_failure (message_of log)
         then {[message_of log]} ∪ msgs st else msgs st)) ->
  forall logs st ty,
    types (fold_left step logs st) !! ty
    = match length (List.filter
                      (fun log => String.eqb (classify_failure_type (message_of log)) ty)
                      (List.filter (fun log => is_basic_failure (message_of log)) logs)) with
      | 0 => types st !! ty
      | n => Some (default 0 (types st !! ty) + n)
      end /\
    msgs (fold_left step logs st)
    = list_to_set (map message_of
                     (List.filter (fun log => is_basic_failure (message_of log)) logs))
      ∪ msgs st.
Proof.
  intros Hstep logs. induction logs as [|log logs IH]; intros st ty.
  - split; [reflexivity|]. cbn. set_solver.
  - cbn [fold_left List.filter]. destruct (IH (step st log) ty) as [IHt IHm].
    rewrite IHt, IHm. destruct (Hstep st log) as [-> ->].
    destruct (is_basic_failure (message_of log)); [|split; reflexivity].
    cbn [List.filter map list_to_set]. split; [|set_solver].
    unfold increment.
    destruct (String.eqb_spec (classify_failure_type (message_of log)) ty) as [->|Hne].
    + rewrite lookup_insert_eq. simpl.
      destruct (length _); f_equal; lia.
    + now rewrite lookup_insert_ne by assumption.
Qed.

Lemma size_list_to_set_le (l : list string) :
  size (list_to_set l : gset string) <= length l.
Proof.
  induction l as [|x l IH]; [reflexivity|].
  cbn [list_to_set length]. rewrite size_union_alt, size_singleton.
  assert (size ((list_to_set l : gset string) ∖ {[x]}) <= size (list_to_set l : gset string)).
  { apply subseteq_size. set_solver. }
  lia.
Qed.

(** The type counts of the advanced report, when it is returned: under a
    type the report has
    the number of the agent's failures that [classify_failure_type] files
    under it and no key when there is none, it never has the key ['other'],
    and the number of unique messages is the size of the set of the failure
    messages, which is at most the number of failures. *)
Theorem report_failure_types logs_before logs_after report agent rep :
  advanced_evaluation_report fromisoformat str_timedelta logs_before logs_after
  = Ok report ->
  report !! agent = Some rep ->
  (forall ty, failure_types_before rep !! ty
              = count_entry (length (typed_failures ty agent logs_before))) /\
  (forall ty, failure_types_after rep !! ty
              = count_entry (length (typed_failures ty agent logs_after))) /\
  failure_types_before rep !! "other" = None /\
  failure_types_after rep !! "other" = None /\
  unique_failure_messages_before rep
  = size (list_to_set (map message_of (entries_of is_basic_failure agent logs_before))
          : gset string) /\
  unique_failure_messages_after rep
  = size (list_to_set (map message_of (entries_of is_basic_failure agent logs_after))
          : gset string) /\
  unique_failure_messages_before rep
  <= length (entries_of is_basic_failure agent logs_before) /\
  unique_failure_messages_after rep
  <= length (entries_of is_basic_failure agent logs_after).
Proof.
  intros Hrep H.
  pose proof (report_cases fromisoformat str_timedelta logs_before logs_after) as Hc.
  rewrite Hrep in Hc. apply (proj1 Hc) in H. destruct H as [_ ->]. clear Hc Hrep.
  unfold agent_report_machine.
  cbn [failure_types_before failure_types_after unique_failure_messages_before
       unique_failure_messages_after].
  assert (Hb : forall ty,
    before_types (fold_left (before_machine_step fromisoformat)
                    (List.filter (fun log => String.eqb (agent_of log) agent) logs_before)
                    (mkBeforeState ∅ ∅ None))
      !! ty
    = count_entry (length (typed_failures ty agent logs_before))
    /\ before_msgs (fold_left (before_machine_step fromisoformat)
                      (List.filter (fun log => String.eqb (agent_of log) agent) logs_before)
                      (mkBeforeState ∅ ∅ None))
       = list_to_set (map message_of (entries_of is_basic_failure agent logs_before))).
  { intros ty.
    destruct (types_fold_lookup (before_machine_step fromisoformat) before_types before_msgs
                before_step_types
                (List.filter (fun log => String.eqb (agent_of log) agent) logs_before)
                (mkBeforeState ∅ ∅ None) ty) as [Ht Hm].
    rewrite filter_entries_of in Ht, Hm.
    split.
    - rewrite Ht. cbn [before_types]. rewrite lookup_empty. unfold typed_failures.
      now destruct (length _).
    - rewrite Hm. cbn [before_msgs]. set_solver. }
  assert (Ha : forall last ty,
    after_types (fold_left (after_machine_step fromisoformat last)
                   (List.filter (fun log => String.eqb (agent_of log) agent) logs_after)
                   (mkAfterState ∅ ∅ None))
      !! ty
    = count_entry (length (typed_failures ty agent logs_after))
    /\ after_msgs (fold_left (after_machine_step fromisoformat last)
                     (List.filter (fun log => String.eqb (agent_of log) agent) logs_after)
                     (mkAfterState ∅ ∅ None))
       = list_to_set (map message_of (entries_of is_basic_failure agent logs_after))).
  { intros last ty.
    destruct (types_fold_lookup (after_machine_step fromisoformat last) after_types after_msgs
                (after_step_types last)
                (List.filter (fun log => String.eqb (agent_of log) agent) logs_after)
                (mkAfterState ∅ ∅ None) ty) as [Ht Hm].
    rewrite filter_entries_of in Ht, Hm.
    split.
    - rewrite Ht. cbn [after_types]. rewrite lookup_empty. unfold typed_failures.
      now destruct (length _).
    - rewrite Hm. cbn [after_msgs]. set_solver. }
  assert (Hother : forall logs, typed_failures "other" agent logs = []).
  { intros logs. unfold typed_failures, entries_of.
    induction logs as [|log logs IH]; [reflexivity|]. cbn [List.filter].
    destruct (is_basic_failure (message_of log)) eqn:Hf; cbn [andb]; [|exact IH].
    destruct (String.eqb (agent_of log) agent); [|exact IH]. cbn [List.filter].
    destruct (String.eqb_spec (classify_failure_type (message_of log)) "other") as [He|_];
      [|exact IH].
    apply classified_other_is_no_failure in He. congruence. }
  split; [intros ty; apply Hb|]. split; [intros ty; apply Ha|].
  split; [rewrite (proj1 (Hb "other")), Hother; reflexivity|].
  split; [rewrite (proj1 (Ha _ "other")), Hother; reflexivity|].
  rewrite (proj2 (Hb "")), (proj2 (Ha _ "")).
  split; [reflexivity|]. split; [reflexivity|].
  split; (etransitivity; [apply size_list_to_set_le | now rewrite length_map]).
Qed.
End ReportTypes.


Lemma report_failure_types_witness :
  exists report rep,
    advanced_evaluation_report (fun _ => None) (fun d => pretty d)
      [entry "a" "t1" "disk error"; entry "a" "t2" "disk error"; entry "a" "t3" "crash"]
      [entry "a" "t4" "done"] = Ok report /\
    report !! "a" = Some rep /\
    failure_types_before rep !! "disk" = Some 2 /\
    failure_types_before rep !! "error" = None /\
    unique_failure_messages_before rep = 2.
Proof.
  set (before := [entry "a" "t1" "disk error"; entry "a" "t2" "disk error";
                  entry "a" "t3" "crash"]).
  set (after := [entry "a" "t4" "done"]).
  destruct (advanced_evaluation_report (fun _ => None) (fun d => pretty d) before after)
    as [report|e] eqn:Hrep; [|exfalso; vm_compute in Hrep; discriminate Hrep].
  destruct (report !! "a") as [rep|] eqn:Ha.
  - exists report, rep. split; [reflexivity|]. split; [exact Ha|].
    destruct (report_failure_types (fun _ => None) (fun d => pretty d) before after
                report "a" rep Hrep Ha)
      as (Hb & _ & _ & _ & Hu & _).
    rewrite !Hb, Hu. repeat split; vm_compute; reflexivity.
  - exfalso. injection Hrep as <-. vm_compute in Ha. discriminate Ha.
Defined.


(** ** The grouping step, batch by batch *)

(** The records of an agent in the grouping are its detected entries in
    the order of the input, each with the category of its message; an agent
    without a detected entry has no key; and the records of a batch followed
    by another are those of the first followed by those of the second. *)
Theorem grouped_records_in_input_order (logs more : list Log) (agent : string) :
  match _group_failures_by_agent logs !! agent with
  | Some records =>
      records <> [] /\
      map record_log records = entries_of is_failure agent logs /\
      Forall (fun r => category r = _categorize_failure (message_of (record_log r))) records
  | None => entries_of is_failure agent logs = []
  end /\
  default [] (_group_failures_by_agent (logs ++ more) !! agent)
  = default [] (_group_failures_by_agent logs !! agent)
    ++ default [] (_group_failures_by_agent more !! agent).
Proof.
  split.
  - rewrite group_lookup.
    destruct (entries_of is_failure agent logs) as [|log l]; [reflexivity|].
    cbn [map]. split; [discriminate|]. split.
    + cbn. f_equal. rewrite map_map. apply map_id.
    + apply List.Forall_forall. intros r Hr.
      change (In r (map (fun log => mkFailureRecord log (_categorize_failure (message_of log)))
                        (log :: l))) in Hr.
      apply in_map_iff in Hr. destruct Hr as (x & <- & _). reflexivity.
  - rewrite !group_lookup. unfold entries_of. rewrite List.filter_app, map_app.
    destruct (map _ (List.filter _ logs)) as [|r rs]; cbn;
      destruct (map _ (List.filter _ more)); cbn; now rewrite ?app_nil_r.
Qed.

(** ** Sorting again, and sorting another order of the batch *)

Lemma sorted_of_sorted l : StronglySorted key_le l -> sorted l = l.
Proof.
  induction 1 as [|x l Hs IH Hx]; [reflexivity|].
  cbn [sorted foldr]. fold (sorted l). rewrite IH.
  destruct l as [|y l]; [reflexivity|]. cbn [insert_by_key].
  apply List.Forall_inv in Hx. unfold key_le in Hx. now rewrite Hx.
Qed.

Lemma sorted_unique a b :
  StronglySorted key_le a -> StronglySorted key_le b -> Permutation a b ->
  List.NoDup (map sort_key a) -> a = b.
Proof.
  intros Ha. revert b. induction Ha as [|x a Hs IH Hx]; intros b Hb Hp Hn.
  - apply Permutation_nil in Hp. now subst.
  - destruct Hb as [|y b Hsb Hy].
    { apply Permutation_sym, Permutation_nil in Hp. discriminate Hp. }
    assert (Hxy : x = y).
    { assert (Hinx : In x (y :: b)) by (eapply Permutation_in; [exact Hp | now left]).
      assert (Hiny : In y (x :: a)).
      { eapply Permutation_in; [symmetry; exact Hp | now left]. }
      destruct Hinx as [->|Hinx]; [reflexivity|].
      destruct Hiny as [->|Hiny]; [reflexivity|]. exfalso.
      rewrite List.Forall_forall in Hx, Hy.
      assert (Hk : sort_key x = sort_key y).
      { apply String.leb_antisym; [apply (Hx y Hiny) | apply (Hy x Hinx)]. }
      cbn [map] in Hn. apply List.NoDup_cons_iff in Hn. destruct Hn as [Hn _].
      apply Hn. rewrite Hk. now apply in_map. }
    subst y. f_equal. apply IH; [exact Hsb | now apply Permutation_cons_inv in Hp |].
    cbn [map] in Hn. now apply List.NoDup_cons_iff in Hn.
Qed.

(** Sorting the logs of a monitor again changes nothing: a monitor made
    from the logs of a monitor has the same logs. *)
Theorem sorting_is_idempotent (logs : list Log) :
  __init__ (__init__ logs) = __init__ logs.
Proof. apply sorted_of_sorted, sorted_sorted. Qed.

(** When no two entries have the same sort key (the timestamp, or the
    empty string), the monitor does not depend on the order in which the
    batch lists its entries: the sorted logs, the propagation map and the
    introducer map are the same for every rearrangement. *)
Theorem order_of_the_batch_is_irrelevant (logs1 logs2 : list Log) :
  Permutation logs1 logs2 ->
  List.NoDup (map sort_key logs1) ->
  __init__ logs1 = __init__ logs2 /\
  map_failure_propagation (__init__ logs1) = map_failure_propagation (__init__ logs2) /\
  show_failure_introducers (__init__ logs1) = show_failure_introducers (__init__ logs2).
Proof.
  intros Hp Hn.
  assert (He : __init__ logs1 = __init__ logs2).
  { apply sorted_unique; try apply sorted_sorted.
    - rewrite !sorted_perm. exact Hp.
    - eapply Permutation_NoDup; [|exact Hn].
      apply Permutation_map. symmetry. apply sorted_perm. }
  rewrite He. auto.
Qed.

Lemma order_of_the_batch_is_irrelevant_witness :
  __init__ [entry "B" "t3" "error Z"; entry "A" "t1" "error X"; entry "A" "t2" "ok"]
  = __init__ [entry "A" "t2" "ok"; entry "B" "t3" "error Z"; entry "A" "t1" "error X"].
Proof.
  refine (proj1 (order_of_the_batch_is_irrelevant
                   [entry "B" "t3" "error Z"; entry "A" "t1" "error X"; entry "A" "t2" "ok"]
                   [entry "A" "t2" "ok"; entry "B" "t3" "error Z"; entry "A" "t1" "error X"]
                   _ _)).
  - symmetry.
    exact (Permutation_cons_append [entry "B" "t3" "error Z"; entry "A" "t1" "error X"]
             (entry "A" "t2" "ok")).
  - cbn. repeat constructor; cbn; intuition discriminate.
Defined.


(** ** When the propagation mapper raises, and the shape of its result *)

Lemma propagation_step_skip st log :
  is_basic_failure (message_of log) = false ->
  propagation_step st log = Ok st /\ machine_step is_basic_failure st log = st.
Proof.
  intros Hf. destruct st as [es last]. unfold propagation_step, machine_step.
  name_tests log. now rewrite Hf.
Qed.

Lemma propagation_step_first es log :
  is_basic_failure (message_of log) = true ->
  propagation_step (es, None) log = Ok (machine_step is_basic_failure (es, None) log).
Proof.
  intros Hf. unfold propagation_step, machine_step. name_tests log. now rewrite Hf.
Qed.

Lemma propagation_step_next es p log :
  is_Some (message p) ->
  is_basic_failure (message_of log) = true ->
  if pair_indexable (p, log)
  then propagation_step (es, Some p) log
       = Ok (machine_step is_basic_failure (es, Some p) log)
  else exists key, (key = "agent_id" \/ key = "timestamp") /\
                   propagation_step (es, Some p) log = Raise (KeyError key).
Proof.
  intros [pm Hpm] Hf. destruct (basic_failure_has_message _ Hf) as [m Hm].
  unfold propagation_step, machine_step, pair_indexable. name_tests log. rewrite Hf.
  destruct p as [pa pt pmsg], log as [a t msg]. cbn in Hpm, Hm. subst pmsg msg.
  unfold truthy, dict_truthy, edge_between, the_agent, message_of. cbn.
  destruct a as [a|]; cbn.
  - destruct pa as [pa|]; cbn.
    + destruct pt; (destruct (String.eqb a pa); cbn; [reflexivity|]);
        (destruct t as [t|]; cbn; [reflexivity | exists "timestamp"; auto]).
    + destruct pt; exists "agent_id"; auto.
  - destruct pa, pt; exists "agent_id"; auto.
Qed.

Lemma for_each_propagation_exact l es last :
  (forall p, last = Some p -> is_Some (message p)) ->
  if forallb pair_indexable
       (adjacent (match last with Some p => [p] | None => [] end
                  ++ List.filter (fun log => is_basic_failure (message_of log)) l))
  then for_each propagation_step l (es, last)
       = Ok (fold_left (machine_step is_basic_failure) l (es, last))
  else exists key, (key = "agent_id" \/ key = "timestamp") /\
                   for_each propagation_step l (es, last) = Raise (KeyError key).
Proof.
  revert es last. induction l as [|x l IH]; intros es last Hlast.
  - destruct last; reflexivity.
  - cbn [List.filter for_each fold_left].
    destruct (is_basic_failure (message_of x)) eqn:Hf.
    + destruct last as [p|].
      * cbn [app adjacent tl combine forallb].
        pose proof (propagation_step_next es p x (Hlast p eq_refl) Hf) as Hstep.
        destruct (pair_indexable (p, x)); cbn [andb].
        -- rewrite Hstep. cbn [mbind result_bind].
           destruct (machine_step is_basic_failure (es, Some p) x) as [es' last'] eqn:Hm.
           assert (Hl' : last' = Some x).
           { unfold machine_step in Hm. rewrite Hf in Hm. now injection Hm. }
           subst last'. apply (IH es' (Some x)).
           intros q [= <-]. now apply basic_failure_has_message.
        -- destruct Hstep as (key & Hkey & ->). exists key. split; [exact Hkey | reflexivity].
      * rewrite (propagation_step_first es x Hf). cbn [mbind result_bind app].
        destruct (machine_step is_basic_failure (es, None) x) as [es' last'] eqn:Hm.
        assert (Hl' : last' = Some x).
        { unfold machine_step in Hm. rewrite Hf in Hm. now injection Hm. }
        subst last'. apply (IH es' (Some x)).
        intros q [= <-]. now apply basic_failure_has_message.
    + destruct (propagation_step_skip (es, last) x Hf) as [-> ->].
      cbn [mbind result_bind]. now apply IH.
Qed.

Lemma map_failure_propagation_cases (self_logs : list Log) :
  if forallb pair_indexable
       (adjacent (List.filter (fun log => is_basic_failure (message_of log)) self_logs))
  then map_failure_propagation self_logs
       = Ok (propagation_edges is_basic_failure self_logs)
  else exists key, (key = "agent_id" \/ key = "timestamp") /\
                   map_failure_propagation self_logs = Raise (KeyError key).
Proof.
  pose proof (for_each_propagation_exact self_logs [] None) as H. cbn [app] in H.
  unfold map_failure_propagation.
  destruct (forallb pair_indexable _).
  - rewrite H by discriminate. cbn [mbind result_bind]. now rewrite machine_edges.
  - destruct H as (key & Hkey & ->); [discriminate|]. exists key. split; [exact Hkey | reflexivity].
Qed.

(** When [map_failure_propagation] raises: it returns the edges between
    neighbouring failures exactly when every two neighbouring failures carry
    [agent_id] and the later one of two with different agents carries
    [timestamp]; otherwise it raises [KeyError] for one of the two keys.
    Entries that are no failures need no key. *)
Theorem map_failure_propagation_raises_exactly (self_logs : list Log) :
  let pairs :=
    adjacent (List.filter (fun log => is_basic_failure (message_of log)) self_logs) in
  (forallb pair_indexable pairs = true ->
   map_failure_propagation self_logs = Ok (propagation_edges is_basic_failure self_logs)) /\
  (forallb pair_indexable pairs = false ->
   exists key, (key = "agent_id" \/ key = "timestamp") /\
               map_failure_propagation self_logs = Raise (KeyError key)).
Proof.
  intros pairs. pose proof (map_failure_propagation_cases self_logs) as H. fold pairs in H.
  destruct (forallb pair_indexable pairs); split; intros He; try discriminate He; exact H.
Qed.

Lemma map_failure_propagation_raises_exactly_witness :
  map_failure_propagation [entry "A" "t1" "error"; mkLog None None (Some "done");
                           entry "B" "t2" "crash"]
  = Ok [mkEdge "A" "B" "t2" "crash"] /\
  exists key, (key = "agent_id" \/ key = "timestamp") /\
    map_failure_propagation [entry "A" "t1" "error"; mkLog (Some "B") None (Some "crash")]
    = Raise (KeyError key).
Proof.
  split.
  - apply (map_failure_propagation_raises_exactly
             [entry "A" "t1" "error"; mkLog None None (Some "done"); entry "B" "t2" "crash"]).
    reflexivity.
  - apply (map_failure_propagation_raises_exactly
             [entry "A" "t1" "error"; mkLog (Some "B") None (Some "crash")]).
    reflexivity.
Defined.

Lemma map_failure_propagation_Ok self_logs edges :
  map_failure_propagation self_logs = Ok edges ->
  edges = propagation_edges is_basic_failure self_logs.
Proof.
  intros H. pose proof (map_failure_propagation_cases self_logs) as He.
  destruct (forallb pair_indexable _).
  - rewrite He in H. now injection H.
  - destruct He as (key & _ & He). rewrite He in H. discriminate H.
Qed.

Lemma adjacent_edges_linked p f :
  linked (the_agent p)
    (map (fun q => edge_between (fst q) (snd q))
         (List.filter agents_differ (adjacent (p :: f)))).
Proof.
  revert p. induction f as [|x f IH]; intros p; [exact I|].
  cbn [adjacent tl combine List.filter]. fold (adjacent (x :: f)).
  unfold agents_differ at 1. cbn [fst snd].
  destruct (String.eqb_spec (the_agent x) (the_agent p)) as [He|Hne]; cbn [negb map].
  - rewrite <- He. apply IH.
  - cbn [linked]. split; [reflexivity|]. apply IH.
Qed.

Lemma adjacent_length {A : Type} (l : list A) : length (adjacent l) = pred (length l).
Proof.
  unfold adjacent. rewrite length_combine. destruct l; cbn [length tl pred]; lia.
Qed.

(** The shape of a propagation map: the edges form a chain that starts at
    the agent of the first failure, every edge starts at the agent where
    the edge before it ends, no edge joins an agent to itself, and there are
    fewer edges than failures. *)
Theorem propagation_result_shape (self_logs : list Log) edges :
  map_failure_propagation self_logs = Ok edges ->
  let failures := List.filter (fun log => is_basic_failure (message_of log)) self_logs in
  edges = propagation_edges is_basic_failure self_logs /\
  match failures with
  | [] => edges = []
  | first :: _ => linked (the_agent first) edges
  end /\
  length edges <= pred (length failures) /\
  Forall (fun e => target_agent e <> source_agent e) edges.
Proof.
  intros H failures. apply map_failure_propagation_Ok in H. subst edges.
  split; [reflexivity|]. split; [|split].
  - unfold propagation_edges. fold failures.
    destruct failures as [|p f]; [reflexivity | apply adjacent_edges_linked].
  - unfold propagation_edges. fold failures.
    rewrite length_map, <- adjacent_length. apply filter_length_le.
  - apply propagation_edges_differ.
Qed.

Lemma propagation_result_shape_witness :
  linked "A" [mkEdge "A" "B" "t2" "error Y"; mkEdge "B" "C" "t4" "crash"].
Proof.
  exact (proj1 (proj2
    (propagation_result_shape
       [entry "A" "t1" "error X"; entry "B" "t2" "error Y"; entry "B" "t3" "failed again";
        mkLog (Some "Z") None None; entry "C" "t4" "crash"]
       [mkEdge "A" "B" "t2" "error Y"; mkEdge "B" "C" "t4" "crash"] eq_refl))).
Defined.


Lemma adjacent_cons {A : Type} (p q : A) (r : list A) :
  adjacent (p :: q :: r) = (p, q) :: adjacent (q :: r).
Proof. reflexivity. Qed.

Lemma single_agent_pairs a f :
  Forall (fun log => agent_id log = Some a) f ->
  forallb pair_indexable (adjacent f) = true /\
  List.filter agents_differ (adjacent f) = [].
Proof.
  induction 1 as [|p f Hp Hf IH]; [split; reflexivity|].
  destruct Hf as [|q f Hq Hf]; [split; reflexivity|].
  rewrite adjacent_cons. cbn [forallb List.filter].
  destruct IH as [IH1 IH2]. rewrite IH1, IH2.
  unfold pair_indexable, agents_differ, the_agent. cbn [fst snd].
  rewrite Hp, Hq. cbn [get]. rewrite String.eqb_refl. split; reflexivity.
Qed.

(** When all failures come from one agent the propagation map is empty,
    and no timestamp is needed for that. *)
Theorem single_agent_never_propagates (self_logs : list Log) (a : string) :
  (forall log, In log self_logs -> is_basic_failure (message_of log) = true ->
               agent_id log = Some a) ->
  map_failure_propagation self_logs = Ok [].
Proof.
  intros Hall.
  assert (Hf : Forall (fun log => agent_id log = Some a)
                      (List.filter (fun log => is_basic_failure (message_of log)) self_logs)).
  { apply List.Forall_forall. intros log Hin. apply filter_In in Hin.
    destruct Hin as [Hin Hfail]. now apply Hall. }
  destruct (single_agent_pairs a _ Hf) as [Hi Hd].
  pose proof (map_failure_propagation_cases self_logs) as H.
  rewrite Hi in H. rewrite H. unfold propagation_edges. now rewrite Hd.
Qed.

Lemma single_agent_never_propagates_witness :
  map_failure_propagation
    [mkLog (Some "A") None (Some "error X"); mkLog None None (Some "fine");
     mkLog (Some "A") None (Some "crash")]
  = Ok [].
Proof.
  apply (single_agent_never_propagates _ "A").
  intros log [<-|[<-|[<-|[]]]]; first [reflexivity | discriminate].
Defined.

Lemma adjacent_snd_In {A : Type} (p q : A) (l : list A) :
  In (p, q) (adjacent l) -> In q (tl l).
Proof. unfold adjacent. apply in_combine_r. Qed.

Lemma later_keys_sorted d f :
  StronglySorted key_le f ->
  StronglySorted (fun t1 t2 => String.leb t1 t2 = true)
    (map (fun p => sort_key (snd p)) (List.filter d (adjacent f))).
Proof.
  induction 1 as [|p f Hs IH Hp]; [constructor|].
  destruct f as [|q r]; [constructor|].
  rewrite adjacent_cons. cbn [List.filter].
  assert (Htail : Forall (fun t => String.leb (sort_key q) t = true)
                    (map (fun p => sort_key (snd p)) (List.filter d (adjacent (q :: r))))).
  { apply List.Forall_forall. intros t Ht. apply in_map_iff in Ht.
    destruct Ht as ([x y] & <- & Hin). apply filter_In in Hin. destruct Hin as [Hin _].
    apply adjacent_snd_In in Hin. cbn [tl snd] in *.
    apply StronglySorted_inv in Hs. destruct Hs as [_ Hq].
    rewrite List.Forall_forall in Hq. exact (Hq y Hin). }
  destruct (d (p, q)); [|exact IH].
  cbn [map snd]. constructor; [exact IH | exact Htail].
Qed.

Lemma filter_sorted (g : Log -> bool) l :
  StronglySorted key_le l -> StronglySorted key_le (List.filter g l).
Proof.
  induction 1 as [|x l Hs IH Hx]; [constructor|].
  cbn [List.filter]. destruct (g x); [|exact IH].
  constructor; [exact IH|]. apply List.Forall_forall. intros y Hy.
  apply filter_In in Hy. rewrite List.Forall_forall in Hx. now apply Hx.
Qed.

(** The edges of a monitor are in the order of their timestamps, and
    every edge carries the agent, the timestamp and the message of a failure
    entry of the batch. *)
Theorem propagation_is_chronological (logs : list Log) edges :
  map_failure_propagation (__init__ logs) = Ok edges ->
  StronglySorted (fun t1 t2 => String.leb t1 t2 = true) (map edge_timestamp edges) /\
  (forall e, In e edges ->
     exists log, In log logs /\ is_basic_failure (message_of log) = true /\
                 agent_id log = Some (target_agent e) /\
                 timestamp log = Some (edge_timestamp e) /\
                 message log = Some (edge_message e)).
Proof.
  intros H.
  pose proof (map_failure_propagation_cases (__init__ logs)) as Hc.
  destruct (forallb pair_indexable _) eqn:Hi;
    [|destruct Hc as (key & _ & Hc); rewrite Hc in H; discriminate H].
  rewrite Hc in H. injection H as <-. unfold propagation_edges. split.
  - rewrite map_map. cbn [edge_timestamp edge_between].
    apply (later_keys_sorted agents_differ). apply filter_sorted, sorted_sorted.
  - intros e He. apply in_map_iff in He. destruct He as ([p q] & <- & Hin).
    apply filter_In in Hin. destruct Hin as [Hin Hd].
    rewrite forallb_forall in Hi. specialize (Hi (p, q) Hin).
    apply adjacent_snd_In in Hin.
    assert (Hq : In q (List.filter (fun log => is_basic_failure (message_of log))
                         (__init__ logs))).
    { destruct (List.filter _ (__init__ logs)); [destruct Hin | now right]. }
    apply filter_In in Hq. destruct Hq as [Hq Hf].
    exists q. split; [eapply Permutation_in; [apply sorted_perm | exact Hq]|].
    split; [exact Hf|].
    unfold pair_indexable in Hi. unfold agents_differ, the_agent in Hd. cbn [fst snd] in *.
    destruct (basic_failure_has_message _ Hf) as [m Hm].
    unfold edge_between, the_agent, message_of. cbn.
    destruct (agent_id p) as [pa|]; [|discriminate Hi].
    destruct (agent_id q) as [qa|]; [|discriminate Hi]. cbn [get] in *.
    destruct (String.eqb qa pa); [discriminate Hd|]. cbn [orb] in Hi.
    destruct (timestamp q); [|discriminate Hi]. rewrite Hm. auto.
Qed.

Lemma propagation_is_chronological_witness :
  StronglySorted (fun t1 t2 => String.leb t1 t2 = true) ["t2"; "t4"].
Proof.
  exact (proj1
    (propagation_is_chronological
       [entry "C" "t4" "crash"; entry "B" "t2" "error Y"; entry "A" "t1" "error X";
        entry "B" "t3" "failed again"]
       [mkEdge "A" "B" "t2" "error Y"; mkEdge "B" "C" "t4" "crash"] eq_refl)).
Defined.


Lemma unattributed_first_failure_cons pre x l :
  unattributed_first_failure pre (x :: l) <->
  (is_failure (message_of x) = true /\ agent_id x = None /\
   ~ In (failure_text x) (failure_texts_in_order pre))
  \/ unattributed_first_failure (pre ++ [x]) l.
Proof.
  split.
  - intros (l1 & log & l2 & Heq & Hf & Ha & Hfresh). destruct l1 as [|y l1].
    + cbn [app] in Heq. injection Heq as -> ->. left. split; [exact Hf|]. split; [exact Ha|].
      intros Hin. unfold failure_texts_in_order in Hin. apply in_map_iff in Hin.
      destruct Hin as (log' & Ht & Hin). apply filter_In in Hin. destruct Hin as [Hin Hf'].
      apply (Hfresh log'); [rewrite app_nil_r; exact Hin | exact Hf' | exact Ht].
    + cbn [app] in Heq. injection Heq as -> ->. right. exists l1, log, l2.
      split; [reflexivity|]. split; [exact Hf|]. split; [exact Ha|].
      intros log' Hin. apply Hfresh. rewrite <- app_assoc in Hin. exact Hin.
  - intros [(Hf & Ha & Hfresh)|(l1 & log & l2 & -> & Hf & Ha & Hfresh)].
    + exists [], x, l. split; [reflexivity|]. split; [exact Hf|]. split; [exact Ha|].
      intros log' Hin Hf' Ht. apply Hfresh. rewrite <- Ht. rewrite app_nil_r in Hin.
      unfold failure_texts_in_order. apply in_map, filter_In. now split.
    + exists (x :: l1), log, l2. split; [reflexivity|]. split; [exact Hf|]. split; [exact Ha|].
      intros log' Hin. apply Hfresh. rewrite <- app_assoc. exact Hin.
Qed.

Lemma introducer_step_eq seen log :
  introducer_step seen log
  = if is_failure (message_of log) && negb (dict_mem (failure_text log) seen)
    then a ← getitem "agent_id" (agent_id log); Ok (seen ++ [(failure_text log, a)])
    else Ok seen.
Proof.
  unfold introducer_step. name_tests log.
  change (is_failure (failure_text log)) with (is_failure (PyStr.strip (message_of log))).
  rewrite is_failure_strip.
  destruct (is_failure (message_of log)); [|reflexivity].
  destruct (dict_mem (failure_text log) seen) eqn:Hm; [reflexivity|].
  cbn [andb negb]. destruct (agent_id log); [|reflexivity].
  cbn. now rewrite dict_set_fresh.
Qed.

Lemma for_each_introducer_cases l : forall seen pre,
  (forall m, In m (map fst seen) <-> In m (failure_texts_in_order pre)) ->
  (unattributed_first_failure pre l /\
   for_each introducer_step l seen = Raise (KeyError "agent_id"))
  \/ (~ unattributed_first_failure pre l /\
      for_each introducer_step l seen = Ok (fold_left introducer_machine_step l seen)).
Proof.
  induction l as [|x l IH]; intros seen pre Hinv.
  - right. split; [|reflexivity]. intros (l1 & log & l2 & Heq & _). now destruct l1.
  - cbn [for_each fold_left].
    assert (Hstep : forall seen',
              (forall m, In m (map fst seen') <-> In m (failure_texts_in_order (pre ++ [x]))) ->
              ~ (is_failure (message_of x) = true /\ agent_id x = None /\
                 ~ In (failure_text x) (failure_texts_in_order pre)) ->
              (unattributed_first_failure pre (x :: l) /\
               for_each introducer_step l seen' = Raise (KeyError "agent_id"))
              \/ (~ unattributed_first_failure pre (x :: l) /\
                  for_each introducer_step l seen'
                  = Ok (fold_left introducer_machine_step l seen'))).
    { intros seen' Hinv' Hno. rewrite unattributed_first_failure_cons.
      destruct (IH seen' (pre ++ [x]) Hinv') as [[Hu Hr]|[Hu Hr]].
      - left. split; [now right | exact Hr].
      - right. split; [tauto | exact Hr]. }
    rewrite introducer_step_eq. unfold introducer_machine_step at 2.
    destruct (is_failure (message_of x)) eqn:Hf; cbn [andb].
    2:{ cbn [mbind result_bind]. apply Hstep; [|intros [H _]; discriminate H].
        intros m. rewrite failure_texts_in_order_snoc, Hf, app_nil_r. apply Hinv. }
    destruct (dict_mem (failure_text x) seen) eqn:Hm; cbn [negb].
    { cbn [mbind result_bind]. apply dict_mem_In in Hm.
      apply Hstep; [|intros (_ & _ & H); apply H, Hinv, Hm].
      intros m. rewrite failure_texts_in_order_snoc, Hf, in_app_iff, Hinv. cbn [In].
      split; [tauto|]. intros [H|[<-|[]]]; [exact H | now apply Hinv]. }
    destruct (agent_id x) as [a|] eqn:Ha.
    + cbn. unfold the_agent. rewrite Ha. cbn [get].
      apply Hstep; [|intros (_ & H & _); discriminate H].
      intros m. rewrite failure_texts_in_order_snoc, Hf, map_app, !in_app_iff, Hinv.
      reflexivity.
    + left. split; [|reflexivity]. apply unattributed_first_failure_cons. left.
      split; [exact Hf|]. split; [exact Ha|].
      intros Hin. apply Hinv, dict_mem_In in Hin. congruence.
Qed.

(** When [show_failure_introducers] raises: it raises
    [KeyError('agent_id')] exactly when some detected failure without
    [agent_id] is the first with its text; otherwise it returns the map of
    the single pass, whose keys are the distinct failure texts in the order
    of their first occurrence. A repeated failure needs no [agent_id]. *)
Theorem show_failure_introducers_raises_exactly (self_logs : list Log) :
  (unattributed_first_failure [] self_logs /\
   show_failure_introducers self_logs = Raise (KeyError "agent_id"))
  \/ (~ unattributed_first_failure [] self_logs /\
      exists seen,
        show_failure_introducers self_logs = Ok seen /\
        seen = fold_left introducer_machine_step self_logs [] /\
        map fst seen = first_occurrences (failure_texts_in_order self_logs)).
Proof.
  unfold show_failure_introducers.
  destruct (for_each_introducer_cases self_logs [] []) as [[Hu Hr]|[Hu Hr]];
    [reflexivity | left; now split | right].
  split; [exact Hu|]. eexists. split; [exact Hr|]. split; [reflexivity|].
  apply (introducers_invariant self_logs).
Qed.

Lemma show_failure_introducers_raises_exactly_witness :
  show_failure_introducers
    [entry "A" "t1" ("error" +:+ nbsp); mkLog None (Some "t2") (Some "error")]
  = Ok [("error", "A")] /\
  show_failure_introducers
    [entry "A" "t1" "error"; mkLog None (Some "t2") (Some "error again")]
  = Raise (KeyError "agent_id").
Proof.
  split.
  - destruct (show_failure_introducers_raises_exactly
                [entry "A" "t1" ("error" +:+ nbsp); mkLog None (Some "t2") (Some "error")])
      as [[_ H]|(_ & seen & H & -> & _)]; [discriminate H | exact H].
  - destruct (show_failure_introducers_raises_exactly
                [entry "A" "t1" "error"; mkLog None (Some "t2") (Some "error again")])
      as [[_ H]|(_ & seen & H & _)]; [exact H | discriminate H].
Defined.


(** ** Logs with all keys *)

Lemma adjacent_In {A : Type} (p q : A) (l : list A) :
  In (p, q) (adjacent l) -> In p l /\ In q l.
Proof.
  unfold adjacent. intros H. split; [now apply in_combine_l in H|].
  apply in_combine_r in H. destruct l; [destruct H | now right].
Qed.

Lemma has_keys_indexable (l : list Log) :
  Forall has_keys l -> forallb pair_indexable (adjacent l) = true.
Proof.
  intros Hl. apply forallb_forall. intros [p q] Hin.
  apply adjacent_In in Hin. destruct Hin as [Hp Hq].
  rewrite List.Forall_forall in Hl.
  destruct (Hl p Hp) as [[pa Hpa] _]. destruct (Hl q Hq) as [[qa Hqa] [qt Hqt]].
  unfold pair_indexable. cbn [fst snd]. rewrite Hpa, Hqa, Hqt. apply orb_true_r.
Qed.

Lemma complete_logs_never_raise (logs : list Log) :
  Forall has_keys logs ->
  map_failure_propagation (__init__ logs)
  = Ok (propagation_edges is_basic_failure (__init__ logs)) /\
  show_failure_introducers (__init__ logs)
  = Ok (fold_left introducer_machine_step (__init__ logs) []).
Proof.
  intros Hl.
  assert (Hs : Forall has_keys (__init__ logs)).
  { apply List.Forall_forall. intros log Hin. rewrite List.Forall_forall in Hl.
    apply Hl. eapply Permutation_in; [apply sorted_perm | exact Hin]. }
  split.
  - pose proof (map_failure_propagation_cases (__init__ logs)) as H.
    rewrite has_keys_indexable in H; [exact H|].
    apply List.Forall_forall. intros log Hin. apply filter_In in Hin.
    rewrite List.Forall_forall in Hs. now apply Hs.
  - apply for_each_introducer_machine.
    apply List.Forall_forall. intros log Hin.
    rewrite List.Forall_forall in Hs. now apply Hs.
Qed.

Lemma grouped_agent_occurs (logs : list Log) (agent : string) :
  is_Some (_group_failures_by_agent logs !! agent) ->
  exists log, In log logs /\ agent_of log = agent.
Proof.
  rewrite group_lookup. intros [records H].
  destruct (entries_of is_failure agent logs) as [|log l] eqn:He; [discriminate H|].
  assert (Hin : In log (entries_of is_failure agent logs)) by (rewrite He; now left).
  apply filter_In in Hin. destruct Hin as [Hin Hb]. apply andb_true_iff in Hb.
  exists log. split; [exact Hin|]. now apply String.eqb_eq.
Qed.

(** ** TraceCollector.collect_logs *)

Import TraceCollector.

Lemma appended_In a items c : In c (appended a items) -> collected_agent_id c = a.
Proof.
  induction items as [|[ts msg|] items IH]; cbn [appended]; [intros []| |intros []].
  intros [<-|H]; [reflexivity | now apply IH].
Qed.

Lemma as_log_Some c log :
  as_log c = Some log ->
  exists t m, log = entry (collected_agent_id c) t m.
Proof.
  unfold as_log. destruct (collected_timestamp c) as [t|]; [|discriminate].
  destruct (collected_message c) as [m|]; [|discriminate].
  intros [= <-]. now exists t, m.
Qed.

Lemma as_logs_In collected logs log :
  map as_log collected = map Some logs -> In log logs ->
  exists c, In c collected /\ as_log c = Some log.
Proof.
  revert logs. induction collected as [|c collected IH]; intros [|l logs] H;
    try discriminate H; [intros []|].
  cbn [map] in H. injection H as Hc Hrest. intros [<-|Hin].
  - exists c. split; [now left | exact Hc].
  - destruct (IH logs Hrest Hin) as (c' & Hin' & Hc'). exists c'. split; [now right | exact Hc'].
Qed.

Section CollectProofs.

Variable World : Type.
Variable requests_get_json : string -> World -> option (list ResponseItem) * World.

Lemma collect_fold_In eps : forall st c,
  In c (fst (fold_left (collect_step requests_get_json) eps st)) ->
  In c (fst st) \/ In (collected_agent_id c) (map fst eps).
Proof.
  induction eps as [|[a ep] eps IH]; intros st c H; [now left|].
  cbn [fold_left] in H. apply IH in H. destruct H as [H|Hin].
  - unfold collect_step in H. destruct (requests_get_json ep (snd st)) as [[items|] w].
    + cbn [fst] in H. apply in_app_or in H. destruct H as [H|H]; [now left|].
      right. apply appended_In in H. left. now rewrite H.
    + now left.
  - right. now right.
Qed.

(** What [collect_logs] returns can be analysed when the endpoints sent
    strings: every collected entry has the three keys and the name of an
    endpoint as its agent, whatever the endpoints answer; and when the
    timestamp and the message of every collected entry are strings, the
    propagation map and the introducer map of the collected logs raise no
    [KeyError], and the agents of the grouping and of the edges are names of
    endpoints. A value that is no string is kept as it is, and such an entry
    is no log entry of the analyses. *)
Theorem collected_logs_are_analysable
  (agent_endpoints : list (string * string)) (w : World) (logs : list Log) :
  map as_log (fst (collect_logs requests_get_json agent_endpoints w)) = map Some logs ->
  (forall c, In c (fst (collect_logs requests_get_json agent_endpoints w)) ->
     In (collected_agent_id c) (map fst agent_endpoints)) /\
  (forall log, In log logs ->
     exists a t m, log = entry a t m /\ In a (map fst agent_endpoints)) /\
  map_failure_propagation (__init__ logs)
  = Ok (propagation_edges is_basic_failure (__init__ logs)) /\
  show_failure_introducers (__init__ logs)
  = Ok (fold_left introducer_machine_step (__init__ logs) []) /\
  (forall agent, is_Some (_group_failures_by_agent logs !! agent) ->
     In agent (map fst agent_endpoints)) /\
  (forall e, In e (propagation_edges is_basic_failure (__init__ logs)) ->
     In (source_agent e) (map fst agent_endpoints) /\
     In (target_agent e) (map fst agent_endpoints)).
Proof.
  intros Hlogs.
  assert (Hagent : forall c,
            In c (fst (collect_logs requests_get_json agent_endpoints w)) ->
            In (collected_agent_id c) (map fst agent_endpoints)).
  { intros c H. apply collect_fold_In in H. destruct H as [[]|H]. exact H. }
  assert (Hall : forall log, In log logs ->
            exists a t m, log = entry a t m /\ In a (map fst agent_endpoints)).
  { intros log H. destruct (as_logs_In _ _ _ Hlogs H) as (c & Hin & Hc).
    destruct (as_log_Some c log Hc) as (t & m & ->).
    exists (collected_agent_id c), t, m. split; [reflexivity | now apply Hagent]. }
  assert (Hkeys : Forall has_keys logs).
  { apply List.Forall_forall. intros log H. destruct (Hall log H) as (a & t & m & -> & _).
    split; eexists; reflexivity. }
  split; [exact Hagent|]. split; [exact Hall|].
  destruct (complete_logs_never_raise logs Hkeys) as [Hp Hi].
  split; [exact Hp|]. split; [exact Hi|]. split.
  - intros agent H. apply grouped_agent_occurs in H. destruct H as (log & Hin & <-).
    destruct (Hall log Hin) as (a & t & m & -> & Ha). exact Ha.
  - intros e He. unfold propagation_edges in He. apply in_map_iff in He.
    destruct He as ([p q] & <- & Hin). apply filter_In in Hin. destruct Hin as [Hin _].
    apply adjacent_In in Hin. destruct Hin as [Hp' Hq'].
    apply filter_In in Hp'. apply filter_In in Hq'.
    destruct Hp' as [Hp' _]. destruct Hq' as [Hq' _].
    apply (Permutation_in _ (sorted_perm logs)) in Hp'.
    apply (Permutation_in _ (sorted_perm logs)) in Hq'.
    destruct (Hall p Hp') as (a1 & t1 & m1 & -> & Ha1).
    destruct (Hall q Hq') as (a2 & t2 & m2 & -> & Ha2).
    split; [exact Ha1 | exact Ha2].
Qed.

End CollectProofs.

(** Two endpoints: the first sends a failure and then an element that is no
    object, the second an object without timestamp; the collected entries
    are log entries and the monitor draws the edge between them. An
    endpoint that sends null for the message gives an entry that is no log
    entry. *)
Lemma collected_logs_are_analysable_witness :
  let network := fun (endpoint : string) (w : unit) =>
    (if String.eqb endpoint "http://a/logs"
     then Some [JsonObject (Some (JsonString "t1")) (Some (JsonString "build failed"));
                JsonOther;
                JsonObject (Some (JsonString "t9")) (Some (JsonString "lost"))]
     else if String.eqb endpoint "http://b/logs"
     then Some [JsonObject None (Some (JsonString "test error"))]
     else if String.eqb endpoint "http://c/logs"
     then Some [JsonObject (Some (JsonString "t2")) (Some JsonNotString)]
     else None, w) in
  map_failure_propagation
    (__init__ [entry "A" "t1" "build failed"; entry "B" "" "test error"])
  = Ok [mkEdge "B" "A" "t1" "build failed"] /\
  map as_log (fst (collect_logs network [("C", "http://c/logs")] tt)) = [None].
Proof.
  cbv zeta. split; [|reflexivity].
  refine (proj1 (proj2 (proj2
    (collected_logs_are_analysable unit
       (fun (endpoint : string) (w : unit) =>
          (if String.eqb endpoint "http://a/logs"
           then Some [JsonObject (Some (JsonString "t1")) (Some (JsonString "build failed"));
                      JsonOther;
                      JsonObject (Some (JsonString "t9")) (Some (JsonString "lost"))]
           else if String.eqb endpoint "http://b/logs"
           then Some [JsonObject None (Some (JsonString "test error"))]
           else if String.eqb endpoint "http://c/logs"
           then Some [JsonObject (Some (JsonString "t2")) (Some JsonNotString)]
           else None, w))
       [("A", "http://a/logs"); ("D", "http://d/logs"); ("B", "http://b/logs")] tt
       [entry "A" "t1" "build failed"; entry "B" "" "test error"] _)))).
  reflexivity.
Defined.


(** ** The trace manager *)

Import MetaGPT.

Lemma flat_map_skip {B : Type} (G : string -> list B) a l :
  G a = [] ->
  flat_map G l = flat_map G (List.filter (fun b => negb (String.eqb b a)) l).
Proof.
  intros Ha. induction l as [|b l IH]; [reflexivity|].
  cbn [flat_map List.filter]. destruct (String.eqb_spec b a) as [->|Hne]; cbn [negb].
  - now rewrite Ha.
  - cbn [flat_map]. now rewrite IH.
Qed.

Lemma filter_flat_map {A B : Type} (p : B -> bool) (f : A -> list B) l :
  List.filter p (flat_map f l) = flat_map (fun x => List.filter p (f x)) l.
Proof.
  induction l as [|x l IH]; [reflexivity|].
  cbn [flat_map]. now rewrite List.filter_app, IH.
Qed.

Lemma flat_map_ext_In {A B : Type} (f g : A -> list B) l :
  (forall x, In x l -> f x = g x) -> flat_map f l = flat_map g l.
Proof.
  induction l as [|x l IH]; intros H; [reflexivity|].
  cbn [flat_map]. rewrite (H x) by now left. f_equal. apply IH. intros y Hy. apply H. now right.
Qed.

Lemma flat_map_of_map {A B C : Type} (f : B -> list C) (g : A -> B) l :
  flat_map f (map g l) = flat_map (fun x => f (g x)) l.
Proof. induction l as [|x l IH]; [reflexivity|]. cbn [map flat_map]. now rewrite IH. Qed.

Lemma agents_get_In d k r : agents_get d k = Some r -> In (k, r) d.
Proof.
  induction d as [|[k' r'] d IH]; cbn [agents_get]; [discriminate|].
  destruct (String.eqb_spec k' k) as [->|Hne].
  - intros H. injection H as ->. now left.
  - intros H. right. now apply IH.
Qed.

Lemma agents_get_None d k : agents_get d k = None <-> ~ In k (map fst d).
Proof.
  induction d as [|[k' r'] d IH]; cbn [agents_get map fst In]; [tauto|].
  destruct (String.eqb_spec k' k) as [->|Hne].
  - split; [discriminate | intros H; exfalso; apply H; now left].
  - rewrite IH. tauto.
Qed.

Lemma agents_get_NoDup d k r :
  List.NoDup (map fst d) -> In (k, r) d -> agents_get d k = Some r.
Proof.
  induction d as [|[k' r'] d IH]; cbn [agents_get map fst]; [intros _ []|].
  intros Hnd [Heq|Hin]; apply List.NoDup_cons_iff in Hnd; destruct Hnd as [Hk Hnd].
  - injection Heq as -> ->. now rewrite String.eqb_refl.
  - destruct (String.eqb_spec k' k) as [->|Hne]; [|now apply IH].
    exfalso. apply Hk. apply in_map_iff. now exists (k, r).
Qed.

Lemma agents_get_set_eq d k r : agents_get (agents_set d k r) k = Some r.
Proof.
  induction d as [|[k' r'] d IH]; cbn [agents_set agents_get].
  - now rewrite String.eqb_refl.
  - destruct (String.eqb_spec k' k) as [->|Hne]; cbn [agents_get].
    + now rewrite String.eqb_refl.
    + destruct (String.eqb_spec k' k); [contradiction | exact IH].
Qed.

Lemma agents_get_set_ne d k r k' :
  k' <> k -> agents_get (agents_set d k r) k' = agents_get d k'.
Proof.
  intros Hne. induction d as [|[k0 r0] d IH]; cbn [agents_set agents_get].
  - destruct (String.eqb_spec k k'); [congruence | reflexivity].
  - destruct (String.eqb_spec k0 k) as [->|Hne0]; cbn [agents_get].
    + destruct (String.eqb_spec k k'); [congruence | reflexivity].
    + now rewrite IH.
Qed.

Lemma agents_set_keys d k r :
  map fst (agents_set d k r)
  = if agents_get d k is Some _ then map fst d else map fst d ++ [k].
Proof.
  induction d as [|[k' r'] d IH]; cbn [agents_set agents_get map fst]; [reflexivity|].
  destruct (String.eqb_spec k' k) as [->|Hne]; cbn [map fst]; [reflexivity|].
  rewrite IH. now destruct (agents_get d k).
Qed.

Lemma agents_set_In d k r a r' :
  In (a, r') (agents_set d k r) -> (a = k /\ r' = r) \/ In (a, r') d.
Proof.
  induction d as [|[k0 r0] d IH]; cbn [agents_set].
  - intros [H|[]]. injection H as <- <-. now left.
  - destruct (String.eqb_spec k0 k) as [->|Hne].
    + intros [H|H]; [injection H as <- <-; now left | right; now right].
    + intros [H|H]; [right; now left|]. destruct (IH H) as [?|?]; [now left | right; now right].
Qed.

Lemma agents_set_keys_NoDup d k r :
  List.NoDup (map fst d) -> List.NoDup (map fst (agents_set d k r)).
Proof.
  intros Hnd. rewrite agents_set_keys.
  destruct (agents_get d k) eqn:Hg; [exact Hnd|].
  apply agents_get_None in Hg.
  apply NoDup_ListNoDup, NoDup_app. split; [now apply NoDup_ListNoDup|].
  split; [|apply NoDup_singleton].
  intros x Hx Hk. apply list_elem_of_singleton in Hk. subst x.
  apply Hg. now apply list_elem_of_In.
Qed.

Lemma agents_set_refs_NoDup d k r :
  List.NoDup (map snd d) -> ~ In r (map snd d) ->
  List.NoDup (map snd (agents_set d k r)).
Proof.
  induction d as [|[k0 r0] d IH]; cbn [agents_set map snd]; intros Hnd Hr.
  - constructor; [intros [] | constructor].
  - apply List.NoDup_cons_iff in Hnd. destruct Hnd as [Hr0 Hnd].
    destruct (String.eqb_spec k0 k) as [->|Hne]; cbn [map snd].
    + constructor; [|exact Hnd]. intros H. apply Hr. now right.
    + constructor; [|apply IH; [exact Hnd | intros H; apply Hr; now right]].
      intros H. apply in_map_iff in H. destruct H as ([a r'] & Heq & Hin).
      cbn [snd] in Heq. subst r'. apply agents_set_In in Hin.
      destruct Hin as [[_ ->]|Hin]; [apply Hr; now left|].
      apply Hr0. apply in_map_iff. now exists (a, r0).
Qed.

Lemma fold_left_append {A B : Type} (x : A -> B) (l : list A) : forall acc,
  fold_left (fun all_logs log => all_logs ++ [x log]) l acc = acc ++ map x l.
Proof.
  induction l as [|e l IH]; intros acc; cbn [fold_left map]; [now rewrite app_nil_r|].
  now rewrite IH, <- app_assoc.
Qed.

Lemma fold_left_agents s (d : list (string * ref)) : forall acc,
  fold_left
    (fun all_logs '(agent_id, handler) =>
       fold_left
         (fun all_logs log =>
            all_logs ++ [mkLog (Some agent_id) (Some (entry_timestamp log))
                               (Some (entry_message log))])
         (get_logs handler s) all_logs)
    d acc
  = acc ++ flat_map (fun ar => map (to_log (fst ar)) (get_logs (snd ar) s)) d.
Proof.
  induction d as [|[a r] d IH]; intros acc; cbn [fold_left flat_map fst snd].
  - now rewrite app_nil_r.
  - rewrite (fold_left_append (fun log => mkLog (Some a) (Some (entry_timestamp log))
                                                (Some (entry_message log)))).
    rewrite IH, <- app_assoc. reflexivity.
Qed.

(** The nested loops of [get_all_logs], agent by agent. *)
Lemma get_all_logs_flat s :
  get_all_logs s
  = flat_map (fun ar => map (to_log (fst ar)) (get_logs (snd ar) s)) (agents s).
Proof. unfold get_all_logs. now rewrite fold_left_agents. Qed.

Lemma get_all_logs_In s log :
  In log (get_all_logs s) ->
  exists a t m, log = entry a t m /\ In a (get_registered_agents s).
Proof.
  rewrite get_all_logs_flat. intros H. apply in_flat_map in H.
  destruct H as ([a r] & Hin & H). apply in_map_iff in H. destruct H as (e & <- & _).
  eexists a, _, _. split; [reflexivity|].
  unfold get_registered_agents. apply in_map_iff. now exists (a, r).
Qed.

Lemma get_all_logs_by_registration s :
  List.NoDup (map fst (agents s)) ->
  get_all_logs s
  = flat_map (fun a => map (to_log a) (get_agent_logs a s)) (get_registered_agents s).
Proof.
  intros Hnd. rewrite get_all_logs_flat. unfold get_registered_agents.
  rewrite flat_map_of_map. apply flat_map_ext_In. intros [a r] Hin.
  unfold get_agent_logs. cbn [fst snd]. now rewrite (agents_get_NoDup _ a r Hnd Hin).
Qed.

Lemma filter_other_agent a b (l : list TraceEntry) :
  List.filter (fun log => negb (String.eqb (agent_of log) a)) (map (to_log b) l)
  = if String.eqb b a then [] else map (to_log b) l.
Proof.
  induction l as [|e l IH]; [now destruct (String.eqb b a)|].
  cbn [map List.filter]. rewrite IH.
  change (agent_of (to_log b e)) with b. now destruct (String.eqb b a).
Qed.

(** A store that agrees with [s] on every agent but [a], of which it has no
    entry, collects the logs of [s] without those of [a]. *)
Lemma get_all_logs_without s s' a :
  List.NoDup (map fst (agents s)) -> List.NoDup (map fst (agents s')) ->
  get_agent_logs a s' = [] ->
  (forall b, b <> a -> get_agent_logs b s' = get_agent_logs b s) ->
  List.filter (fun b => negb (String.eqb b a)) (get_registered_agents s')
  = List.filter (fun b => negb (String.eqb b a)) (get_registered_agents s) ->
  get_all_logs s'
  = List.filter (fun log => negb (String.eqb (agent_of log) a)) (get_all_logs s).
Proof.
  intros Hnd Hnd' Ha Hb Hreg.
  rewrite (get_all_logs_by_registration s Hnd), (get_all_logs_by_registration s' Hnd').
  rewrite filter_flat_map.
  rewrite (flat_map_skip _ a (get_registered_agents s')) by now rewrite Ha.
  rewrite (flat_map_skip (fun x => List.filter _ _) a (get_registered_agents s))
    by (rewrite filter_other_agent; now rewrite String.eqb_refl).
  rewrite Hreg. apply flat_map_ext_In. intros b Hin. apply filter_In in Hin.
  destruct Hin as [_ Hne]. rewrite filter_other_agent.
  destruct (String.eqb b a) eqn:E; [discriminate Hne|].
  apply String.eqb_neq in E. now rewrite Hb.
Qed.

(** *** The invariant *)

Lemma store_ok_empty : store_ok empty_store.
Proof.
  split; [constructor|]. split; [constructor|]. split.
  - intros a r [].
  - intros r h H. destruct r; discriminate H.
Qed.

Lemma registered_in_heap s a r :
  store_ok s -> In (a, r) (agents s) -> (r < length (handlers s))%nat.
Proof.
  intros (_ & _ & Hh & _) Hin. destruct (Hh a r Hin) as (h & Hl & _).
  now apply lookup_lt_Some in Hl.
Qed.

Lemma fresh_ref s : store_ok s -> ~ In (length (handlers s)) (map snd (agents s)).
Proof.
  intros Hok H. apply in_map_iff in H. destruct H as ([a r] & Heq & Hin).
  cbn [snd] in Heq. subst r. apply (registered_in_heap s a _ Hok) in Hin. lia.
Qed.

Lemma lookup_new_handler s a r h :
  (handlers s ++ [mkHandler a []]) !! r = Some h ->
  handlers s !! r = Some h \/ (r = length (handlers s) /\ h = mkHandler a []).
Proof.
  intros H. destruct (decide (r < length (handlers s))%nat) as [Hlt|Hge].
  - left. now rewrite lookup_app_l in H.
  - right. rewrite lookup_app_r in H by lia.
    destruct (r - length (handlers s))%nat as [|n] eqn:Hn; [|destruct n; discriminate H].
    cbn in H. injection H as <-. split; [lia | reflexivity].
Qed.

Lemma store_ok_new_handler a s : store_ok s -> store_ok (snd (new_handler a s)).
Proof.
  intros (Hk & Hr & Hh & Hl). unfold store_ok, new_handler. cbn [snd handlers agents].
  split; [exact Hk|]. split; [exact Hr|]. split.
  - intros b r Hin. destruct (Hh b r Hin) as (h & Hlk & Hid).
    exists h. split; [now apply lookup_app_l_Some | exact Hid].
  - intros r h H. apply lookup_new_handler in H. destruct H as [H|[_ ->]]; [now apply (Hl r)|].
    constructor.
Qed.

Lemma store_ok_register_agent a s : store_ok s -> store_ok (snd (register_agent a s)).
Proof.
  intros Hok. pose proof (fresh_ref s Hok) as Hfresh.
  destruct Hok as (Hk & Hr & Hh & Hl).
  unfold store_ok, register_agent, new_handler. cbn [snd handlers agents].
  split; [now apply agents_set_keys_NoDup|].
  split; [now apply agents_set_refs_NoDup|]. split.
  - intros b r Hin. apply agents_set_In in Hin. destruct Hin as [[-> ->]|Hin].
    + exists (mkHandler a []). split; [now apply list_lookup_middle | reflexivity].
    + destruct (Hh b r Hin) as (h & Hlk & Hid).
      exists h. split; [now apply lookup_app_l_Some | exact Hid].
  - intros r h H. apply lookup_new_handler in H. destruct H as [H|[_ ->]]; [now apply (Hl r)|].
    constructor.
Qed.

Lemma store_ok_alter (f : MetaGPTTraceHandler -> MetaGPTTraceHandler) r s :
  (forall h, handler_agent_id (f h) = handler_agent_id h) ->
  (forall h, Forall (fun e => entry_agent_id e = handler_agent_id h) (handler_logs h) ->
             Forall (fun e => entry_agent_id e = handler_agent_id h) (handler_logs (f h))) ->
  store_ok s -> store_ok (mkStore (alter f r (handlers s)) (agents s)).
Proof.
  intros Hid Hlogs (Hk & Hr & Hh & Hl). unfold store_ok. cbn [handlers agents].
  split; [exact Hk|]. split; [exact Hr|]. split.
  - intros b r' Hin. destruct (Hh b r' Hin) as (h & Hlk & Hb).
    rewrite list_lookup_alter. destruct (decide (r = r')) as [->|Hne].
    + rewrite Hlk. exists (f h). split; [reflexivity | now rewrite Hid].
    + now exists h.
  - intros r' h. rewrite list_lookup_alter. destruct (decide (r = r')) as [->|Hne].
    + destruct (handlers s !! r') as [h0|] eqn:Hlk; [|discriminate].
      cbn. intros H. injection H as <-. rewrite Hid. apply Hlogs. now apply (Hl r').
    + apply Hl.
Qed.

Lemma store_ok_clear_logs r s : store_ok s -> store_ok (clear_logs r s).
Proof.
  apply store_ok_alter; [reflexivity | intros; constructor].
Qed.

Lemma store_ok_clear_agent_logs a s : store_ok s -> store_ok (clear_agent_logs a s).
Proof.
  intros Hok. unfold clear_agent_logs. destruct (agents_get (agents s) a); [|exact Hok].
  now apply store_ok_clear_logs.
Qed.

(** *** What the operations change *)

Lemma get_logs_alter f r r' s :
  get_logs r' (mkStore (alter f r (handlers s)) (agents s))
  = if decide (r = r')
    then match handlers s !! r with Some h => handler_logs (f h) | None => [] end
    else get_logs r' s.
Proof.
  unfold get_logs. cbn [handlers]. rewrite list_lookup_alter.
  destruct (decide (r = r')) as [->|Hne]; [|reflexivity].
  now destruct (handlers s !! r').
Qed.

Lemma registered_refs_differ s a b ra rb :
  store_ok s -> agents_get (agents s) a = Some ra -> agents_get (agents s) b = Some rb ->
  a <> b -> ra <> rb.
Proof.
  intros (_ & _ & Hh & _) Ha Hb Hne ->.
  apply agents_get_In in Ha. apply agents_get_In in Hb.
  destruct (Hh a rb Ha) as (h & Hl & Hid). destruct (Hh b rb Hb) as (h' & Hl' & Hid').
  congruence.
Qed.

Lemma get_agent_logs_alter f r s a b :
  store_ok s -> agents_get (agents s) a = Some r -> b <> a ->
  get_agent_logs b (mkStore (alter f r (handlers s)) (agents s)) = get_agent_logs b s.
Proof.
  intros Hok Ha Hne. unfold get_agent_logs. cbn [agents].
  destruct (agents_get (agents s) b) as [rb|] eqn:Hb; [|reflexivity].
  rewrite get_logs_alter. destruct (decide (r = rb)) as [->|Hd]; [|reflexivity].
  exfalso. now apply (registered_refs_differ s a b rb rb Hok Ha Hb); [congruence|].
Qed.

Lemma get_agent_logs_new s a b :
  store_ok s -> b <> a ->
  get_agent_logs b (snd (register_agent a s)) = get_agent_logs b s.
Proof.
  intros Hok Hne. unfold get_agent_logs, register_agent, new_handler.
  cbn [snd agents]. rewrite agents_get_set_ne by exact Hne.
  destruct (agents_get (agents s) b) as [rb|] eqn:Hb; [|reflexivity].
  unfold get_logs. cbn [handlers]. apply agents_get_In in Hb.
  destruct Hok as (_ & _ & Hh & _). destruct (Hh b rb Hb) as (h & Hl & _).
  rewrite (lookup_app_l_Some _ _ _ _ Hl). now rewrite Hl.
Qed.

Lemma filter_keys_set d k r :
  List.filter (fun b => negb (String.eqb b k)) (map fst (agents_set d k r))
  = List.filter (fun b => negb (String.eqb b k)) (map fst d).
Proof.
  rewrite agents_set_keys. destruct (agents_get d k); [reflexivity|].
  rewrite List.filter_app. cbn [List.filter]. rewrite String.eqb_refl. cbn [negb].
  apply app_nil_r.
Qed.


Lemma same_ref_same_agent (d : list (string * ref)) a b r :
  List.NoDup (map snd d) -> In (a, r) d -> In (b, r) d -> a = b.
Proof.
  induction d as [|[k r'] d IH]; [intros _ []|]. cbn [map snd].
  intros Hnd Ha Hb. apply List.NoDup_cons_iff in Hnd. destruct Hnd as [Hr Hnd].
  assert (Hin : forall x, In (x, r) d -> In r (map snd d)).
  { intros x Hx. apply in_map_iff. now exists (x, r). }
  destruct Ha as [Ha|Ha], Hb as [Hb|Hb].
  - congruence.
  - injection Ha as -> ->. exfalso. now apply Hr, (Hin b).
  - injection Hb as -> ->. exfalso. now apply Hr, (Hin a).
  - now apply IH.
Qed.

Section ManagerProofs.

Context {LogRecord : Type}.
Variable created_isoformat format levelname : LogRecord -> string.

Local Abbreviation emit := (MetaGPT.emit created_isoformat format levelname).
Local Abbreviation stored record a :=
  (mkTraceEntry (created_isoformat record) (format record) (levelname record) a).

Lemma store_ok_emit r record s : store_ok s -> store_ok (emit r record s).
Proof.
  apply store_ok_alter; [reflexivity|]. intros h Hh. cbn [handler_logs handler_agent_id].
  apply Forall_app. split; [exact Hh|]. now constructor.
Qed.

Lemma get_logs_emit r r' record s :
  get_logs r' (emit r record s)
  = if decide (r = r')
    then match handlers s !! r with
         | Some h => handler_logs h ++ [stored record (handler_agent_id h)]
         | None => []
         end
    else get_logs r' s.
Proof. unfold MetaGPT.emit. now rewrite get_logs_alter. Qed.

Lemma get_all_logs_emit_unregistered r record s :
  ~ In r (map snd (agents s)) -> get_all_logs (emit r record s) = get_all_logs s.
Proof.
  intros Hr. rewrite !get_all_logs_flat. change (agents (emit r record s)) with (agents s).
  apply flat_map_ext_In. intros [b rb] Hin. cbn [fst snd]. rewrite get_logs_emit.
  destruct (decide (r = rb)) as [->|Hne]; [|reflexivity].
  exfalso. apply Hr. apply in_map_iff. now exists (b, rb).
Qed.

(** Every store that the methods build from a new manager satisfies the
    invariant. *)
Theorem reachable_store_ok (s : Store) :
  reachable created_isoformat format levelname s -> store_ok s.
Proof.
  induction 1 as [|a s _ IH|a s _ IH|r record s _ IH|r s _ IH|a s _ IH].
  - apply store_ok_empty.
  - now apply store_ok_new_handler.
  - now apply store_ok_register_agent.
  - now apply store_ok_emit.
  - now apply store_ok_clear_logs.
  - now apply store_ok_clear_agent_logs.
Qed.

(** [get_all_logs] is the logs of the registered agents, one agent after
    the other in the order of registration. *)
Theorem get_all_logs_by_agent (s : Store) :
  store_ok s ->
  get_all_logs s
  = flat_map (fun a => map (to_log a) (get_agent_logs a s)) (get_registered_agents s) /\
  (forall a e, In e (get_agent_logs a s) -> entry_agent_id e = a) /\
  (forall a, ~ In a (get_registered_agents s) -> get_agent_logs a s = []) /\
  List.NoDup (get_registered_agents s).
Proof.
  intros (Hk & Hr & Hh & Hl). split; [now apply get_all_logs_by_registration|].
  split; [|split; [|exact Hk]].
  - intros a e. unfold get_agent_logs.
    destruct (agents_get (agents s) a) as [r|] eqn:Ha; [|intros []].
    apply agents_get_In in Ha. destruct (Hh a r Ha) as (h & Hlk & <-).
    unfold get_logs. rewrite Hlk. intros Hin.
    pose proof (Hl r h Hlk) as Hall. rewrite List.Forall_forall in Hall. now apply Hall.
  - intros a Ha. unfold get_agent_logs.
    apply agents_get_None in Ha. now rewrite Ha.
Qed.

(** A record emitted on the handler under which an agent is registered
    becomes the last log of that agent and of no other. *)
Theorem emit_is_seen_by_the_manager (s : Store) (a : string) (r : ref) record :
  store_ok s -> agents_get (agents s) a = Some r ->
  get_agent_logs a (emit r record s) = get_agent_logs a s ++ [stored record a] /\
  (forall b, b <> a -> get_agent_logs b (emit r record s) = get_agent_logs b s) /\
  get_registered_agents (emit r record s) = get_registered_agents s /\
  exists l1 l2, get_all_logs s = l1 ++ l2 /\
                get_all_logs (emit r record s) = l1 ++ to_log a (stored record a) :: l2.
Proof.
  intros Hok Ha. pose proof Hok as (Hk & Hr & Hh & Hl).
  pose proof (agents_get_In _ _ _ Ha) as Hin.
  destruct (Hh a r Hin) as (h & Hlk & Hid).
  assert (Hnew : get_logs r (emit r record s) = get_logs r s ++ [stored record a]).
  { rewrite get_logs_emit. destruct (decide (r = r)) as [_|Hne]; [|contradiction].
    unfold get_logs. now rewrite Hlk, Hid. }
  split; [|split; [|split; [reflexivity|]]].
  - unfold get_agent_logs. change (agents (emit r record s)) with (agents s).
    now rewrite Ha.
  - intros b Hne. now apply (get_agent_logs_alter _ r s a b).
  - destruct (in_split _ _ Hin) as (d1 & d2 & Hd).
    assert (Hother : forall b rb, In (b, rb) (d1 ++ d2) ->
              get_logs rb (emit r record s) = get_logs rb s).
    { intros b rb Hb. rewrite get_logs_emit.
      destruct (decide (r = rb)) as [<-|Hne]; [|reflexivity]. exfalso.
      rewrite Hd, map_app in Hr. cbn [map snd] in Hr.
      apply List.NoDup_remove_2 in Hr. apply Hr. rewrite <- map_app.
      apply in_map_iff. now exists (b, r). }
    rewrite !get_all_logs_flat. change (agents (emit r record s)) with (agents s).
    rewrite Hd, !flat_map_app. cbn [flat_map fst snd]. rewrite Hnew, map_app.
    exists (flat_map (fun ar => map (to_log (fst ar)) (get_logs (snd ar) s)) d1
            ++ map (to_log a) (get_logs r s)),
           (flat_map (fun ar => map (to_log (fst ar)) (get_logs (snd ar) s)) d2).
    split; [now rewrite <- app_assoc|].
    rewrite <- !app_assoc. cbn [map app]. f_equal; [|f_equal; f_equal].
    + apply flat_map_ext_In. intros [b rb] Hb. cbn [fst snd].
      rewrite (Hother b rb); [reflexivity | apply in_or_app; now left].
    + apply flat_map_ext_In. intros [b rb] Hb. cbn [fst snd].
      rewrite (Hother b rb); [reflexivity | apply in_or_app; now right].
Qed.

(** [register_agent] gives the agent a new, empty handler: the logs the
    agent had are no longer collected, the other agents keep theirs, and the
    agent keeps its place in the order when it was registered before. *)
Theorem register_agent_effect (s : Store) (a : string) :
  store_ok s ->
  let r := fst (register_agent a s) in
  let s' := snd (register_agent a s) in
  agents_get (agents s') a = Some r /\
  get_logs r s' = [] /\
  get_agent_logs a s' = [] /\
  (forall b, b <> a -> get_agent_logs b s' = get_agent_logs b s) /\
  get_registered_agents s'
  = (if agents_get (agents s) a is Some _ then get_registered_agents s
     else get_registered_agents s ++ [a]) /\
  get_all_logs s'
  = List.filter (fun log => negb (String.eqb (agent_of log) a)) (get_all_logs s).
Proof.
  intros Hok. cbv zeta.
  pose proof (store_ok_register_agent a s Hok) as Hok'.
  assert (Hget : agents_get (agents (snd (register_agent a s))) a
                 = Some (fst (register_agent a s))) by apply agents_get_set_eq.
  assert (Hlogs : get_logs (fst (register_agent a s)) (snd (register_agent a s)) = []).
  { unfold get_logs, register_agent, new_handler. cbn [fst snd handlers].
    now rewrite list_lookup_middle. }
  assert (Ha : get_agent_logs a (snd (register_agent a s)) = []).
  { unfold get_agent_logs. now rewrite Hget. }
  split; [exact Hget|]. split; [exact Hlogs|]. split; [exact Ha|].
  split; [intros b Hne; now apply get_agent_logs_new|].
  split; [apply agents_set_keys|].
  apply get_all_logs_without; [apply Hok | apply Hok' | exact Ha | |].
  - intros b Hne. now apply get_agent_logs_new.
  - apply filter_keys_set.
Qed.

(** After an agent is registered again, the handler it had is no longer
    read: what is emitted on it reaches the handler and not the manager. *)
Theorem stale_handler_is_not_collected (s : Store) (a : string) (r0 : ref) record :
  store_ok s -> agents_get (agents s) a = Some r0 ->
  let s' := snd (register_agent a s) in
  fst (register_agent a s) <> r0 /\
  get_logs r0 (emit r0 record s') = get_logs r0 s ++ [stored record a] /\
  get_all_logs (emit r0 record s') = get_all_logs s' /\
  (forall b, get_agent_logs b (emit r0 record s') = get_agent_logs b s').
Proof.
  intros Hok Ha. cbv zeta. pose proof Hok as (Hk & Hr & Hh & Hl).
  pose proof (agents_get_In _ _ _ Ha) as Hin.
  pose proof (registered_in_heap s a r0 Hok Hin) as Hlt.
  destruct (Hh a r0 Hin) as (h & Hlk & Hid).
  pose proof (store_ok_register_agent a s Hok) as (Hk' & _).
  assert (Hne : fst (register_agent a s) <> r0).
  { unfold register_agent, new_handler. cbn [fst]. lia. }
  assert (Hun : ~ In r0 (map snd (agents (snd (register_agent a s))))).
  { intros H. apply in_map_iff in H. destruct H as ([b rb] & Heq & Hb).
    cbn [snd] in Heq. subst rb.
    assert (Hb' := Hb). unfold register_agent, new_handler in Hb'. cbn [snd agents] in Hb'.
    apply agents_set_In in Hb'. destruct Hb' as [[_ Hlen]|Hb']; [lia|].
    assert (b = a) by (eapply same_ref_same_agent; eassumption). subst b.
    apply (agents_get_NoDup _ _ _ Hk') in Hb.
    unfold register_agent, new_handler in Hb. cbn [snd agents] in Hb.
    rewrite agents_get_set_eq in Hb. injection Hb as Hb. lia. }
  split; [exact Hne|]. split; [|split].
  - rewrite get_logs_emit. destruct (decide (r0 = r0)) as [_|?]; [|contradiction].
    unfold register_agent, new_handler. cbn [snd handlers].
    rewrite (lookup_app_l_Some _ _ _ _ Hlk). unfold get_logs. now rewrite Hlk, Hid.
  - now apply get_all_logs_emit_unregistered.
  - intros b. unfold get_agent_logs.
    change (agents (emit r0 record (snd (register_agent a s))))
      with (agents (snd (register_agent a s))).
    destruct (agents_get (agents (snd (register_agent a s))) b) as [rb|] eqn:Hb;
      [|reflexivity].
    rewrite get_logs_emit. destruct (decide (r0 = rb)) as [<-|?]; [|reflexivity].
    exfalso. apply Hun. apply agents_get_In in Hb. apply in_map_iff. now exists (b, r0).
Qed.

(** [clear_agent_logs] removes the logs of one agent from what the manager
    collects and nothing else. *)
Theorem clear_agent_logs_effect (s : Store) (a : string) :
  store_ok s ->
  get_agent_logs a (clear_agent_logs a s) = [] /\
  (forall b, b <> a -> get_agent_logs b (clear_agent_logs a s) = get_agent_logs b s) /\
  get_registered_agents (clear_agent_logs a s) = get_registered_agents s /\
  get_all_logs (clear_agent_logs a s)
  = List.filter (fun log => negb (String.eqb (agent_of log) a)) (get_all_logs s).
Proof.
  intros Hok. pose proof (store_ok_clear_agent_logs a s Hok) as Hok'.
  assert (Hreg : get_registered_agents (clear_agent_logs a s) = get_registered_agents s).
  { unfold clear_agent_logs. now destruct (agents_get (agents s) a). }
  assert (Ha : get_agent_logs a (clear_agent_logs a s) = []).
  { unfold clear_agent_logs, get_agent_logs.
    destruct (agents_get (agents s) a) as [r|] eqn:Hg; [|now rewrite Hg].
    cbn [clear_logs agents]. rewrite Hg. unfold clear_logs. rewrite get_logs_alter.
    destruct (decide (r = r)) as [_|?]; [|contradiction].
    now destruct (handlers s !! r). }
  assert (Hb : forall b, b <> a ->
            get_agent_logs b (clear_agent_logs a s) = get_agent_logs b s).
  { intros b Hne. unfold clear_agent_logs.
    destruct (agents_get (agents s) a) as [r|] eqn:Hg; [|reflexivity].
    now apply (get_agent_logs_alter _ r s a b). }
  split; [exact Ha|]. split; [exact Hb|]. split; [exact Hreg|].
  apply get_all_logs_without; [apply Hok | apply Hok' | exact Ha | exact Hb|].
  now rewrite Hreg.
Qed.

End ManagerProofs.

(** *** run_trace_analysis *)

Lemma for_each_print_failure (l : list FailureRecord) :
  Forall (fun f => has_keys (record_log f) /\ is_Some (message (record_log f))) l ->
  for_each print_failure l tt = Ok tt.
Proof.
  induction 1 as [|f l [[_ [t Ht]] [m Hm]] _ IH]; [reflexivity|].
  cbn [for_each].
  assert (Hf : print_failure tt f = Ok tt) by (unfold print_failure; now rewrite Ht, Hm).
  rewrite Hf. exact IH.
Qed.

Lemma grouped_records_from_input (logs : list Log) f :
  f ∈ map_to_list (_group_failures_by_agent logs) ≫= snd ->
  In (record_log f) logs.
Proof.
  intros H. apply list_elem_of_bind in H. destruct H as ([agent records] & Hf & Hin).
  apply elem_of_map_to_list in Hin. rewrite group_lookup in Hin. cbn [snd] in Hf.
  destruct (map _ (entries_of is_failure agent logs)) as [|x l] eqn:Hm; [discriminate Hin|].
  injection Hin as <-. rewrite <- Hm in Hf. apply list_elem_of_In in Hf.
  apply in_map_iff in Hf. destruct Hf as (log & <- & Hlog).
  apply filter_In in Hlog. apply Hlog.
Qed.

(** [run_trace_analysis] raises no [KeyError], whatever the store: the
    entries that [get_all_logs] builds have the three keys. *)
Theorem run_trace_analysis_never_raises (s : Store) :
  exists out,
    run_trace_analysis s = Ok out /\
    match out with
    | None => get_all_logs s = []
    | Some o =>
        get_all_logs s <> [] /\
        csv_rows o = get_all_logs s /\
        failures_by_agent o = _group_failures_by_agent (get_all_logs s) /\
        propagation o = propagation_edges is_basic_failure (__init__ (get_all_logs s)) /\
        introducers o = fold_left introducer_machine_step (__init__ (get_all_logs s)) [] /\
        (forall agent, is_Some (failures_by_agent o !! agent) ->
                       In agent (get_registered_agents s))
    end.
Proof.
  unfold run_trace_analysis.
  assert (Hall : forall log, In log (get_all_logs s) ->
            exists a t m, log = entry a t m /\ In a (get_registered_agents s))
    by apply get_all_logs_In.
  destruct (get_all_logs s) as [|log0 logs0] eqn:Hlogs; [now exists None|].
  rewrite <- Hlogs in *.
  assert (Hkeys : Forall has_keys (get_all_logs s)).
  { apply List.Forall_forall. intros log H. destruct (Hall log H) as (a & t & m & -> & _).
    split; eexists; reflexivity. }
  rewrite for_each_print_failure.
  2:{ apply Forall_forall. intros f Hf. apply grouped_records_from_input in Hf.
      destruct (Hall _ Hf) as (a & t & m & -> & _).
      repeat split; eexists; reflexivity. }
  destruct (complete_logs_never_raise _ Hkeys) as [Hp Hi]. rewrite Hp, Hi.
  cbn [mbind result_bind]. eexists. split; [reflexivity|].
  cbn [csv_rows failures_by_agent propagation introducers].
  split; [rewrite Hlogs; discriminate|]. repeat (split; [reflexivity|]).
  intros agent H. apply grouped_agent_occurs in H. destruct H as (log & Hin & <-).
  destruct (Hall log Hin) as (a & t & m & -> & Ha). exact Ha.
Qed.


Lemma reachable_store_ok_witness :
  store_ok
    (emit (fun _ : string => "2024-01-01T00:00:00") (fun msg => msg) (fun _ => "ERROR")
       0 "build failed" (snd (register_agent "engineer" empty_store))).
Proof.
  apply (reachable_store_ok (fun _ : string => "2024-01-01T00:00:00") (fun msg => msg)
           (fun _ => "ERROR")).
  apply reach_emit, reach_register_agent, reach_init.
Defined.

Lemma get_all_logs_by_agent_witness :
  List.NoDup
    (get_registered_agents
       (snd (register_agent "architect" (snd (register_agent "engineer" empty_store))))).
Proof.
  apply (get_all_logs_by_agent
           (snd (register_agent "architect" (snd (register_agent "engineer" empty_store))))).
  apply store_ok_register_agent, store_ok_register_agent, store_ok_empty.
Defined.

Lemma emit_is_seen_by_the_manager_witness :
  get_agent_logs "engineer"
    (emit (fun _ : string => "2024-01-01T00:00:00") (fun msg => msg) (fun _ => "ERROR")
       0 "build failed" (snd (register_agent "engineer" empty_store)))
  = [mkTraceEntry "2024-01-01T00:00:00" "build failed" "ERROR" "engineer"].
Proof.
  apply (emit_is_seen_by_the_manager
           (fun _ : string => "2024-01-01T00:00:00") (fun msg => msg) (fun _ => "ERROR")
           (snd (register_agent "engineer" empty_store)) "engineer" 0 "build failed").
  - apply store_ok_register_agent, store_ok_empty.
  - reflexivity.
Defined.

Lemma register_agent_effect_witness :
  get_registered_agents
    (snd (register_agent "engineer"
            (snd (register_agent "architect" (snd (register_agent "engineer" empty_store))))))
  = ["engineer"; "architect"].
Proof.
  apply (register_agent_effect
           (snd (register_agent "architect" (snd (register_agent "engineer" empty_store))))
           "engineer").
  apply store_ok_register_agent, store_ok_register_agent, store_ok_empty.
Defined.

Lemma stale_handler_is_not_collected_witness :
  get_all_logs
    (emit (fun _ : string => "2024-01-01T00:00:00") (fun msg => msg) (fun _ => "ERROR")
       0 "build failed"
       (snd (register_agent "engineer" (snd (register_agent "engineer" empty_store)))))
  = [].
Proof.
  apply (stale_handler_is_not_collected
           (fun _ : string => "2024-01-01T00:00:00") (fun msg => msg) (fun _ => "ERROR")
           (snd (register_agent "engineer" empty_store)) "engineer" 0 "build failed").
  - apply store_ok_register_agent, store_ok_empty.
  - reflexivity.
Defined.

Lemma clear_agent_logs_effect_witness :
  get_agent_logs "engineer"
    (clear_agent_logs "engineer"
       (emit (fun _ : string => "2024-01-01T00:00:00") (fun msg => msg) (fun _ => "ERROR")
          0 "build failed" (snd (register_agent "engineer" empty_store))))
  = [].
Proof.
  apply (clear_agent_logs_effect
           (emit (fun _ : string => "2024-01-01T00:00:00") (fun msg => msg)
              (fun _ => "ERROR") 0 "build failed"
              (snd (register_agent "engineer" empty_store)))
           "engineer").
  apply store_ok_emit, store_ok_register_agent, store_ok_empty.
Defined.
